(** * Honeybee [Face]: sub-face bookkeeping, adjacency and repair

    A shallow embedding of [honeybee/face.py].  A [Face] is a Python object
    that owns two lists of references to [Aperture] and [Door] objects; the
    methods of the class mutate the face, the sub-face objects and (for
    [set_adjacency]) a second face.  The embedding therefore keeps an explicit
    object store and writes every method in a state-and-exception monad: a
    method that raises leaves behind whatever it had already written, exactly
    as the Python code does.

    The geometry kernel (ladybug_geometry) is an external collaborator.  Its
    operations are the fields of the class [Geometry]; every definition and
    theorem below is parametric in it. *)

From Stdlib Require Import QArith Qabs Lqa.
From stdpp Require Import gmap strings list pretty.

Local Open Scope Z_scope.
Local Open Scope nat_scope.

(** ** Numbers

    Python floats are read as rationals; comparisons are the exact ones. *)

Definition Qleb (x y : Q) : bool := Qle_bool x y.
Definition Qltb (x y : Q) : bool := negb (Qle_bool y x).
Definition Qeqb (x y : Q) : bool := Qeq_bool x y.

(** [math.pi] is the double nearest to pi; [math.radians] multiplies by
    [pi / 180]. *)
Definition math_pi : Q := 884279719003555 # 281474976710656.
Definition math_radians (deg : Q) : Q := (deg * math_pi / 180)%Q.

(** Sum of a list of numbers, as Python's [sum]. *)
Definition Qsum (l : list Q) : Q := fold_left Qplus l 0%Q.

(** ** Points and vectors *)

Record Point2D := mkPoint2D { p2x : Q; p2y : Q }.
Record Vector2D := mkVector2D { v2x : Q; v2y : Q }.
Record Point3D := mkPoint3D { p3x : Q; p3y : Q; p3z : Q }.
Record Vector3D := mkVector3D { v3x : Q; v3y : Q; v3z : Q }.

Definition Qsqr (x : Q) : Q := (x * x)%Q.

(** Modelled from the spec: sub-faces are paired "within a distance
    tolerance".  [Point3D.distance_to_point] lives in the geometry library;
    [a.distance_to_point(b) <= tolerance] is the Euclidean test, written
    without the square root. *)
Definition distance_within (a b : Point3D) (tolerance : Q) : bool :=
  Qleb 0 tolerance &&
  Qleb (Qsqr (p3x a - p3x b) + Qsqr (p3y a - p3y b) + Qsqr (p3z a - p3z b))
       (Qsqr tolerance).

(** Modelled from the spec: [Point3D.is_equivalent] of the geometry library,
    "two coordinates are treated as equal" when they differ by at most the
    tolerance, coordinate by coordinate. *)
Definition is_equivalent (a b : Point3D) (tolerance : Q) : bool :=
  Qleb (Qabs (p3x a - p3x b)) tolerance &&
  Qleb (Qabs (p3y a - p3y b)) tolerance &&
  Qleb (Qabs (p3z a - p3z b)) tolerance.

Definition dot3 (u v : Vector3D) : Q :=
  (v3x u * v3x v + v3y u * v3y v + v3z u * v3z v)%Q.

(** [u.angle(v) > math.pi / 2]: the angle between two vectors exceeds a right
    angle exactly when their dot product is negative. *)
Definition angle_exceeds_right (u v : Vector3D) : bool := Qltb (dot3 u v) 0.

(** ** Exceptions and results *)

Inductive exn :=
| AssertionError
| ValueError
| IndexError
| KeyError
| AttributeError
| UnboundLocalError
| DanglingReference   (* a reference to an object the store does not hold;
                         never raised from a well-formed store *)
| OutOfFuel.          (* a loop of the model stopped before the source's
                         loop would have *)

#[global] Instance exn_eq_dec : EqDecision exn.
Proof. solve_decision. Defined.

Inductive result (A : Type) :=
| Ok (a : A)
| Raise (e : exn).
Arguments Ok {A} a.
Arguments Raise {A} e.

Definition is_ok {A} (r : result A) : bool :=
  match r with Ok _ => true | Raise _ => false end.

(** Sequencing of computations that may raise but touch no object. *)
Definition and_then {A B} (r : result A) (k : A -> result B) : result B :=
  match r with
  | Ok a => k a
  | Raise e => Raise e
  end.

(** [l[i]] *)
Definition index {A} (l : list A) (i : nat) : result A :=
  match l !! i with
  | Some x => Ok x
  | None => Raise IndexError
  end.

(** [l[-1]] *)
Definition index_last {A} (l : list A) : result A :=
  match last l with
  | Some x => Ok x
  | None => Raise IndexError
  end.

(** ** Tags *)

Inductive FaceType := Wall | Floor | RoofCeiling | AirBoundary.

#[global] Instance FaceType_eq_dec : EqDecision FaceType.
Proof. solve_decision. Defined.

(** Boundary conditions.  [Surface] carries the identifiers of the adjacent
    object and of its parents, and the flag telling whether it was built for
    a sub-face.  [OtherBC] stands for a class defined by an extension
    (Adiabatic and the like), known by its name only. *)
Inductive BoundaryCondition :=
| Outdoors
| Ground
| Surface (boundary_condition_objects : list string) (sub_face : bool)
| OtherBC (name : string).

#[global] Instance BoundaryCondition_eq_dec : EqDecision BoundaryCondition.
Proof. solve_decision. Defined.

Definition is_Outdoors (bc : BoundaryCondition) : bool :=
  match bc with Outdoors => true | _ => false end.

Definition is_Surface (bc : BoundaryCondition) : bool :=
  match bc with Surface _ _ => true | _ => false end.

(** [isinstance(value, (Outdoors, Surface))] *)
Definition is_Outdoors_or_Surface (bc : BoundaryCondition) : bool :=
  is_Outdoors bc || is_Surface bc.

Definition bc_name (bc : BoundaryCondition) : string :=
  match bc with
  | Outdoors => "Outdoors"
  | Ground => "Ground"
  | Surface _ _ => "Surface"
  | OtherBC n => n
  end.

Inductive SubKind := IsAperture | IsDoor.

#[global] Instance SubKind_eq_dec : EqDecision SubKind.
Proof. solve_decision. Defined.

(** Object references. *)
Abbreviation loc := nat.

(** ** The geometry library

    Every operation of ladybug_geometry that [face.py] calls.  An operation
    that the source guards with [except AssertionError] returns an option,
    [None] being the assertion failure of a degenerate shape.  Angles are in
    radians. *)

Class Geometry := {
  Face3D : Type;
  Polygon2D : Type;
  Plane : Type;
  LineSegment3D : Type;
  Mesh2D : Type;
  (* Face3D *)
  mk_Face3D : list Point3D -> option Plane -> option (list (list Point3D)) -> Face3D;
  f3_boundary : Face3D -> list Point3D;
  f3_holes : Face3D -> option (list (list Point3D));
  f3_vertices : Face3D -> list Point3D;
  f3_normal : Face3D -> Vector3D;
  f3_center : Face3D -> Point3D;
  f3_area : Face3D -> Q;
  f3_plane : Face3D -> Plane;
  f3_polygon2d : Face3D -> Polygon2D;
  f3_lower_left_corner : Face3D -> Point3D;
  f3_lower_left_counter_clockwise_vertices : Face3D -> list Point3D;
  f3_boundary_segments : Face3D -> list LineSegment3D;
  f3_hole_segments : Face3D -> list (list LineSegment3D);
  f3_flip : Face3D -> Face3D;
  f3_move : Face3D -> Vector3D -> Face3D;
  f3_rotate : Face3D -> Vector3D -> Q -> Point3D -> Face3D;
  f3_rotate_xy : Face3D -> Q -> Point3D -> Face3D;
  f3_reflect : Face3D -> Vector3D -> Point3D -> Face3D;
  f3_scale : Face3D -> Q -> option Point3D -> Face3D;
  f3_remove_colinear_vertices : Face3D -> Q -> option Face3D;
  f3_from_punched_geometry : Face3D -> list Face3D -> Face3D;
  f3_sub_faces_by_ratio : Face3D -> Q -> list Face3D;
  f3_sub_faces_by_ratio_rectangle : Face3D -> Q -> Q -> list Face3D;
  f3_sub_faces_by_ratio_sub_rectangle :
    Face3D -> Q -> Q -> Q -> Q -> Q -> Q -> list Face3D;
  f3_sub_faces_by_ratio_gridded : Face3D -> Q -> Q -> option Q -> list Face3D;
  f3_sub_faces_by_dimension_rectangle :
    Face3D -> Q -> Q -> Q -> Q -> Q -> list Face3D;
  f3_join_coplanar_faces : list Face3D -> Q -> list Face3D;
  f3_merge_faces_to_holes : list Face3D -> Q -> list Face3D;
  f3_coplanar_intersection : Face3D -> Face3D -> Q -> Q -> option (list Face3D);
  (* Polygon2D *)
  mk_Polygon2D : list Point2D -> Polygon2D;
  p2_vertices : Polygon2D -> list Point2D;
  p2_min : Polygon2D -> Point2D;
  p2_max : Polygon2D -> Point2D;
  p2_center : Polygon2D -> Point2D;
  p2_area : Polygon2D -> Q;
  p2_is_rectangle : Polygon2D -> Q -> bool;
  p2_remove_colinear_vertices : Polygon2D -> Q -> option Polygon2D;
  p2_from_rectangle : Point2D -> Vector2D -> Q -> Q -> Polygon2D;
  p2_gap_crossing_boundary : list Polygon2D -> Q -> Q -> list Polygon2D;
  p2_joined_intersected_boundary : list Polygon2D -> Q -> list Polygon2D;
  p2_group_by_overlap : list Polygon2D -> Q -> list (list Polygon2D);
  p2_boolean_union_all : list Polygon2D -> Q -> list Polygon2D;
  p2_is_point_inside_bound_rect : Polygon2D -> Point2D -> bool;
  p2_is_polygon_inside : Polygon2D -> Polygon2D -> bool;
  p2_is_polygon_outside : Polygon2D -> Polygon2D -> bool;
  p2_polygon_relationship : Polygon2D -> Polygon2D -> Q -> Z;
  p2_offset : Polygon2D -> Q -> bool -> option Polygon2D;
  (* Plane *)
  mk_Plane : Vector3D -> Point3D -> option Vector3D -> Plane;
  pl_n : Plane -> Vector3D;
  pl_o : Plane -> Point3D;
  pl_y : Plane -> Vector3D;
  pl_xyz_to_xy : Plane -> Point3D -> Point2D;
  pl_xy_to_xyz : Plane -> Point2D -> Point3D;
  pl_project_point : Plane -> Point3D -> Point3D;
  pl_rotate : Plane -> Vector3D -> Q -> Point3D -> Plane;
  (* vectors and points *)
  v3_angle : Vector3D -> Vector3D -> Q;
  v3_project : Vector3D -> Vector3D -> Vector3D;
  v3_rotate : Vector3D -> Vector3D -> Q -> Vector3D;
  v3_normalize : Vector3D -> Vector3D;
  (* LineSegment3D *)
  ls_closest_point : LineSegment3D -> Point3D -> Point3D;
  ls_v : LineSegment3D -> Vector3D;
  (* Mesh2D *)
  m2_from_polygon_grid : Polygon2D -> Q -> Q -> bool -> option Mesh2D;
  m2_vertices : Mesh2D -> list Point2D;
  m2_faces : Mesh2D -> list (list nat)
}.

(** ** The data model *)

Section Model.
Context `{Geo : Geometry}.

(** A Room, as far as a Face looks at its parent. *)
Record Room := mkRoom {
  room_identifier : string;
  room_display_name : string
}.

(** An Aperture or a Door ([aperture.py] and [door.py]): the attributes that
    [face.py] reads or writes.  [sf_is_operable] is [is_operable] of an
    Aperture and [is_glass] of a Door: the flag that [set_adjacency] of the
    sub-face compares; [face.py] reads it on Apertures only. *)
Record SubFace := mkSubFace {
  sf_kind : SubKind;
  sf_identifier : string;
  sf_display_name : string;
  sf_geometry : Face3D;
  sf_is_operable : bool;
  sf_boundary_condition : BoundaryCondition;
  sf_parent : option loc
}.

(** The slots of [Face] ([_geometry], [_parent], [_punched_geometry],
    [_apertures], [_doors], [_type], [_boundary_condition]) and the
    identifier, display name and user data of its base class.  Shades and
    extension properties are kept by [_BaseWithShade] and [FaceProperties];
    no method below reads them back, and they are left out. *)
Record Face := mkFace {
  f_identifier : string;
  f_display_name : string;
  f_user_data : option string;
  f_geometry : Face3D;
  f_parent : option Room;
  f_punched_geometry : option Face3D;
  f_apertures : list loc;
  f_doors : list loc;
  f_type : FaceType;
  f_boundary_condition : BoundaryCondition
}.

(** The object store: the faces, the apertures and doors, and the next free
    reference for a sub-face object. *)
Record Heap := mkHeap {
  h_faces : gmap loc Face;
  h_subs : gmap loc SubFace;
  h_next : loc
}.

(** Attribute assignment. *)
Definition with_sf_identifier (v : string) (s : SubFace) : SubFace :=
  mkSubFace (sf_kind s) v (sf_display_name s) (sf_geometry s)
            (sf_is_operable s) (sf_boundary_condition s) (sf_parent s).
Definition with_sf_display_name (v : string) (s : SubFace) : SubFace :=
  mkSubFace (sf_kind s) (sf_identifier s) v (sf_geometry s)
            (sf_is_operable s) (sf_boundary_condition s) (sf_parent s).
Definition with_sf_geometry (v : Face3D) (s : SubFace) : SubFace :=
  mkSubFace (sf_kind s) (sf_identifier s) (sf_display_name s) v
            (sf_is_operable s) (sf_boundary_condition s) (sf_parent s).
Definition with_sf_boundary_condition (v : BoundaryCondition) (s : SubFace) : SubFace :=
  mkSubFace (sf_kind s) (sf_identifier s) (sf_display_name s) (sf_geometry s)
            (sf_is_operable s) v (sf_parent s).
Definition with_sf_parent (v : option loc) (s : SubFace) : SubFace :=
  mkSubFace (sf_kind s) (sf_identifier s) (sf_display_name s) (sf_geometry s)
            (sf_is_operable s) (sf_boundary_condition s) v.

Definition with_identifier (v : string) (f : Face) : Face :=
  mkFace v (f_display_name f) (f_user_data f) (f_geometry f) (f_parent f)
         (f_punched_geometry f) (f_apertures f) (f_doors f) (f_type f)
         (f_boundary_condition f).
Definition with_display_name (v : string) (f : Face) : Face :=
  mkFace (f_identifier f) v (f_user_data f) (f_geometry f) (f_parent f)
         (f_punched_geometry f) (f_apertures f) (f_doors f) (f_type f)
         (f_boundary_condition f).
Definition with_user_data (v : option string) (f : Face) : Face :=
  mkFace (f_identifier f) (f_display_name f) v (f_geometry f) (f_parent f)
         (f_punched_geometry f) (f_apertures f) (f_doors f) (f_type f)
         (f_boundary_condition f).
Definition with_geometry (v : Face3D) (f : Face) : Face :=
  mkFace (f_identifier f) (f_display_name f) (f_user_data f) v (f_parent f)
         (f_punched_geometry f) (f_apertures f) (f_doors f) (f_type f)
         (f_boundary_condition f).
Definition with_punched_geometry (v : option Face3D) (f : Face) : Face :=
  mkFace (f_identifier f) (f_display_name f) (f_user_data f) (f_geometry f)
         (f_parent f) v (f_apertures f) (f_doors f) (f_type f)
         (f_boundary_condition f).
Definition with_apertures (v : list loc) (f : Face) : Face :=
  mkFace (f_identifier f) (f_display_name f) (f_user_data f) (f_geometry f)
         (f_parent f) (f_punched_geometry f) v (f_doors f) (f_type f)
         (f_boundary_condition f).
Definition with_doors (v : list loc) (f : Face) : Face :=
  mkFace (f_identifier f) (f_display_name f) (f_user_data f) (f_geometry f)
         (f_parent f) (f_punched_geometry f) (f_apertures f) v (f_type f)
         (f_boundary_condition f).
Definition with_type (v : FaceType) (f : Face) : Face :=
  mkFace (f_identifier f) (f_display_name f) (f_user_data f) (f_geometry f)
         (f_parent f) (f_punched_geometry f) (f_apertures f) (f_doors f) v
         (f_boundary_condition f).
Definition with_boundary_condition (v : BoundaryCondition) (f : Face) : Face :=
  mkFace (f_identifier f) (f_display_name f) (f_user_data f) (f_geometry f)
         (f_parent f) (f_punched_geometry f) (f_apertures f) (f_doors f)
         (f_type f) v.

(** [list == []] and [list != []] *)
Definition is_nil {A} (l : list A) : bool :=
  match l with [] => true | _ => false end.

(** ** The monad of methods

    A computation takes the store and gives a result, a value or a raised
    exception, together with the store as the computation left it. *)

Definition M (A : Type) : Type := Heap -> result A * Heap.

Definition ret {A} (a : A) : M A := fun h => (Ok a, h).

Definition raise {A} (e : exn) : M A := fun h => (Raise e, h).

Definition bind {A B} (m : M A) (k : A -> M B) : M B :=
  fun h =>
    match m h with
    | (Ok a, h') => k a h'
    | (Raise e, h') => (Raise e, h')
    end.

(** [try: m except E: handler], for the exceptions [E] that [catches]
    accepts. *)
Definition try_except {A} (m : M A) (catches : exn -> bool) (handler : M A) : M A :=
  fun h =>
    match m h with
    | (Ok a, h') => (Ok a, h')
    | (Raise e, h') => if catches e then handler h' else (Raise e, h')
    end.

Definition assert_ (b : bool) : M unit :=
  if b then ret tt else raise AssertionError.

Definition get_heap : M Heap := fun h => (Ok h, h).

Definition get_face (l : loc) : M Face :=
  fun h =>
    match h_faces h !! l with
    | Some f => (Ok f, h)
    | None => (Raise DanglingReference, h)
    end.

Definition put_face (l : loc) (f : Face) : M unit :=
  fun h => (Ok tt, mkHeap (<[l:=f]> (h_faces h)) (h_subs h) (h_next h)).

Definition get_sub (l : loc) : M SubFace :=
  fun h =>
    match h_subs h !! l with
    | Some s => (Ok s, h)
    | None => (Raise DanglingReference, h)
    end.

Definition put_sub (l : loc) (s : SubFace) : M unit :=
  fun h => (Ok tt, mkHeap (h_faces h) (<[l:=s]> (h_subs h)) (h_next h)).

(** Construction of a new Aperture or Door object. *)
Definition new_sub (s : SubFace) : M loc :=
  fun h =>
    (Ok (h_next h),
     mkHeap (h_faces h) (<[h_next h:=s]> (h_subs h)) (S (h_next h))).

End Model.

Declare Scope py_scope.
Delimit Scope py_scope with py.
Notation "x <- m ;; k" := (bind m (fun x => k))
  (at level 100, m at next level, right associativity) : py_scope.
Notation "m ;; k" := (bind m (fun _ => k))
  (at level 100, right associativity) : py_scope.
Local Open Scope py_scope.

(** ** Control flow *)

Section Control.
Context `{Geo : Geometry}.

(** [for x in l: body(x)] *)
Fixpoint for_each {A} (l : list A) (body : A -> M unit) : M unit :=
  match l with
  | [] => ret tt
  | x :: l' => body x ;; for_each l' body
  end.

(** [[f(x) for x in l]] *)
Fixpoint map_M {A B} (f : A -> M B) (l : list A) : M (list B) :=
  match l with
  | [] => ret []
  | x :: l' => y <- f x ;; ys <- map_M f l' ;; ret (y :: ys)
  end.

Definition modify_face (l : loc) (g : Face -> Face) : M unit :=
  f <- get_face l ;; put_face l (g f).

Definition modify_sub (l : loc) (g : SubFace -> SubFace) : M unit :=
  s <- get_sub l ;; put_sub l (g s).

(** [enumerate(l)] *)
Definition enumerate {A} (l : list A) : list (nat * A) :=
  zip (seq 0 (length l)) l.

End Control.

(** ** Apertures and Doors

    [aperture.py] and [door.py] are not part of the sources at hand.  The
    few methods of theirs that [face.py] calls are written out here. *)

Section SubFaces.
Context `{Geo : Geometry}.

(** Modelled from the spec: an Aperture or Door built by its constructor, as
    [Aperture(identifier, geometry, is_operable=...)].  The display name
    defaults to the identifier, the boundary condition to Outdoors, and the
    object has no parent yet. *)
Definition Aperture (identifier : string) (geometry : Face3D) (is_operable : bool) : SubFace :=
  mkSubFace IsAperture identifier identifier geometry is_operable Outdoors None.

(** Modelled from the spec: "geometric transform (move/rotate/scale/reflect)"
    of a sibling entity moves its geometry. *)
Definition sub_transform (t : Face3D -> Face3D) (l : loc) : M unit :=
  modify_sub l (fun s => with_sf_geometry (t (sf_geometry s)) s).

(** Modelled from the spec: [remove_colinear_vertices] of a sub-face, which
    raises ValueError on a degenerate geometry as the method of Face does. *)
Definition sub_remove_colinear_vertices (l : loc) (tolerance : Q) : M unit :=
  s <- get_sub l ;;
  match f3_remove_colinear_vertices (sf_geometry s) tolerance with
  | Some g => put_sub l (with_sf_geometry g s)
  | None => raise ValueError
  end.

(** Modelled from the spec: "duplicate/copy" of a sibling entity gives a new
    object with the same attributes and no parent. *)
Definition sub_duplicate (l : loc) : M loc :=
  s <- get_sub l ;; new_sub (with_sf_parent None s).

(** The identifiers of the parents of a sub-face, nearest first. *)
Definition parent_identifiers (h : Heap) (parent : option loc) : list string :=
  match parent with
  | None => []
  | Some p =>
      match h_faces h !! p with
      | None => []
      | Some f =>
          f_identifier f ::
          match f_parent f with Some r => [room_identifier r] | None => [] end
      end
  end.

(** Modelled from the spec: a sub-face "may be linked to a matching sub-face
    on an adjacent Face (adjacency pairing) by identifier reference": each of
    the two gets a Surface condition naming the other.  [set_adjacency] of
    an Aperture or a Door first asserts that the other object is of its own
    class and has the same [is_operable] flag ([is_glass] for a Door): an
    AssertionError before anything is written. *)
Definition sub_set_adjacency (a b : loc) : M unit :=
  h <- get_heap ;;
  sa <- get_sub a ;;
  sb <- get_sub b ;;
  assert_ (bool_decide (sf_kind sb = sf_kind sa)) ;;
  assert_ (Bool.eqb (sf_is_operable sb) (sf_is_operable sa)) ;;
  modify_sub a (with_sf_boundary_condition
    (Surface (sf_identifier sb :: parent_identifiers h (sf_parent sb)) true)) ;;
  modify_sub b (with_sf_boundary_condition
    (Surface (sf_identifier sa :: parent_identifiers h (sf_parent sa)) true)).

(** Modelled from the spec: [boundary_conditions.surface(face)], the Surface
    condition that references [face] by identifier. *)
Definition surface (f : Face) : BoundaryCondition :=
  Surface (f_identifier f ::
           match f_parent f with Some r => [room_identifier r] | None => [] end)
          false.

End SubFaces.

(** ** The methods of [Face] *)

Section FaceMethods.
Context `{Geo : Geometry}.

(** [Face.__init__], with the type and the boundary condition given (their
    defaults come from [facetype.py] and [boundarycondition.py]).  A new face
    has no parent, no sub-faces and no cached punched geometry. *)
Definition new_Face (identifier : string) (geometry : Face3D)
    (type : FaceType) (boundary_condition : BoundaryCondition) : Face :=
  mkFace identifier identifier None geometry None None [] [] type
         boundary_condition.

Definition new_face_object (f : Face) : M loc :=
  fun h =>
    (Ok (h_next h),
     mkHeap (<[h_next h:=f]> (h_faces h)) (h_subs h) (S (h_next h))).

(** [Face.type] setter *)
Definition set_type (self : loc) (value : FaceType) : M unit :=
  f <- get_face self ;;
  (if decide (value = AirBoundary)
   then assert_ (is_nil (f_apertures f) || is_nil (f_doors f))
   else ret tt) ;;
  modify_face self (with_type value).

(** [Face.boundary_condition] setter *)
Definition set_boundary_condition (self : loc) (value : BoundaryCondition) : M unit :=
  f <- get_face self ;;
  (if negb (is_nil (f_apertures f)) || negb (is_nil (f_doors f))
   then assert_ (is_Outdoors_or_Surface value)
   else ret tt) ;;
  modify_face self (with_boundary_condition value).

(** [Face.sub_faces] *)
Definition sub_faces (f : Face) : list loc := f_apertures f ++ f_doors f.

(** [Face.has_sub_faces] *)
Definition has_sub_faces (f : Face) : bool :=
  negb (is_nil (f_apertures f) && is_nil (f_doors f)).

(** [Face.can_be_ground] *)
Definition can_be_ground (f : Face) : bool :=
  is_nil (f_apertures f) && is_nil (f_doors f) &&
  negb (bool_decide (f_type f = AirBoundary)).

(** What [Face.punched_geometry] computes when nothing is cached. *)
Definition compute_punched_geometry (geometry : Face3D) (subs : list SubFace) : Face3D :=
  let _sub_faces := map sf_geometry subs in
  if negb (length _sub_faces =? 0)
  then f3_from_punched_geometry geometry _sub_faces
  else geometry.

(** [Face.punched_geometry] *)
Definition punched_geometry (self : loc) : M Face3D :=
  f <- get_face self ;;
  match f_punched_geometry f with
  | Some g => ret g
  | None =>
      subs <- map_M get_sub (f_apertures f ++ f_doors f) ;;
      let g := compute_punched_geometry (f_geometry f) subs in
      modify_face self (with_punched_geometry (Some g)) ;;
      ret g
  end.

(** [Face.aperture_area] *)
Definition aperture_area (self : loc) : M Q :=
  f <- get_face self ;;
  aps <- map_M get_sub (f_apertures f) ;;
  ret (Qsum (map (fun ap => f3_area (sf_geometry ap)) aps)).

(** [Face.remove_apertures] *)
Definition remove_apertures (self : loc) : M unit :=
  f <- get_face self ;;
  for_each (f_apertures f) (fun aperture =>
    modify_sub aperture (with_sf_parent None)) ;;
  modify_face self (with_apertures []) ;;
  modify_face self (with_punched_geometry None).

(** [Face.remove_doors].  The loop runs over [self._apertures], as the
    source has it. *)
Definition remove_doors (self : loc) : M unit :=
  f <- get_face self ;;
  for_each (f_apertures f) (fun door =>
    modify_sub door (with_sf_parent None)) ;;
  modify_face self (with_doors []) ;;
  modify_face self (with_punched_geometry None).

(** [Face.remove_sub_faces] *)
Definition remove_sub_faces (self : loc) : M unit :=
  remove_apertures self ;;
  remove_doors self.

(** [Face._acceptable_sub_face_check] *)
Definition _acceptable_sub_face_check (self : loc) : M unit :=
  f <- get_face self ;;
  assert_ (is_Outdoors (f_boundary_condition f)) ;;
  assert_ (negb (bool_decide (f_type f = AirBoundary))).

(** The body shared by [add_aperture] and [add_door], after the type check
    of the argument. *)
Definition attach_sub_face (self : loc) (sub : loc)
    (append : loc -> Face -> Face) : M unit :=
  _acceptable_sub_face_check self ;;
  modify_sub sub (with_sf_parent (Some self)) ;;
  f <- get_face self ;;
  s <- get_sub sub ;;
  (if angle_exceeds_right (f3_normal (f_geometry f)) (f3_normal (sf_geometry s))
   then modify_sub sub (with_sf_geometry (f3_flip (sf_geometry s)))
   else ret tt) ;;
  modify_face self (append sub) ;;
  modify_face self (with_punched_geometry None).

(** [Face.add_aperture] *)
Definition add_aperture (self : loc) (aperture : loc) : M unit :=
  s <- get_sub aperture ;;
  assert_ (bool_decide (sf_kind s = IsAperture)) ;;
  attach_sub_face self aperture
    (fun a f => with_apertures (f_apertures f ++ [a]) f).

(** [Face.add_door] *)
Definition add_door (self : loc) (door : loc) : M unit :=
  s <- get_sub door ;;
  assert_ (bool_decide (sf_kind s = IsDoor)) ;;
  attach_sub_face self door
    (fun d f => with_doors (f_doors f ++ [d]) f).

(** [Face.add_sub_face] *)
Definition add_sub_face (self : loc) (sub_face : loc) : M unit :=
  s <- get_sub sub_face ;;
  if bool_decide (sf_kind s = IsAperture)
  then add_aperture self sub_face
  else add_door self sub_face.

(** [Face.add_apertures], [Face.add_doors], [Face.add_sub_faces] *)
Definition add_apertures (self : loc) (apertures : list loc) : M unit :=
  for_each apertures (add_aperture self).

Definition add_doors (self : loc) (doors : list loc) : M unit :=
  for_each doors (add_door self).

Definition add_sub_faces (self : loc) (subs : list loc) : M unit :=
  for_each subs (add_sub_face self).

(** [Face.replace_apertures] *)
Definition replace_apertures (self : loc) (apertures : list loc) : M unit :=
  remove_sub_faces self ;;
  add_apertures self apertures.

(** The transforms [move], [rotate], [rotate_xy], [reflect] and [scale] have
    one shape: the geometry of the face, then every aperture, then every
    door, then the cache.  [t] is the transform of the geometry library. *)
Definition transform (self : loc) (t : Face3D -> Face3D) : M unit :=
  modify_face self (fun f => with_geometry (t (f_geometry f)) f) ;;
  f <- get_face self ;;
  for_each (f_apertures f) (sub_transform t) ;;
  for_each (f_doors f) (sub_transform t) ;;
  modify_face self (with_punched_geometry None).

(** [Face.move] *)
Definition move (self : loc) (moving_vec : Vector3D) : M unit :=
  transform self (fun g => f3_move g moving_vec).

(** [Face.rotate], the angle in degrees *)
Definition rotate (self : loc) (axis : Vector3D) (angle : Q) (origin : Point3D) : M unit :=
  transform self (fun g => f3_rotate g axis (math_radians angle) origin).

(** [Face.rotate_xy] *)
Definition rotate_xy (self : loc) (angle : Q) (origin : Point3D) : M unit :=
  transform self (fun g => f3_rotate_xy g (math_radians angle) origin).

(** [Face.reflect], the plane given by its normal and origin *)
Definition reflect (self : loc) (plane : Plane) : M unit :=
  transform self (fun g => f3_reflect g (pl_n plane) (pl_o plane)).

(** [Face.scale] *)
Definition scale (self : loc) (factor : Q) (origin : option Point3D) : M unit :=
  transform self (fun g => f3_scale g factor origin).

(** [Face.remove_colinear_vertices] *)
Definition remove_colinear_vertices (self : loc) (tolerance : Q) : M unit :=
  f <- get_face self ;;
  match f3_remove_colinear_vertices (f_geometry f) tolerance with
  | None => raise ValueError
  | Some g =>
      modify_face self (with_geometry g) ;;
      modify_face self (with_punched_geometry None)
  end.

(** The references of [l] whose sub-face [remove_colinear_vertices] leaves
    standing; the others are the indices the source pops. *)
Fixpoint drop_degenerate (l : list loc) (tolerance : Q) : M (list loc) :=
  match l with
  | [] => ret []
  | x :: l' =>
      kept <- try_except
                (sub_remove_colinear_vertices x tolerance ;; ret true)
                (fun e => bool_decide (e = ValueError))
                (ret false) ;;
      rest <- drop_degenerate l' tolerance ;;
      ret (if kept : bool then x :: rest else rest)
  end.

(** [Face.remove_degenerate_sub_faces] *)
Definition remove_degenerate_sub_faces (self : loc) (tolerance : Q) : M unit :=
  f <- get_face self ;;
  aps <- drop_degenerate (f_apertures f) tolerance ;;
  modify_face self (with_apertures aps) ;;
  f <- get_face self ;;
  drs <- drop_degenerate (f_doors f) tolerance ;;
  modify_face self (with_doors drs).

End FaceMethods.



(** ** Adjacency *)

Section Adjacency.
Context `{Geo : Geometry}.

(** [aperture.center], the center of the geometry. *)
Definition sf_center (s : SubFace) : Point3D := f3_center (sf_geometry s).

(** The result of [set_adjacency]: the pairs of apertures and of doors. *)
Record AdjacencyInfo := mkAdjacencyInfo {
  adjacent_apertures : list (loc * loc);
  adjacent_doors : list (loc * loc)
}.

(** The inner loop: the first sub-face of the other face whose center lies
    within the tolerance is paired with [sub_1], and the loop breaks. *)
Fixpoint pair_with_first (sub_1 : loc) (others : list loc) (tolerance : Q)
    : M (option loc) :=
  match others with
  | [] => ret None
  | sub_2 :: rest =>
      s1 <- get_sub sub_1 ;;
      s2 <- get_sub sub_2 ;;
      if distance_within (sf_center s1) (sf_center s2) tolerance
      then sub_set_adjacency sub_1 sub_2 ;; ret (Some sub_2)
      else pair_with_first sub_1 rest tolerance
  end.

(** The outer loop: the pairs found, in order; their number is
    [found_adjacencies]. *)
Fixpoint pair_sub_faces (mine others : list loc) (tolerance : Q)
    : M (list (loc * loc)) :=
  match mine with
  | [] => ret []
  | sub_1 :: rest =>
      r <- pair_with_first sub_1 others tolerance ;;
      ps <- pair_sub_faces rest others tolerance ;;
      ret (match r with Some sub_2 => (sub_1, sub_2) :: ps | None => ps end)
  end.

(** The two blocks of [set_adjacency] that follow the assignment of the
    boundary conditions: the apertures are set adjacent to one another, then
    the doors.  [s] and [o] are [self] and [other_face]. *)
Definition set_sub_faces_adjacent (s o : Face) (tolerance : Q) : M AdjacencyInfo :=
  (* set the apertures to be adjacent to one another *)
  (if negb (length (f_apertures s) =? length (f_apertures o))
   then raise AssertionError else ret tt) ;;
  aps <- (if 0 <? length (f_apertures s)
          then
            found <- pair_sub_faces (f_apertures s) (f_apertures o) tolerance ;;
            (if negb (length (f_apertures s) =? length found)
             then raise AssertionError else ret tt) ;;
            ret found
          else ret []) ;;
  (* set the doors to be adjacent to one another *)
  assert_ (length (f_doors s) =? length (f_doors o)) ;;
  drs <- (if 0 <? length (f_doors s)
          then
            found <- pair_sub_faces (f_doors s) (f_doors o) tolerance ;;
            (if negb (length (f_doors s) =? length found)
             then raise AssertionError else ret tt) ;;
            ret found
          else ret []) ;;
  ret (mkAdjacencyInfo aps drs).

(** [Face.set_adjacency].  The messages of the exceptions are not kept. *)
Definition set_adjacency (self other_face : loc) (tolerance : Q) : M AdjacencyInfo :=
  (* set the boundary conditions of the faces *)
  o <- get_face other_face ;;
  modify_face self (with_boundary_condition (surface o)) ;;
  s <- get_face self ;;
  modify_face other_face (with_boundary_condition (surface s)) ;;
  s <- get_face self ;;
  o <- get_face other_face ;;
  set_sub_faces_adjacent s o tolerance.

End Adjacency.

(** ** Builders of apertures *)

Section Builders.
Context `{Geo : Geometry}.

(** ['{}_Glz{}'.format(identifier, i)] *)
Definition glz_identifier (identifier : string) (i : nat) : string :=
  identifier +:+ "_Glz" +:+ pretty i.

(** The closing loop of every builder:
    [for i, ap_face in enumerate(ap_faces)], a new Aperture each, added to
    the face. *)
Definition add_generated_apertures (self : loc) (ap_faces : list Face3D) : M unit :=
  for_each (enumerate ap_faces) (fun '(i, ap_face) =>
    f <- get_face self ;;
    aperture <- new_sub (Aperture (glz_identifier (f_identifier f) i) ap_face false) ;;
    add_aperture self aperture).

(** [Face.apertures_by_ratio] *)
Definition apertures_by_ratio (self : loc) (ratio tolerance : Q) (rect_split : bool) : M unit :=
  assert_ (Qleb 0 ratio && Qltb ratio 1) ;;
  _acceptable_sub_face_check self ;;
  remove_sub_faces self ;;
  if Qeqb ratio 0 then ret tt else
  f <- get_face self ;;
  match f3_remove_colinear_vertices (f_geometry f) tolerance with
  | None => ret tt  (* degenerate face that should not have apertures *)
  | Some geo =>
      let ap_faces :=
        if rect_split
        then f3_sub_faces_by_ratio_rectangle geo ratio tolerance
        else f3_sub_faces_by_ratio geo ratio in
      add_generated_apertures self ap_faces
  end.

(** [Face.apertures_by_ratio_rectangle] *)
Definition apertures_by_ratio_rectangle (self : loc)
    (ratio aperture_height sill_height horizontal_separation
     vertical_separation tolerance : Q) : M unit :=
  assert_ (Qleb 0 ratio && Qleb ratio (95 # 100)) ;;
  _acceptable_sub_face_check self ;;
  remove_sub_faces self ;;
  if Qeqb ratio 0 then ret tt else
  f <- get_face self ;;
  match f3_remove_colinear_vertices (f_geometry f) tolerance with
  | None => ret tt
  | Some geo =>
      add_generated_apertures self
        (f3_sub_faces_by_ratio_sub_rectangle geo ratio aperture_height
           sill_height horizontal_separation vertical_separation tolerance)
  end.

(** [Face.apertures_by_ratio_gridded] *)
Definition apertures_by_ratio_gridded (self : loc)
    (ratio x_dim : Q) (y_dim : option Q) (tolerance : Q) : M unit :=
  assert_ (Qleb 0 ratio && Qltb ratio 1) ;;
  _acceptable_sub_face_check self ;;
  remove_sub_faces self ;;
  if Qeqb ratio 0 then ret tt else
  f <- get_face self ;;
  match f3_remove_colinear_vertices (f_geometry f) tolerance with
  | None => ret tt
  | Some geo =>
      add_generated_apertures self
        (f3_sub_faces_by_ratio_gridded geo ratio x_dim y_dim)
  end.

(** [Face.apertures_by_width_height_rectangle] *)
Definition apertures_by_width_height_rectangle (self : loc)
    (aperture_height aperture_width sill_height horizontal_separation
     tolerance : Q) : M unit :=
  assert_ (Qltb 0 horizontal_separation) ;;
  if Qleb aperture_height 0 || Qleb aperture_width 0 then ret tt else
  _acceptable_sub_face_check self ;;
  remove_sub_faces self ;;
  f <- get_face self ;;
  match f3_remove_colinear_vertices (f_geometry f) tolerance with
  | None => ret tt
  | Some geo =>
      add_generated_apertures self
        (f3_sub_faces_by_dimension_rectangle geo aperture_height
           aperture_width sill_height horizontal_separation tolerance)
  end.

(** [Face.aperture_by_width_height]; the result is the new Aperture, or
    [None] when a dimension is not positive. *)
Definition aperture_by_width_height (self : loc) (width height sill_height : Q)
    (aperture_identifier : option string) : M (option loc) :=
  if Qleb width 0 || Qleb height 0 then ret None else
  _acceptable_sub_face_check self ;;
  f <- get_face self ;;
  let origin :=
    default (mkPoint3D 0 0 0)
            (head (f3_lower_left_counter_clockwise_vertices (f_geometry f))) in
  let face_plane := mk_Plane (pl_n (f3_plane (f_geometry f))) origin None in
  let face_plane :=
    if Qltb (v3z (pl_y face_plane)) 0
    then pl_rotate face_plane (pl_n face_plane) math_pi (pl_o face_plane)
    else face_plane in
  let center2d := pl_xyz_to_xy face_plane (f3_center (f_geometry f)) in
  let x_dist := (width / 2)%Q in
  let lower_left := mkPoint2D (p2x center2d - x_dist) sill_height in
  let lower_right := mkPoint2D (p2x center2d + x_dist) sill_height in
  let upper_right := mkPoint2D (p2x center2d + x_dist) (sill_height + height) in
  let upper_left := mkPoint2D (p2x center2d - x_dist) (sill_height + height) in
  let ap_verts2d := [lower_left; lower_right; upper_right; upper_left] in
  let ap_verts3d := map (pl_xy_to_xyz face_plane) ap_verts2d in
  let ap_face := mk_Face3D ap_verts3d (Some (f3_plane (f_geometry f))) None in
  let ap_face :=
    if angle_exceeds_right (f3_normal (f_geometry f)) (f3_normal ap_face)
    then f3_flip ap_face else ap_face in
  let identifier :=
    match aperture_identifier with
    | Some (String c s) => String c s
    | _ => glz_identifier (f_identifier f) (length (f_apertures f))
    end in
  aperture <- new_sub (Aperture identifier ap_face false) ;;
  add_aperture self aperture ;;
  ret (Some aperture).

End Builders.

(** ** Editing and repairing sub-faces *)

Section Repair.
Context `{Geo : Geometry}.

Definition v3_times (v : Vector3D) (s : Q) : Vector3D :=
  mkVector3D (v3x v * s) (v3y v * s) (v3z v * s).

Definition p3_move (p : Point3D) (v : Vector3D) : Point3D :=
  mkPoint3D (p3x p + v3x v) (p3y p + v3y v) (p3z p + v3z v).

(** [a.distance_to_point(b) < d], the Euclidean test without the square
    root. *)
Definition distance_below (a b : Point3D) (d : Q) : bool :=
  Qltb 0 d &&
  Qltb (Qsqr (p3x a - p3x b) + Qsqr (p3y a - p3y b) + Qsqr (p3z a - p3z b))
       (Qsqr d).

(** The sub-faces of a face as the method finds them: each reference with
    the state of its object. *)
Definition snapshot (subs : list loc) : M (list (loc * SubFace)) :=
  map_M (fun l => s <- get_sub l ;; ret (l, s)) subs.

(** The polygon of a sub-face in the plane of the face, without colinear
    vertices; [None] for a degenerate geometry. *)
Definition sub_polygon (prim_pl : Plane) (s : SubFace) (tolerance : Q) : option Polygon2D :=
  let verts_2d := map (pl_xyz_to_xy prim_pl) (f3_boundary (sf_geometry s)) in
  p2_remove_colinear_vertices (mk_Polygon2D verts_2d) tolerance.

(** The first loop of [merge_neighboring_sub_faces] and
    [fix_invalid_sub_faces]: [clean_polys] zipped with [original_objs];
    degenerate geometries are ignored. *)
Fixpoint collect_polygons (prim_pl : Plane) (subs : list (loc * SubFace))
    (tolerance : Q) : list (Polygon2D * (loc * SubFace)) :=
  match subs with
  | [] => []
  | sub_f :: rest =>
      match sub_polygon prim_pl sub_f.2 tolerance with
      | Some poly => (poly, sub_f) :: collect_polygons prim_pl rest tolerance
      | None => collect_polygons prim_pl rest tolerance
      end
  end.

(** The matching loop over [zip(original_polys, original_objs)]: the first
    original whose polygon center lies in the bounding rectangle of the new
    polygon. *)
Fixpoint find_original (n_poly : Polygon2D)
    (originals : list (Polygon2D * (loc * SubFace))) : option (loc * SubFace) :=
  match originals with
  | [] => None
  | (o_poly, o_obj) :: rest =>
      if p2_is_point_inside_bound_rect n_poly (p2_center o_poly)
      then Some o_obj
      else find_original n_poly rest
  end.

(** The block that ends both [merge_neighboring_sub_faces] and
    [fix_invalid_sub_faces]: all sub-faces are removed and one sub-face is
    made for each polygon. *)
Definition rebuild_sub_faces (self : loc) (prim_pl : Plane)
    (clean_polys : list Polygon2D)
    (originals : list (Polygon2D * (loc * SubFace))) : M unit :=
  remove_sub_faces self ;;
  for_each (enumerate clean_polys) (fun '(i, n_poly) =>
    let new_geo :=
      mk_Face3D (map (pl_xy_to_xyz prim_pl) (p2_vertices n_poly))
                (Some prim_pl) None in
    match find_original n_poly originals with
    | None =>
        f <- get_face self ;;
        new_ap <- new_sub (Aperture (f_identifier f +:+ "_" +:+ pretty i) new_geo false) ;;
        add_aperture self new_ap
    | Some (orig_obj, orig) =>
        match sf_kind orig with
        | IsAperture =>
            new_ap <- sub_duplicate orig_obj ;;
            modify_sub new_ap (with_sf_geometry new_geo) ;;
            add_aperture self new_ap
        | IsDoor =>
            new_door <- sub_duplicate orig_obj ;;
            modify_sub new_door (with_sf_geometry new_geo) ;;
            add_door self new_door
        end
    end).

(** [[poly.remove_colinear_vertices(tolerance) for poly in polys]]; [None]
    when one of them fails its assertion. *)
Fixpoint clean_all (polys : list Polygon2D) (tolerance : Q) : option (list Polygon2D) :=
  match polys with
  | [] => Some []
  | p :: rest =>
      match p2_remove_colinear_vertices p tolerance with
      | None => None
      | Some p' =>
          match clean_all rest tolerance with
          | None => None
          | Some rest' => Some (p' :: rest')
          end
      end
  end.

(** [Face.offset_aperture_edges] *)
Definition offset_aperture_edges (self : loc) (offset_distance tolerance : Q) : M unit :=
  f <- get_face self ;;
  let prim_pl := f3_plane (f_geometry f) in
  new_apertures <- map_M (fun ap =>
    s <- get_sub ap ;;
    match sub_polygon prim_pl s tolerance with
    | None => ret ap  (* degenerate geometry to ignore *)
    | Some poly =>
        match p2_offset poly (- offset_distance) true with
        | Some off_poly =>
            let verts_3d := map (pl_xy_to_xyz prim_pl) (p2_vertices off_poly) in
            new_ap <- sub_duplicate ap ;;
            modify_sub new_ap (with_sf_geometry (mk_Face3D verts_3d (Some prim_pl) None)) ;;
            ret new_ap
        | None => ret ap
        end
    end) (f_apertures f) ;;
  remove_apertures self ;;
  add_apertures self new_apertures.

(** [Face.merge_neighboring_sub_faces] *)
Definition merge_neighboring_sub_faces (self : loc) (merge_distance tolerance : Q) : M unit :=
  f <- get_face self ;;
  if length (sub_faces f) <=? 1 then ret tt else
  subs <- snapshot (sub_faces f) ;;
  let prim_pl := f3_plane (f_geometry f) in
  let originals := collect_polygons prim_pl subs tolerance in
  let original_polys := map fst originals in
  let original_area := Qsum (map p2_area original_polys) in
  let clean_polys :=
    if Qleb merge_distance tolerance
    then p2_joined_intersected_boundary original_polys tolerance
    else p2_gap_crossing_boundary original_polys merge_distance tolerance in
  let new_area := Qsum (map p2_area clean_polys) in
  let area_diff := Qabs (original_area - new_area) in
  if negb (length clean_polys =? length original_polys) || Qltb tolerance area_diff
  then
    match clean_all clean_polys tolerance with
    | None => raise AssertionError
    | Some clean_polys => rebuild_sub_faces self prim_pl clean_polys originals
    end
  else ret tt.

(** [Face.project_and_add_sub_face] *)
Definition project_and_add_sub_face (self : loc) (sub_face : loc)
    (angle_tolerance : option Q) : M unit :=
  f <- get_face self ;;
  s <- get_sub sub_face ;;
  let parallel :=
    match angle_tolerance with
    | None => true
    | Some angle_tolerance =>
        let a_tol_min := math_radians angle_tolerance in
        let a_tol_max := (math_pi - a_tol_min)%Q in
        let ang := v3_angle (f3_normal (sf_geometry s)) (f3_normal (f_geometry f)) in
        negb (Qltb a_tol_min ang && Qltb ang a_tol_max)
    end in
  if parallel then
    let pl := f3_plane (f_geometry f) in
    let geo := sf_geometry s in
    let bound := map (pl_project_point pl) (f3_boundary geo) in
    let holes :=
      match f3_holes geo with
      | Some hs => Some (map (map (pl_project_point pl)) hs)
      | None => None
      end in
    modify_sub sub_face (with_sf_geometry (mk_Face3D bound (Some pl) holes)) ;;
    add_sub_face self sub_face
  else ret tt.

(** [Face._is_sub_polygon] *)
Definition _is_sub_polygon (sub_poly parent_poly : Polygon2D)
    (parent_holes : option (list Polygon2D)) : bool :=
  match parent_holes with
  | None => p2_is_polygon_inside parent_poly sub_poly
  | Some holes =>
      if negb (p2_is_polygon_inside parent_poly sub_poly) then false
      else forallb (fun hole_poly => p2_is_polygon_outside hole_poly sub_poly) holes
  end.

(** The loop over the parent edges: a point closer to an edge than the
    offset distance is moved by that distance along the perpendicular of the
    edge, and carried on to the next edge. *)
Definition push_from_edges (prim_pl : Plane) (parent_edges : list LineSegment3D)
    (offset_distance : Q) (pt : Point3D) : Point3D :=
  fold_left (fun pt edge =>
    let close_pt := ls_closest_point edge pt in
    if distance_below pt close_pt offset_distance then
      let move_vec := v3_rotate (ls_v edge) (pl_n prim_pl) (math_pi / 2) in
      let move_vec := v3_times (v3_normalize move_vec) offset_distance in
      p3_move pt move_vec
    else pt) parent_edges pt.

(** The first pass of [fix_invalid_sub_faces]: trim with the parent. *)
Definition trim_with_parent_pass (prim_pl : Plane) (face_3d : Face3D)
    (clean_polys : list Polygon2D) (offset_distance tolerance : Q) : list Polygon2D :=
  let verts2d := map (pl_xyz_to_xy prim_pl) (f3_boundary face_3d) in
  let parent_poly := mk_Polygon2D verts2d in
  let parent_holes :=
    match f3_holes face_3d with
    | Some hs => Some (map (fun hole => mk_Polygon2D (map (pl_xyz_to_xy prim_pl) hole)) hs)
    | None => None
    end in
  flat_map (fun polygon =>
    if negb (_is_sub_polygon polygon parent_poly parent_holes) then
      let sub_face := mk_Face3D (map (pl_xy_to_xyz prim_pl) (p2_vertices polygon)) None None in
      match f3_coplanar_intersection face_3d sub_face tolerance (math_radians 1) with
      | None => []  (* sub-face completely outside parent *)
      | Some bool_int =>
          let parent_edges :=
            match f3_holes face_3d with
            | None => f3_boundary_segments face_3d
            | Some _ => f3_boundary_segments face_3d ++ concat (f3_hole_segments face_3d)
            end in
          map (fun new_f =>
            mk_Polygon2D
              (map (fun pt => pl_xyz_to_xy prim_pl
                                (push_from_edges prim_pl parent_edges offset_distance pt))
                   (f3_boundary new_f)))
            bool_int
      end
    else [polygon]) clean_polys.

(** The polygons of the groups, the groups of more than one polygon replaced
    by their union without colinear vertices; [None] when a union fails the
    assertion of [remove_colinear_vertices]. *)
Fixpoint union_groups (grouped_polys : list (list Polygon2D)) (tolerance : Q)
    : option (list Polygon2D) :=
  match grouped_polys with
  | [] => Some []
  | p_group :: rest =>
      let here :=
        if length p_group =? 1 then Some (take 1 p_group)
        else clean_all (p2_boolean_union_all p_group tolerance) tolerance in
      match here, union_groups rest tolerance with
      | Some a, Some b => Some (a ++ b)
      | _, _ => None
      end
  end.

(** [Polygon2D.group_by_overlap].  The library sorts the polygons and starts
    its groups from the first one, [polygons[0]]: an IndexError on an empty
    list, which the source does not guard. *)
Definition group_by_overlap (polygons : list Polygon2D) (tolerance : Q)
    : result (list (list Polygon2D)) :=
  if is_nil polygons then Raise IndexError
  else Ok (p2_group_by_overlap polygons tolerance).

(** The second pass of [fix_invalid_sub_faces]: union the overlaps, then
    join what touches.  The AssertionError is that of a union that
    [remove_colinear_vertices] refuses. *)
Definition union_overlaps_pass (clean_polys : list Polygon2D) (tolerance : Q)
    : result (list Polygon2D) :=
  and_then (group_by_overlap clean_polys tolerance) (fun grouped_polys =>
  let unioned :=
    if negb (forallb (fun g => length g =? 1) grouped_polys)
    then union_groups grouped_polys tolerance
    else Some clean_polys in
  match unioned with
  | None => Raise AssertionError
  | Some clean_polys => Ok (p2_joined_intersected_boundary clean_polys tolerance)
  end).

(** The test that decides whether the sub-faces are rebuilt. *)
Definition polygons_edited (clean_polys original_polys : list Polygon2D) (tolerance : Q) : bool :=
  let original_area := Qsum (map p2_area original_polys) in
  let new_area := Qsum (map p2_area clean_polys) in
  let area_diff := Qabs (original_area - new_area) in
  negb (length clean_polys =? length original_polys) || Qltb tolerance area_diff.

(** [Face.fix_invalid_sub_faces] *)
Definition fix_invalid_sub_faces (self : loc) (trim_with_parent union_overlaps : bool)
    (offset_distance tolerance : Q) : M unit :=
  f <- get_face self ;;
  subs <- snapshot (sub_faces f) ;;
  let prim_pl := f3_plane (f_geometry f) in
  let originals := collect_polygons prim_pl subs tolerance in
  let original_polys := map fst originals in
  let clean_polys := original_polys in
  (* trim objects with the parent polygon if they extend past it *)
  let clean_polys :=
    if trim_with_parent
    then trim_with_parent_pass prim_pl (f_geometry f) clean_polys offset_distance tolerance
    else clean_polys in
  (* union overlaps and merge sub-faces that are touching *)
  match (if union_overlaps then union_overlaps_pass clean_polys tolerance
         else Ok clean_polys) with
  | Raise e => raise e
  | Ok clean_polys =>
      if polygons_edited clean_polys original_polys tolerance
      then rebuild_sub_faces self prim_pl clean_polys originals
      else ret tt
  end.

End Repair.

(** ** Prefixes *)

Section Prefix.
Context `{Geo : Geometry}.
(** [clean_string] of [typing.py], which strips the characters that an
    identifier may not hold. *)
Variable clean_string : string -> string.

Definition prefixed (prefix name : string) : string := prefix +:+ "_" +:+ name.

(** What [add_prefix] does to a Surface boundary condition. *)
Definition prefix_boundary_condition (prefix : string) (bc : BoundaryCondition)
    (sub_face : bool) : BoundaryCondition :=
  match bc with
  | Surface objs _ =>
      Surface (map (fun adj_name => clean_string (prefixed prefix adj_name)) objs) sub_face
  | _ => bc
  end.

(** Modelled from the spec: a sibling entity "supports add-prefix", as the
    Face does for itself. *)
Definition sub_add_prefix (prefix : string) (l : loc) : M unit :=
  modify_sub l (fun s =>
    mkSubFace (sf_kind s)
              (clean_string (prefixed prefix (sf_identifier s)))
              (prefixed prefix (sf_display_name s))
              (sf_geometry s) (sf_is_operable s)
              (prefix_boundary_condition prefix (sf_boundary_condition s) true)
              (sf_parent s)).

(** [Face.add_prefix] *)
Definition add_prefix (self : loc) (prefix : string) : M unit :=
  modify_face self (fun f => with_identifier (clean_string (prefixed prefix (f_identifier f))) f) ;;
  modify_face self (fun f => with_display_name (prefixed prefix (f_display_name f)) f) ;;
  f <- get_face self ;;
  for_each (f_apertures f) (sub_add_prefix prefix) ;;
  for_each (f_doors f) (sub_add_prefix prefix) ;;
  modify_face self (fun f =>
    with_boundary_condition
      (prefix_boundary_condition prefix (f_boundary_condition f) false) f).

End Prefix.

(** ** Rectangularization *)

Section Rectangularize.
Context `{Geo : Geometry}.

(** The first loop of [rectangularize_apertures]: the apertures sorted into
    [rect_aps] and [non_rect_aps], the latter zipped with [non_rect_geos].
    [merging] is [max_separation is not None and merge_all]. *)
Fixpoint sort_apertures (apertures : list (loc * SubFace)) (merging : bool)
    (tol ang_tol : Q)
    : list (loc * SubFace) * list ((loc * SubFace) * Face3D) :=
  match apertures with
  | [] => ([], [])
  | aperture :: rest =>
      let '(rect_aps, non_rect) := sort_apertures rest merging tol ang_tol in
      match f3_remove_colinear_vertices (sf_geometry aperture.2) tol with
      | None => (rect_aps, non_rect)  (* degenerate Aperture to be ignored *)
      | Some clean_geo =>
          if negb merging then
            if p2_is_rectangle (f3_polygon2d clean_geo) ang_tol
            then (aperture :: rect_aps, non_rect)
            else (rect_aps, (aperture, clean_geo) :: non_rect)
          else (rect_aps, (aperture, clean_geo) :: non_rect)
      end
  end.

(** [Face._reference_plane] *)
Definition _reference_plane (f : Face) (angle_tolerance : Q) : Plane :=
  let parent_llc := f3_lower_left_corner (f_geometry f) in
  let rel_plane := f3_plane (f_geometry f) in
  let vertical := mkVector3D 0 0 1 in
  let vert_ang := v3_angle (pl_n rel_plane) vertical in
  let proj_x :=
    if Qleb vert_ang angle_tolerance || Qleb (math_pi - angle_tolerance) vert_ang
    then mkVector3D 1 0 0
    else
      let proj_y := v3_project vertical (pl_n rel_plane) in
      v3_rotate proj_y (pl_n rel_plane) (math_pi / (-2)) in
  mk_Plane (pl_n rel_plane) parent_llc (Some proj_x).

(** The geometries that [remove_colinear_vertices] accepts, cleaned. *)
Fixpoint clean_geometries (geos : list Face3D) (tol : Q) : list Face3D :=
  match geos with
  | [] => []
  | ap_geo :: rest =>
      match f3_remove_colinear_vertices ap_geo tol with
      | Some g => g :: clean_geometries rest tol
      | None => clean_geometries rest tol
      end
  end.

(** The boundary and the holes of each geometry as polygons of the
    reference plane. *)
Definition face_polygons (ref_plane : Plane) (geos : list Face3D) : list Polygon2D :=
  flat_map (fun fg =>
    mk_Polygon2D (map (pl_xyz_to_xy ref_plane) (f3_boundary fg)) ::
    match f3_holes fg with
    | Some holes => map (fun hole => mk_Polygon2D (map (pl_xyz_to_xy ref_plane) hole)) holes
    | None => []
    end) geos.

Definition polygon_to_face (ref_plane : Plane) (poly : Polygon2D) : Face3D :=
  mk_Face3D (map (pl_xy_to_xyz ref_plane) (p2_vertices poly)) (Some ref_plane) None.

(** The merge of the non-rectangular geometries, for a given
    [max_separation]. *)
Definition merge_geometries (ref_plane : Plane) (non_rect_geos : list Face3D)
    (max_separation tol : Q) : list Face3D :=
  let joined :=
    if Qleb max_separation tol
    then f3_join_coplanar_faces non_rect_geos tol
    else
      let face_polys := face_polygons ref_plane non_rect_geos in
      let joined_bounds := p2_gap_crossing_boundary face_polys max_separation tol in
      match joined_bounds with
      | [] => []
      | [poly] => [polygon_to_face ref_plane poly]
      | _ => f3_merge_faces_to_holes (map (polygon_to_face ref_plane) joined_bounds) tol
      end in
  clean_geometries joined tol.

(** The bounding rectangle of a geometry in the reference plane. *)
Definition bounding_rectangle (ref_plane : Plane) (ap_geo : Face3D) : Face3D :=
  let geo_2d := mk_Polygon2D (map (pl_xyz_to_xy ref_plane) (f3_vertices ap_geo)) in
  let g_min := p2_min geo_2d in
  let g_max := p2_max geo_2d in
  let base := (p2x g_max - p2x g_min)%Q in
  let hgt := (p2y g_max - p2y g_min)%Q in
  let bound_poly := p2_from_rectangle g_min (mkVector2D 0 1) base hgt in
  mk_Face3D (map (pl_xy_to_xyz ref_plane) (p2_vertices bound_poly)) None None.

(** The loop that takes the bounding rectangle of whatever is not yet a
    rectangle. *)
Definition bounding_rectangles (ref_plane : Plane) (non_rect_geos : list Face3D)
    (ang_tol : Q) : list Face3D :=
  map (fun ap_geo =>
    if p2_is_rectangle (f3_polygon2d ap_geo) ang_tol
    then ap_geo  (* catch rectangles found in merging *)
    else bounding_rectangle ref_plane ap_geo) non_rect_geos.

(** The inner loop of the matching: the first original aperture whose center
    is equivalent to the center of the new geometry. *)
Fixpoint find_existing (non_rect_aps : list (loc * SubFace)) (ap_face : Face3D)
    (tolerance : Q) : option (loc * SubFace) :=
  match non_rect_aps with
  | [] => None
  | old_ap :: rest =>
      if is_equivalent (sf_center old_ap.2) (f3_center ap_face) tolerance
      then Some old_ap
      else find_existing rest ap_face tolerance
  end.

(** The Aperture made for the new geometry of index [i]. *)
Definition regenerated_aperture (identifier : string)
    (non_rect_aps : list (loc * SubFace)) (tolerance : Q)
    (i : nat) (ap_face : Face3D) : SubFace :=
  match find_existing non_rect_aps ap_face tolerance with
  | None =>  (* could not be matched; just make a new aperture *)
      Aperture (identifier +:+ "_RG" +:+ pretty i) ap_face false
  | Some (_, exist_ap) =>
      with_sf_display_name (sf_display_name exist_ap +:+ "_" +:+ pretty i)
        (Aperture (sf_identifier exist_ap) ap_face (sf_is_operable exist_ap))
  end.

(** [[Aperture(...) for i, ap_face in enumerate(non_rect_geos)]] *)
Definition regenerated_apertures (identifier : string)
    (non_rect_aps : list (loc * SubFace)) (tolerance : Q)
    (non_rect_geos : list Face3D) : list SubFace :=
  map (fun '(i, ap_face) =>
         regenerated_aperture identifier non_rect_aps tolerance i ap_face)
      (enumerate non_rect_geos).

(** New objects for a list of Apertures, each paired with its reference. *)
Definition new_subs (l : list SubFace) : M (list (loc * SubFace)) :=
  map_M (fun s => r <- new_sub s ;; ret (r, s)) l.

(** [sorted(l, key=lambda x: x.area, reverse=True)]: a stable sort, largest
    area first. *)
Fixpoint insert_by_area (x : loc * SubFace) (l : list (loc * SubFace))
    : list (loc * SubFace) :=
  match l with
  | [] => [x]
  | y :: rest =>
      if Qltb (f3_area (sf_geometry x.2)) (f3_area (sf_geometry y.2))
      then y :: insert_by_area x rest
      else x :: y :: rest
  end.

Definition sort_by_area (l : list (loc * SubFace)) : list (loc * SubFace) :=
  foldr insert_by_area [] l.

(** The search of [_group_sub_faces_by_overlap] for the first group holding
    a polygon that [poly] overlaps; the group gets the new member. *)
Fixpoint add_to_group (r_plane_poly : SubFace -> Polygon2D) (tolerance : Q)
    (face : loc * SubFace)
    (groups : list (list (loc * SubFace)))
    : option (list (list (loc * SubFace))) :=
  match groups with
  | [] => None
  | face_group :: rest =>
      if existsb (fun oth =>
            Z.leb 0 (p2_polygon_relationship (r_plane_poly face.2)
                       (r_plane_poly oth.2) tolerance)) face_group
      then Some ((face_group ++ [face]) :: rest)
      else
        match add_to_group r_plane_poly tolerance face rest with
        | Some rest' => Some (face_group :: rest')
        | None => None
        end
  end.

(** [Face._group_sub_faces_by_overlap]; IndexError on an empty list. *)
Definition _group_sub_faces_by_overlap (sub_faces : list (loc * SubFace))
    (tolerance : Q) : result (list (list (loc * SubFace))) :=
  match sort_by_area sub_faces with
  | [] => Raise IndexError
  | first :: others =>
      let r_plane := f3_plane (sf_geometry first.2) in
      let polygon (s : SubFace) :=
        mk_Polygon2D (map (pl_xyz_to_xy r_plane) (f3_vertices (sf_geometry s))) in
      Ok (fold_left (fun groups face =>
            match add_to_group polygon tolerance face groups with
            | Some groups' => groups'
            | None => groups ++ [[face]]
            end) others [[first]])
  end.

(** [Face._remove_overlapping_sub_faces] *)
Definition _remove_overlapping_sub_faces (sub_faces : list (loc * SubFace))
    (tolerance : Q) : result (list (loc * SubFace)) :=
  and_then (_group_sub_faces_by_overlap sub_faces tolerance) (fun grouped_sfs =>
  Ok (flat_map (fun sf_group =>
        if length sf_group =? 1 then take 1 sf_group
        else take 1 (sort_by_area sf_group)) grouped_sfs)).

(** *** Subdivision into strips *)

(** A row of grid cells, or a merged block of rows: ['min'] and ['max']. *)
Record Row := mkRow { row_min : Point2D; row_max : Point2D }.

(** The dictionary [groups]: keys in insertion order. *)
Definition Groups : Type := list ((Q * Q) * list (list nat)).

Definition key_eqb (a b : Q * Q) : bool := Qeqb a.1 b.1 && Qeqb a.2 b.2.

(** [groups[key].append(face)]; KeyError without the key. *)
Fixpoint groups_append (key : Q * Q) (face : list nat) (groups : Groups) : result Groups :=
  match groups with
  | [] => Raise KeyError
  | (k, v) :: rest =>
      if key_eqb k key then Ok ((k, v ++ [face]) :: rest)
      else and_then (groups_append key face rest) (fun rest' => Ok ((k, v) :: rest'))
  end.

(** [groups[key] = value] *)
Fixpoint groups_set (key : Q * Q) (value : list (list nat)) (groups : Groups) : Groups :=
  match groups with
  | [] => [(key, value)]
  | (k, v) :: rest =>
      if key_eqb k key then (k, value) :: rest
      else (k, v) :: groups_set key value rest
  end.

(** The loop that groups the faces of the grid by their y value.  The state
    is [groups], [start_y] and [last_y]; [start_y] is assigned before it is
    first read, for [groups] is empty until then. *)
Fixpoint group_faces (vertices : list Point2D) (faces : list (list nat))
    (tolerance : Q) (groups : Groups) (start_y last_y : Q) : result Groups :=
  match faces with
  | [] => Ok groups
  | face :: rest =>
      and_then (index face 0) (fun i0 =>
      and_then (index vertices i0) (fun min_2d =>
      and_then
        (match find (fun kv : (Q * Q) * list (list nat) =>
                 Qltb (Qabs (p2x min_2d - kv.1.1)) tolerance &&
                 Qltb (Qabs (p2y min_2d - last_y)) tolerance) groups with
         | Some (xy, _) =>
             and_then (groups_append (xy.1, start_y) face groups)
                      (fun g => Ok (g, start_y))
         | None =>
             Ok (groups_set (p2x min_2d, p2y min_2d) [face] groups, p2y min_2d)
         end) (fun '(groups', start_y') =>
      and_then (index face 3) (fun i3 =>
      and_then (index vertices i3) (fun v3 =>
      group_faces vertices rest tolerance groups' start_y' (p2y v3))))))
  end.

(** The max and min of each group. *)
Fixpoint rows_of_groups (vertices : list Point2D) (groups : list (list (list nat)))
    : result (list Row) :=
  match groups with
  | [] => Ok []
  | group :: rest =>
      and_then (index group 0) (fun first =>
      and_then (index first 0) (fun i_min =>
      and_then (index vertices i_min) (fun min_2d =>
      and_then (index_last group) (fun last_face =>
      and_then (index last_face 2) (fun i_max =>
      and_then (index vertices i_max) (fun max_2d =>
      and_then (rows_of_groups vertices rest) (fun rows =>
      Ok (mkRow min_2d max_2d :: rows))))))))
  end.

(** [sorted_groups.sort(key=lambda x: x['min'].x)]: stable, ascending. *)
Fixpoint insert_by_min_x (r : Row) (l : list Row) : list Row :=
  match l with
  | [] => [r]
  | y :: rest =>
      if Qltb (p2x (row_min y)) (p2x (row_min r))
      then y :: insert_by_min_x r rest
      else r :: y :: rest
  end.

Definition sort_by_min_x (l : list Row) : list Row := foldr insert_by_min_x [] l.

(** The loop of [_get_last_row] over [enumerate(groups[start:])], entered at
    [count]. *)
Fixpoint get_last_row_from (groups slice : list Row) (start count : nat)
    (tolerance : Q) : result nat :=
  match slice with
  | [] =>
      (* [return start + count + 1] after the loop: with an empty slice
         [count] was never bound *)
      match count with
      | 0 => Raise UnboundLocalError
      | S c => Ok (start + c + 1)
      end
  | group :: rest =>
      and_then (index groups (count + start + 1)) (fun next_group =>
      if Qleb (Qabs (p2y (row_min group) - p2y (row_min next_group))) tolerance &&
         Qleb (Qabs (p2y (row_max group) - p2y (row_max next_group))) tolerance &&
         Qleb (Qabs (p2x (row_min next_group) - p2x (row_max group))) tolerance
      then get_last_row_from groups rest start (S count) tolerance
      else Ok (start + count))
  end.

(** [_get_last_row(groups, start)] *)
Definition _get_last_row (groups : list Row) (start : nat) (tolerance : Q) : result nat :=
  get_last_row_from groups (drop start groups) start 0 tolerance.

(** The [while last_row < len(sorted_groups)] loop, entered with [start_row]
    and with a bound on the number of rounds. *)
Fixpoint merge_rows (fuel : nat) (sorted_groups : list Row) (start_row : nat)
    (tolerance : Q) : result (list Row) :=
  match fuel with
  | 0 => Raise OutOfFuel
  | S fuel' =>
      match _get_last_row sorted_groups start_row tolerance with
      | Raise IndexError =>
          and_then (index sorted_groups start_row) (fun first =>
          and_then (index sorted_groups (length sorted_groups - 1)) (fun final =>
          Ok [mkRow (row_min first) (row_max final)]))
      | Raise e => Raise e
      | Ok last_row =>
          and_then (index sorted_groups start_row) (fun first =>
          and_then (index sorted_groups last_row) (fun final =>
          let start_row' :=
            if last_row =? start_row then start_row + 1 else last_row + 1 in
          if last_row <? length sorted_groups
          then
            and_then (merge_rows fuel' sorted_groups start_row' tolerance) (fun rest =>
            Ok (mkRow (row_min first) (row_max final) :: rest))
          else Ok [mkRow (row_min first) (row_max final)]))
      end
  end.

(** The strips cut from one non-rectangular aperture: [None] when the
    aperture is smaller than the resolution and is dropped. *)
Definition strips_of (ref_plane : Plane) (ap_obj : SubFace)
    (subdivision_distance tolerance : Q) : result (option (list SubFace)) :=
  let ap_geo := sf_geometry ap_obj in
  let geo_2d := mk_Polygon2D (map (pl_xyz_to_xy ref_plane) (f3_vertices ap_geo)) in
  match m2_from_polygon_grid geo_2d subdivision_distance subdivision_distance false with
  | None => Ok None  (* Aperture smaller than resolution; ignore *)
  | Some grid =>
      let vertices := m2_vertices grid in
      and_then (index (m2_faces grid) 0) (fun face0 =>
      and_then (index face0 0) (fun i0 =>
      and_then (index vertices i0) (fun v0 =>
      and_then (group_faces vertices (m2_faces grid) tolerance [] 0 (p2y v0)) (fun groups =>
      and_then (rows_of_groups vertices (map snd groups)) (fun rows =>
      let sorted_groups := sort_by_min_x rows in
      and_then (merge_rows (S (length sorted_groups)) sorted_groups 0 tolerance)
        (fun merged_groups =>
      Ok (Some (map (fun '(i, group) =>
        let min_2d := row_min group in
        let max_2d := row_max group in
        let base := (p2x max_2d - p2x min_2d)%Q in
        let hgt := (p2y max_2d - p2y min_2d)%Q in
        let bound_poly := p2_from_rectangle min_2d (mkVector2D 0 1) base hgt in
        let geo_3d :=
          mk_Face3D (map (pl_xy_to_xyz ref_plane) (p2_vertices bound_poly)) None None in
        with_sf_display_name (sf_display_name ap_obj +:+ "_" +:+ pretty i)
          (Aperture (glz_identifier (sf_identifier ap_obj) i) geo_3d
                    (sf_is_operable ap_obj)))
        (enumerate merged_groups)))))))))
  end.

(** The loop over [new_aps] of the subdivision: an aperture that is a
    rectangle is kept as the object it is ([inl]); any other gives way to
    its strips, new Apertures still to be built ([inr]). *)
Fixpoint subdivide (ref_plane : Plane) (new_aps : list (loc * SubFace))
    (subdivision_distance tolerance ang_tol : Q)
    : result (list ((loc * SubFace) + SubFace)) :=
  match new_aps with
  | [] => Ok []
  | ap_obj :: rest =>
      and_then
        (if p2_is_rectangle (f3_polygon2d (sf_geometry ap_obj.2)) ang_tol
         then Ok [inl ap_obj]  (* catch rectangles found in merging *)
         else
           and_then (strips_of ref_plane ap_obj.2 subdivision_distance tolerance)
             (fun strips => Ok (map inr (default [] strips))))
        (fun here =>
      and_then (subdivide ref_plane rest subdivision_distance tolerance ang_tol)
        (fun others => Ok (here ++ others)))
  end.

(** The objects of the subdivision, the new ones built in order. *)
Fixpoint build_objects (l : list ((loc * SubFace) + SubFace)) : M (list (loc * SubFace)) :=
  match l with
  | [] => ret []
  | inl obj :: rest => objs <- build_objects rest ;; ret (obj :: objs)
  | inr s :: rest =>
      r <- new_sub s ;; objs <- build_objects rest ;; ret ((r, s) :: objs)
  end.

(** Lifting of a computation that touches no object. *)
Definition lift {A} (r : result A) : M A :=
  match r with
  | Ok a => ret a
  | Raise e => raise e
  end.

(** [Face.rectangularize_apertures] *)
Definition rectangularize_apertures (self : loc)
    (subdivision_distance max_separation : option Q) (merge_all : bool)
    (tolerance angle_tolerance : Q) : M bool :=
  (* sort the rectangular and non-rectangular apertures *)
  f <- get_face self ;;
  apertures <- snapshot (f_apertures f) ;;
  if length apertures =? 0 then ret false else
  let tol := tolerance in
  let ang_tol := math_radians angle_tolerance in
  let merging := bool_decide (max_separation <> None) && merge_all in
  let '(rect_aps, non_rect) := sort_apertures apertures merging tol ang_tol in
  let non_rect_aps := map fst non_rect in
  let non_rect_geos := map snd non_rect in
  if is_nil non_rect_geos then ret false else  (* nothing to be rectangularized *)
  (* reset boundary conditions to outdoors so new apertures can be added *)
  (if negb (is_Outdoors (f_boundary_condition f)) then
     set_boundary_condition self Outdoors ;;
     for_each rect_aps (fun ap =>
       modify_sub ap.1 (with_sf_boundary_condition Outdoors))
   else ret tt) ;;
  let edits_occurred := false in
  (* try to merge the non-rectangular apertures if a max_separation is specified *)
  let ref_plane := _reference_plane f ang_tol in
  let '(edits_occurred, non_rect_geos) :=
    match max_separation with
    | Some max_separation =>
        if merge_all || (negb merge_all && (1 <? length non_rect_geos))
        then (true, merge_geometries ref_plane non_rect_geos max_separation tol)
        else (edits_occurred, non_rect_geos)
    | None => (edits_occurred, non_rect_geos)
    end in
  (* convert the remaining Aperture geometries to rectangles *)
  let '(edits_occurred, non_rect_geos) :=
    match subdivision_distance with
    | None => (true, bounding_rectangles ref_plane non_rect_geos ang_tol)
    | Some _ => (edits_occurred, non_rect_geos)
    end in
  (* create Aperture objects from all of the merged geometries *)
  new_aps <-
    (if negb edits_occurred then ret non_rect_aps
     else new_subs (regenerated_apertures (f_identifier f) non_rect_aps
                      tolerance non_rect_geos)) ;;
  match subdivision_distance with
  | None =>
      (* we can just add the apertures if there's no subdivision going on *)
      all_aps <- lift (_remove_overlapping_sub_faces (rect_aps ++ new_aps) tolerance) ;;
      remove_apertures self ;;
      add_apertures self (map fst all_aps) ;;
      ret true
  | Some subdivision_distance =>
      (* if distance is provided, subdivide the apertures into strips *)
      strips <- lift (subdivide ref_plane new_aps subdivision_distance tolerance ang_tol) ;;
      new_ap_objs <- build_objects strips ;;
      (* replace the apertures with the new ones *)
      remove_apertures self ;;
      add_apertures self (map fst (rect_aps ++ new_ap_objs)) ;;
      ret true
  end.

End Rectangularize.

(** ** Dictionaries

    [Face.to_dict] and [Face.from_dict].  The dictionaries of the geometry,
    of the boundary conditions and of the Apertures and Doors are written
    and read by classes that live outside [face.py]; their methods are the
    fields of the class [Serialization].  The entries of the shades and of
    the extension properties are left out with the attributes they hold;
    of the properties only the presence of the ['energy'] key is kept, an
    argument of [to_dict]. *)

(** The dictionary that [Face3D.to_dict] writes: the keys ['boundary'],
    ['holes'] and ['plane'].  A key that is missing or holds None is
    [None]. *)
Record Face3DDict `{Geo : Geometry} := mkFace3DDict {
  gd_boundary : list Point3D;
  gd_holes : option (list (list Point3D));
  gd_plane : option Plane
}.
Arguments mkFace3DDict {Geo} gd_boundary gd_holes gd_plane.

Class Serialization `{Geo : Geometry} := {
  (* ladybug_geometry *)
  f3_to_dict : Face3D -> bool -> bool -> Face3DDict;
  f3_from_dict : Face3DDict -> result Face3D;
  (* boundarycondition.py: the dictionary of a boundary condition, its
     ['type'] entry, and [getattr(hbc, name)] with the [from_dict] of the
     class found; [None] is the AttributeError of a name that the module
     does not hold *)
  BCDict : Type;
  bcd_type : BCDict -> string;
  bc_to_dict : BoundaryCondition -> bool -> BCDict;
  hbc_getattr : string -> option (BCDict -> result BoundaryCondition);
  (* aperture.py and door.py *)
  SubDict : Type;
  sub_to_dict : SubFace -> bool -> SubDict;
  aperture_from_dict : SubDict -> result SubFace;
  door_from_dict : SubDict -> result SubFace
}.

Section Dictionaries.
Context `{Ser : Serialization}.

(** The dictionary of a Face. *)
Record FaceDict := mkFaceDict {
  d_type : string;
  d_identifier : string;
  d_display_name : option string;
  d_geometry : Face3DDict;
  d_face_type : string;
  d_boundary_condition : BCDict;
  d_apertures : option (list SubDict);
  d_doors : option (list SubDict);
  d_user_data : option string
}.

(** [type.name] *)
Definition face_type_name (t : FaceType) : string :=
  match t with
  | Wall => "Wall"
  | Floor => "Floor"
  | RoofCeiling => "RoofCeiling"
  | AirBoundary => "AirBoundary"
  end.

(** Modelled from the spec: [face_types.by_name], which finds the face type
    of the four tags by its name and raises ValueError for any other
    name. *)
Definition face_type_by_name (name : string) : result FaceType :=
  if String.eqb name "Wall" then Ok Wall
  else if String.eqb name "Floor" then Ok Floor
  else if String.eqb name "RoofCeiling" then Ok RoofCeiling
  else if String.eqb name "AirBoundary" then Ok AirBoundary
  else Raise ValueError.

(** [Face.to_dict].  [energy] tells whether the dictionary of the
    properties holds the ['energy'] key. *)
Definition to_dict (self : loc) (energy include_plane : bool) : M FaceDict :=
  f <- get_face self ;;
  let enforce_upper_left := energy in
  let geometry := f3_to_dict (f_geometry f) include_plane enforce_upper_left in
  let boundary_condition :=
    if is_Outdoors (f_boundary_condition f) && energy
    then bc_to_dict (f_boundary_condition f) true
    else bc_to_dict (f_boundary_condition f) false in
  aps <- map_M get_sub (f_apertures f) ;;
  drs <- map_M get_sub (f_doors f) ;;
  ret (mkFaceDict "Face" (f_identifier f) (Some (f_display_name f))
         geometry (face_type_name (f_type f)) boundary_condition
         (if negb (is_nil (f_apertures f))
          then Some (map (fun ap => sub_to_dict ap include_plane) aps) else None)
         (if negb (is_nil (f_doors f))
          then Some (map (fun dr => sub_to_dict dr include_plane) drs) else None)
         (f_user_data f)).

(** The loop of [from_dict] over [enumerate(geo_dict['holes'])], which pops
    from the list that it runs over: [i] is the index of the loop, which is
    also the position that the iterator of the list has reached. *)
Fixpoint remove_invalid_holes (rounds : nat) (holes : list (list Point3D)) (i : nat)
    : list (list Point3D) :=
  match rounds with
  | 0 => holes
  | S rounds' =>
      match holes !! i with
      | None => holes
      | Some hole_list =>
          if length hole_list <? 3
          then remove_invalid_holes rounds' (delete i holes) (S i)
          else remove_invalid_holes rounds' holes (S i)
      end
  end.

(** The dictionary of the geometry after the removal of the invalid holes.
    The loop looks at each position at most once, so that as many rounds as
    there are holes are enough. *)
Definition clean_geo_dict (geo_dict : Face3DDict) : Face3DDict :=
  match gd_holes geo_dict with
  | Some holes =>
      mkFace3DDict (gd_boundary geo_dict)
                   (Some (remove_invalid_holes (length holes) holes 0))
                   (gd_plane geo_dict)
  | None => geo_dict
  end.

(** [[X.from_dict(d) for d in ds]] with [invalid_dict_error], which raises
    ValueError, for the dictionaries that fail. *)
Definition sub_faces_from_dicts (from_dict : SubDict -> result SubFace)
    (ds : list SubDict) : M (list loc) :=
  map_M (fun d =>
    match from_dict d with
    | Ok s => new_sub s
    | Raise _ => raise ValueError
    end) ds.

(** The body of [Face.from_dict], inside its [try]. *)
Definition from_dict_body (data : FaceDict) : M loc :=
  (* check the type of dictionary *)
  assert_ (String.eqb (d_type data) "Face") ;;
  (* remove any invalid holes from the geometry *)
  let geo_dict := clean_geo_dict (d_geometry data) in
  (* first serialize it with an outdoor boundary condition *)
  face_type <- lift (face_type_by_name (d_face_type data)) ;;
  geometry <- lift (f3_from_dict geo_dict) ;;
  face <- new_face_object (new_Face (d_identifier data) geometry face_type Outdoors) ;;
  (match d_display_name data with
   | Some display_name => modify_face face (with_display_name display_name)
   | None => ret tt
   end) ;;
  (match d_user_data data with
   | Some user_data => modify_face face (with_user_data (Some user_data))
   | None => ret tt
   end) ;;
  (* add sub-faces *)
  (match d_apertures data with
   | Some ap_dicts =>
       aps <- sub_faces_from_dicts aperture_from_dict ap_dicts ;;
       add_apertures face aps
   | None => ret tt
   end) ;;
  (match d_doors data with
   | Some dr_dicts =>
       drs <- sub_faces_from_dicts door_from_dict dr_dicts ;;
       add_doors face drs
   | None => ret tt
   end) ;;
  (* get the boundary condition and assign it *)
  try_except
    (match hbc_getattr (bcd_type (d_boundary_condition data)) with
     | None => raise AttributeError
     | Some bc_from_dict =>
         bc <- lift (bc_from_dict (d_boundary_condition data)) ;;
         set_boundary_condition face bc
     end)
    (fun e => bool_decide (e = AttributeError))
    (ret tt)  (* extension boundary condition; default to Outdoors *) ;;
  ret face.

(** [Face.from_dict]: whatever the body raises comes out as the ValueError
    of [_from_dict_error_message]. *)
Definition from_dict (data : FaceDict) : M loc :=
  try_except (from_dict_body data) (fun _ => true) (raise ValueError).

End Dictionaries.
(** ** Specifications of methods

    [hoare P m Q]: from a store satisfying [P], the computation [m] ends,
    with a value or an exception, in a store satisfying [Q]. *)

Section Specifications.
Context `{Geo : Geometry}.

Definition hoare {A} (P : Heap -> Prop) (m : M A)
    (Q : result A -> Heap -> Prop) : Prop :=
  forall h, P h -> Q (m h).1 (m h).2.

(** [m] keeps [I], whether it returns or raises. *)
Definition preserves {A} (I : Heap -> Prop) (m : M A) : Prop :=
  forall h, I h -> I (m h).2.

(** A property of the faces alone is kept by whatever writes sub-faces
    only. *)
Definition faces_only (I : Heap -> Prop) : Prop :=
  forall h h', h_faces h = h_faces h' -> I h -> I h'.

(** Whatever [m] does, the faces it leaves are those it finds: it writes
    sub-faces only. *)
Definition keeps_faces {A} (m : M A) : Prop :=
  forall h, h_faces (m h).2 = h_faces h.

End Specifications.

(** ** What [set_adjacency] decides on *)

Section AdjacencySpec.
Context `{Geo : Geometry}.

(** The centers of two sub-faces of the store lie within the tolerance. *)
Definition centers_within (h : Heap) (tolerance : Q) (a b : loc) : bool :=
  match h_subs h !! a, h_subs h !! b with
  | Some sa, Some sb => distance_within (sf_center sa) (sf_center sb) tolerance
  | _, _ => false
  end.

(** The sub-face [a] has a counterpart among [others]: a sub-face whose
    center lies within the tolerance. *)
Definition has_counterpart (h : Heap) (tolerance : Q) (others : list loc) (a : loc) : bool :=
  existsb (centers_within h tolerance a) others.

(** The counterpart at which the inner loop of [set_adjacency] breaks: the
    first sub-face of [others] whose center lies within the tolerance. *)
Definition first_counterpart (h : Heap) (tolerance : Q) (others : list loc) (a : loc)
    : option loc :=
  find (centers_within h tolerance a) others.

(** [set_adjacency] of the sub-face [a] takes [b]: an object of the same
    class, with the same flag. *)
Definition takes_adjacency (h : Heap) (a b : loc) : bool :=
  match h_subs h !! a, h_subs h !! b with
  | Some sa, Some sb =>
      bool_decide (sf_kind sb = sf_kind sa) &&
      Bool.eqb (sf_is_operable sb) (sf_is_operable sa)
  | _, _ => false
  end.

(** The sub-face [a] gets paired: it has a first counterpart, and takes
    it. *)
Definition paired (h : Heap) (tolerance : Q) (others : list loc) (a : loc) : bool :=
  match first_counterpart h tolerance others a with
  | Some b => takes_adjacency h a b
  | None => false
  end.

(** The condition under which [set_adjacency self other] returns: equal
    numbers of apertures and of doors, and for every aperture and every
    door of the face [self] a first counterpart on the other face that it
    takes. *)
Definition adjacency_found (h : Heap) (tolerance : Q) (s o : Face) : bool :=
  (length (f_apertures s) =? length (f_apertures o)) &&
  forallb (paired h tolerance (f_apertures o)) (f_apertures s) &&
  (length (f_doors s) =? length (f_doors o)) &&
  forallb (paired h tolerance (f_doors o)) (f_doors s).

(** The claim read on both faces: every sub-face of either face has a
    counterpart on the other one. *)
Definition all_matched (h : Heap) (tolerance : Q) (s o : Face) : bool :=
  forallb (has_counterpart h tolerance (f_apertures o)) (f_apertures s) &&
  forallb (has_counterpart h tolerance (f_apertures s)) (f_apertures o) &&
  forallb (has_counterpart h tolerance (f_doors o)) (f_doors s) &&
  forallb (has_counterpart h tolerance (f_doors s)) (f_doors o).

(** What the pairing reads of a sub-face: its geometry, its class and its
    flag. *)
Definition pairing_view (s : SubFace) : Face3D * SubKind * bool :=
  (sf_geometry s, sf_kind s, sf_is_operable s).

(** Two stores hold the same sub-face objects, alike in all that the
    pairing reads. *)
Definition same_geometry (h h' : Heap) : Prop :=
  forall l, pairing_view <$> h_subs h !! l = pairing_view <$> h_subs h' !! l.

End AdjacencySpec.

(** ** The invariant of sub-faces, and the operations of a face *)

Section Invariant.
Context `{Geo : Geometry}.

(** A face with an Aperture or a Door has an Outdoors or a Surface boundary
    condition. *)
Definition face_admissible (f : Face) : Prop :=
  has_sub_faces f = true ->
  is_Outdoors_or_Surface (f_boundary_condition f) = true.

Definition sub_faces_invariant (h : Heap) : Prop :=
  forall l f, h_faces h !! l = Some f -> face_admissible f.

(** What is known of the face [self] besides the invariant. *)
Definition knowing (self : loc) (P : Face -> Prop) (h : Heap) : Prop :=
  sub_faces_invariant h /\ forall f, h_faces h !! self = Some f -> P f.

(** The operations of [Face] that write the face or its sub-faces, with
    their arguments. *)
Inductive Operation :=
| SetType (value : FaceType)
| SetBoundaryCondition (value : BoundaryCondition)
| PunchedGeometry
| AddPrefix (prefix : string)
| RemoveSubFaces
| RemoveApertures
| RemoveDoors
| AddAperture (aperture : loc)
| AddDoor (door : loc)
| AddSubFace (sub_face : loc)
| AddApertures (apertures : list loc)
| AddDoors (doors : list loc)
| AddSubFaces (sub_faces : list loc)
| ReplaceApertures (apertures : list loc)
| SetAdjacency (other_face : loc) (tolerance : Q)
| RectangularizeApertures (subdivision_distance max_separation : option Q)
    (merge_all : bool) (tolerance angle_tolerance : Q)
| OffsetApertureEdges (offset_distance tolerance : Q)
| MergeNeighboringSubFaces (merge_distance tolerance : Q)
| ProjectAndAddSubFace (sub_face : loc) (angle_tolerance : option Q)
| FixInvalidSubFaces (trim_with_parent union_overlaps : bool)
    (offset_distance tolerance : Q)
| AperturesByRatio (ratio tolerance : Q) (rect_split : bool)
| AperturesByRatioRectangle (ratio aperture_height sill_height
    horizontal_separation vertical_separation tolerance : Q)
| AperturesByRatioGridded (ratio x_dim : Q) (y_dim : option Q) (tolerance : Q)
| AperturesByWidthHeightRectangle (aperture_height aperture_width sill_height
    horizontal_separation tolerance : Q)
| ApertureByWidthHeight (width height sill_height : Q)
    (aperture_identifier : option string)
| Move (moving_vec : Vector3D)
| Rotate (axis : Vector3D) (angle : Q) (origin : Point3D)
| RotateXY (angle : Q) (origin : Point3D)
| Reflect (plane : Plane)
| Scale (factor : Q) (origin : option Point3D)
| RemoveColinearVertices (tolerance : Q)
| RemoveDegenerateSubFaces (tolerance : Q).

(** The call of an operation on the face [self]; what it returns is
    dropped. *)
Definition call (clean_string : string -> string) (self : loc) (op : Operation) : M unit :=
  match op with
  | SetType value => set_type self value
  | SetBoundaryCondition value => set_boundary_condition self value
  | PunchedGeometry => punched_geometry self ;; ret tt
  | AddPrefix prefix => add_prefix clean_string self prefix
  | RemoveSubFaces => remove_sub_faces self
  | RemoveApertures => remove_apertures self
  | RemoveDoors => remove_doors self
  | AddAperture aperture => add_aperture self aperture
  | AddDoor door => add_door self door
  | AddSubFace sub_face => add_sub_face self sub_face
  | AddApertures apertures => add_apertures self apertures
  | AddDoors doors => add_doors self doors
  | AddSubFaces subs => add_sub_faces self subs
  | ReplaceApertures apertures => replace_apertures self apertures
  | SetAdjacency other_face tolerance =>
      set_adjacency self other_face tolerance ;; ret tt
  | RectangularizeApertures sd ms merge_all tolerance angle_tolerance =>
      rectangularize_apertures self sd ms merge_all tolerance angle_tolerance ;;
      ret tt
  | OffsetApertureEdges offset_distance tolerance =>
      offset_aperture_edges self offset_distance tolerance
  | MergeNeighboringSubFaces merge_distance tolerance =>
      merge_neighboring_sub_faces self merge_distance tolerance
  | ProjectAndAddSubFace sub_face angle_tolerance =>
      project_and_add_sub_face self sub_face angle_tolerance
  | FixInvalidSubFaces trim_with_parent union_overlaps offset_distance tolerance =>
      fix_invalid_sub_faces self trim_with_parent union_overlaps
        offset_distance tolerance
  | AperturesByRatio ratio tolerance rect_split =>
      apertures_by_ratio self ratio tolerance rect_split
  | AperturesByRatioRectangle ratio ah sh hs vs tolerance =>
      apertures_by_ratio_rectangle self ratio ah sh hs vs tolerance
  | AperturesByRatioGridded ratio x_dim y_dim tolerance =>
      apertures_by_ratio_gridded self ratio x_dim y_dim tolerance
  | AperturesByWidthHeightRectangle ah aw sh hs tolerance =>
      apertures_by_width_height_rectangle self ah aw sh hs tolerance
  | ApertureByWidthHeight width height sill_height aperture_identifier =>
      aperture_by_width_height self width height sill_height
        aperture_identifier ;; ret tt
  | Move moving_vec => move self moving_vec
  | Rotate axis angle origin => rotate self axis angle origin
  | RotateXY angle origin => rotate_xy self angle origin
  | Reflect plane => reflect self plane
  | Scale factor origin => scale self factor origin
  | RemoveColinearVertices tolerance => remove_colinear_vertices self tolerance
  | RemoveDegenerateSubFaces tolerance => remove_degenerate_sub_faces self tolerance
  end.

End Invariant.

(** ** What the builders of apertures leave behind *)

Section BuilderSpec.
Context `{Geo : Geometry}.

(** The geometry of a sub-face as [add_aperture] and [add_door] keep it:
    flipped when its normal is reversed with respect to the face. *)
Definition oriented (face_geo g : Face3D) : Face3D :=
  if angle_exceeds_right (f3_normal face_geo) (f3_normal g) then f3_flip g else g.

(** The face as [remove_sub_faces] leaves it. *)
Definition cleared (f : Face) : Face :=
  with_punched_geometry None
    (with_doors [] (with_punched_geometry None (with_apertures [] f))).

(** The face after the sub-faces [l] were added as apertures. *)
Definition grown (f : Face) (l : list loc) : Face :=
  with_punched_geometry None (with_apertures (f_apertures f ++ l) f).

(** The Aperture of index [i] that a builder makes of the geometry [g], once
    it is added to the face [self]. *)
Definition generated_aperture (self : loc) (f : Face) (i : nat) (g : Face3D) : SubFace :=
  mkSubFace IsAperture
            (glz_identifier (f_identifier f) i) (glz_identifier (f_identifier f) i)
            (oriented (f_geometry f) g) false Outdoors (Some self).

(** The two assertions of [_acceptable_sub_face_check]. *)
Definition accepts_sub_faces (f : Face) : bool :=
  is_Outdoors (f_boundary_condition f) &&
  negb (bool_decide (f_type f = AirBoundary)).

(** The geometries that [apertures_by_ratio] makes apertures of. *)
Definition ratio_faces (f : Face) (ratio tolerance : Q) (rect_split : bool) : list Face3D :=
  if Qeqb ratio 0 then [] else
  match f3_remove_colinear_vertices (f_geometry f) tolerance with
  | None => []
  | Some geo =>
      if rect_split
      then f3_sub_faces_by_ratio_rectangle geo ratio tolerance
      else f3_sub_faces_by_ratio geo ratio
  end.


(** Every reference of [l] names an object of the store. *)
Definition subs_in_store (h : Heap) (l : list loc) : Prop :=
  Forall (fun x => is_Some (h_subs h !! x)) l.

End BuilderSpec.

Section AttachSpec.
Context `{Geo : Geometry}.

(** A sub-face as [add_aperture] and [add_door] leave it once it is added to
    the face [self]: the face is its parent, and its geometry is oriented
    along the face. *)
Definition attached (self : loc) (f : Face) (s : SubFace) : SubFace :=
  with_sf_geometry (oriented (f_geometry f) (sf_geometry s))
    (with_sf_parent (Some self) s).

(** The face after the sub-faces [l] were added as doors. *)
Definition grown_doors (f : Face) (l : list loc) : Face :=
  with_punched_geometry None (with_doors (f_doors f ++ l) f).

End AttachSpec.

(** ** A geometry to run the methods on

    Polygons of the horizontal plane [z = 0], held as their lists of
    vertices.  Areas, bounding rectangles and centers are exact; polygons
    are told apart, and joined across a gap, by their bounding rectangles;
    the operations that cut or offset polygons are the simplest ones that
    keep their types.  The examples below run the methods of [Face] on faces
    of this geometry. *)

Module Flat.

Definition drop_z (p : Point3D) : Point2D := mkPoint2D (p3x p) (p3y p).
Definition lift_z (p : Point2D) : Point3D := mkPoint3D (p2x p) (p2y p) 0.

Definition Qmin' (a b : Q) : Q := if Qleb a b then a else b.
Definition Qmax' (a b : Q) : Q := if Qleb a b then b else a.

(** Twice the signed area of a polygon, by the shoelace formula. *)
Fixpoint shoelace_from (first prev : Point2D) (l : list Point2D) : Q :=
  match l with
  | [] => (p2x prev * p2y first - p2x first * p2y prev)%Q
  | p :: rest =>
      (p2x prev * p2y p - p2x p * p2y prev + shoelace_from first p rest)%Q
  end.

Definition shoelace (l : list Point2D) : Q :=
  match l with
  | [] => 0%Q
  | p :: rest => shoelace_from p p rest
  end.

Definition area2d (l : list Point2D) : Q := (Qabs (shoelace l) / 2)%Q.

Definition min2d (l : list Point2D) : Point2D :=
  match l with
  | [] => mkPoint2D 0 0
  | p :: rest =>
      fold_left (fun m q => mkPoint2D (Qmin' (p2x m) (p2x q)) (Qmin' (p2y m) (p2y q)))
                rest p
  end.

Definition max2d (l : list Point2D) : Point2D :=
  match l with
  | [] => mkPoint2D 0 0
  | p :: rest =>
      fold_left (fun m q => mkPoint2D (Qmax' (p2x m) (p2x q)) (Qmax' (p2y m) (p2y q)))
                rest p
  end.

(** The center of the bounding rectangle. *)
Definition center2d (l : list Point2D) : Point2D :=
  mkPoint2D ((p2x (min2d l) + p2x (max2d l)) / 2) ((p2y (min2d l) + p2y (max2d l)) / 2).

Definition inside_bound_rect (l : list Point2D) (p : Point2D) : bool :=
  Qleb (p2x (min2d l)) (p2x p) && Qleb (p2x p) (p2x (max2d l)) &&
  Qleb (p2y (min2d l)) (p2y p) && Qleb (p2y p) (p2y (max2d l)).

Definition rectangle (o : Point2D) (base hgt : Q) : list Point2D :=
  [ o; mkPoint2D (p2x o + base) (p2y o);
    mkPoint2D (p2x o + base) (p2y o + hgt); mkPoint2D (p2x o) (p2y o + hgt) ].

(** The face shrunk towards its first vertex along x; its area is the area
    of the face times the ratio. *)
Definition shrink_x (g : list Point3D) (ratio : Q) : list Point3D :=
  match g with
  | [] => []
  | o :: _ =>
      map (fun v => mkPoint3D (p3x o + (p3x v - p3x o) * ratio) (p3y v) (p3z v)) g
  end.

(** The extent over which the bounding rectangles of two polygons overlap
    along x and along y; negative when they lie apart. *)
Definition overlap_x (a b : list Point2D) : Q :=
  Qmin' (p2x (max2d a)) (p2x (max2d b)) - Qmax' (p2x (min2d a)) (p2x (min2d b)).

Definition overlap_y (a b : list Point2D) : Q :=
  Qmin' (p2y (max2d a)) (p2y (max2d b)) - Qmax' (p2y (min2d a)) (p2y (min2d b)).

(** The square of the distance between the bounding rectangles of two
    polygons. *)
Definition gap2 (a b : list Point2D) : Q :=
  Qsqr (Qmax' 0 (- overlap_x a b)) + Qsqr (Qmax' 0 (- overlap_y a b)).

(** [polygon_relationship]: +1 when [polygon] lies inside [self], -1 when
    the two lie apart or merely touch, 0 when they overlap. *)
Definition relationship (self polygon : list Point2D) (tolerance : Q) : Z :=
  if forallb (inside_bound_rect self) polygon then 1%Z
  else if Qleb (overlap_x self polygon) tolerance ||
          Qleb (overlap_y self polygon) tolerance then (-1)%Z
  else 0%Z.

(** The groups of polygons that lie within the separation of one another:
    a polygon joins the first group that has a member near it. *)
Fixpoint join_group (separation : Q) (p : list Point2D)
    (groups : list (list (list Point2D))) : list (list (list Point2D)) :=
  match groups with
  | [] => [[p]]
  | g :: rest =>
      if existsb (fun q => Qleb (gap2 p q) (Qsqr separation)) g
      then (g ++ [p]) :: rest
      else g :: join_group separation p rest
  end.

(** [gap_crossing_boundary]: a polygon that is farther than the separation
    from every other one is kept; polygons within the separation of one
    another are joined into the bounding rectangle of their group. *)
Definition gap_crossing (polys : list (list Point2D)) (separation : Q)
    : list (list Point2D) :=
  map (fun g =>
         match g with
         | [p] => p
         | _ =>
             let all := concat g in
             rectangle (min2d all) (p2x (max2d all) - p2x (min2d all))
                       (p2y (max2d all) - p2y (min2d all))
         end)
      (fold_left (fun groups p => join_group separation p groups) polys []).

(** *** The shoelace formula along a path *)



(** The point at which the path ends. *)
Definition final (prev : Point2D) (l : list Point2D) : Point2D :=
  fold_left (fun _ p => p) l prev.


Definition translate (g : list Point3D) (v : Vector3D) : list Point3D :=
  map (fun p => mkPoint3D (p3x p + v3x v) (p3y p + v3y v) (p3z p + v3z v)) g.

Definition not_degenerate (g : list Point3D) : option (list Point3D) :=
  if Qltb 0 (area2d (map drop_z g)) then Some g else None.

Definition geometry : Geometry := {|
  Face3D := list Point3D;
  Polygon2D := list Point2D;
  Plane := unit;
  LineSegment3D := Point3D * Point3D;
  Mesh2D := list Point2D * list (list nat);
  mk_Face3D := fun vs _ _ => vs;
  f3_boundary := fun g => g;
  f3_holes := fun _ => None;
  f3_vertices := fun g => g;
  f3_normal := fun g => mkVector3D 0 0 (shoelace (map drop_z g));
  f3_center := fun g => lift_z (center2d (map drop_z g));
  f3_area := fun g => area2d (map drop_z g);
  f3_plane := fun _ => tt;
  f3_polygon2d := map drop_z;
  f3_lower_left_corner := fun g => lift_z (min2d (map drop_z g));
  f3_lower_left_counter_clockwise_vertices := fun g => g;
  f3_boundary_segments := fun _ => [];
  f3_hole_segments := fun _ => [];
  f3_flip := @rev Point3D;
  f3_move := translate;
  f3_rotate := fun g _ _ _ => g;
  f3_rotate_xy := fun g _ _ => g;
  f3_reflect := fun g _ _ => rev g;
  f3_scale := fun g k _ =>
    map (fun p => mkPoint3D (p3x p * k) (p3y p * k) (p3z p * k)) g;
  f3_remove_colinear_vertices := fun g _ => not_degenerate g;
  f3_from_punched_geometry := fun g subs => g ++ concat subs;
  f3_sub_faces_by_ratio := fun g ratio => [shrink_x g ratio];
  f3_sub_faces_by_ratio_rectangle := fun g ratio _ => [shrink_x g ratio];
  f3_sub_faces_by_ratio_sub_rectangle := fun g ratio _ _ _ _ _ => [shrink_x g ratio];
  f3_sub_faces_by_ratio_gridded := fun g ratio _ _ => [shrink_x g ratio];
  f3_sub_faces_by_dimension_rectangle := fun _ _ _ _ _ _ => [];
  f3_join_coplanar_faces := fun l _ => l;
  f3_merge_faces_to_holes := fun l _ => l;
  f3_coplanar_intersection := fun _ sub _ _ => Some [sub];
  mk_Polygon2D := fun vs => vs;
  p2_vertices := fun p => p;
  p2_min := min2d;
  p2_max := max2d;
  p2_center := center2d;
  p2_area := area2d;
  p2_is_rectangle := fun p _ => length p =? 4;
  p2_remove_colinear_vertices := fun p _ =>
    if Qltb 0 (area2d p) then Some p else None;
  p2_from_rectangle := fun o _ base hgt => rectangle o base hgt;
  p2_gap_crossing_boundary := fun polys separation _ => gap_crossing polys separation;
  p2_joined_intersected_boundary := fun polys _ => polys;
  p2_group_by_overlap := fun polys _ => map (fun p => [p]) polys;
  p2_boolean_union_all := fun polys _ => polys;
  p2_is_point_inside_bound_rect := inside_bound_rect;
  p2_is_polygon_inside := fun parent sub => forallb (inside_bound_rect parent) sub;
  p2_is_polygon_outside := fun hole sub =>
    forallb (fun p => negb (inside_bound_rect hole p)) sub;
  p2_polygon_relationship := relationship;
  p2_offset := fun _ _ _ => None;
  mk_Plane := fun _ _ _ => tt;
  pl_n := fun _ => mkVector3D 0 0 1;
  pl_o := fun _ => mkPoint3D 0 0 0;
  pl_y := fun _ => mkVector3D 0 1 0;
  pl_xyz_to_xy := fun _ => drop_z;
  pl_xy_to_xyz := fun _ => lift_z;
  pl_project_point := fun _ p => mkPoint3D (p3x p) (p3y p) 0;
  pl_rotate := fun pl _ _ _ => pl;
  v3_angle := fun u v => if Qltb (dot3 u v) 0 then math_pi else 0%Q;
  v3_project := fun v _ => v;
  v3_rotate := fun v _ _ => v;
  v3_normalize := fun v => v;
  ls_closest_point := fun s _ => s.1;
  ls_v := fun s =>
    mkVector3D (p3x s.2 - p3x s.1) (p3y s.2 - p3y s.1) (p3z s.2 - p3z s.1);
  m2_from_polygon_grid := fun _ _ _ _ => None;
  m2_vertices := fst;
  m2_faces := snd
|}.

End Flat.

(** ** The matching of regenerated apertures *)

Section RegenerationSpec.
Context `{Geo : Geometry}.

(** The test of the matching loop of [rectangularize_apertures], as the
    source has it: the centers are equivalent within the tolerance. *)
Definition center_matches (ap_face : Face3D) (tolerance : Q)
    (old_ap : loc * SubFace) : bool :=
  is_equivalent (sf_center old_ap.2) (f3_center ap_face) tolerance.

(** The test as the specification words it: the center of the original
    sub-face lies within the bounding rectangle of the new geometry. *)
Definition spec_center_in_bounding_rectangle (ap_face : Face3D)
    (old_ap : loc * SubFace) : bool :=
  p2_is_point_inside_bound_rect (f3_polygon2d ap_face)
    (pl_xyz_to_xy (f3_plane ap_face) (sf_center old_ap.2)).

(** The geometries that [rectangularize_apertures] makes new Apertures of,
    for the cleaned geometries [non_rect_geos] of the non-rectangular
    apertures: merged when a [max_separation] asks for it, and turned into
    bounding rectangles when no [subdivision_distance] is given. *)
Definition regenerated_geometries (f : Face) (non_rect_geos : list Face3D)
    (subdivision_distance max_separation : option Q) (merge_all : bool)
    (tolerance angle_tolerance : Q) : list Face3D :=
  let ang_tol := math_radians angle_tolerance in
  let ref_plane := _reference_plane f ang_tol in
  let merged :=
    match max_separation with
    | Some max_separation =>
        if merge_all || (negb merge_all && (1 <? length non_rect_geos))
        then merge_geometries ref_plane non_rect_geos max_separation tolerance
        else non_rect_geos
    | None => non_rect_geos
    end in
  match subdivision_distance with
  | None => bounding_rectangles ref_plane merged ang_tol
  | Some _ => merged
  end.

(** [edits_occurred] at the point where the Aperture objects are made. *)
Definition regenerates (non_rect_geos : list Face3D)
    (subdivision_distance max_separation : option Q) (merge_all : bool) : bool :=
  match subdivision_distance, max_separation with
  | None, _ => true
  | Some _, Some _ => merge_all || (negb merge_all && (1 <? length non_rect_geos))
  | Some _, None => false
  end.

(** What tells an Aperture or a Door from the others: its class, its
    identifier, its display name and its flag. *)
Definition identity (s : SubFace) : SubKind * string * string * bool :=
  (sf_kind s, sf_identifier s, sf_display_name s, sf_is_operable s).

(** A computation that makes objects and writes parents, geometries and
    boundary conditions, but leaves every object that the store holds the
    identity that it has. *)
Definition keeps_identity {A} (m : M A) : Prop :=
  forall h,
    (h_next h <= h_next (m h).2)%nat /\
    (forall l s, (l < h_next h)%nat -> h_subs h !! l = Some s ->
       exists s', h_subs (m h).2 !! l = Some s' /\ identity s' = identity s).

End RegenerationSpec.

(** ** Apertures that are rectangles already *)

Section RectangularSpec.
Context `{Geo : Geometry}.

(** A geometry that the first loop of [rectangularize_apertures] does not
    count as non-rectangular: it is degenerate, and ignored, or it is a
    rectangle once its colinear vertices are removed. *)
Definition is_rect_like (tol ang_tol : Q) (g : Face3D) : bool :=
  match f3_remove_colinear_vertices g tol with
  | Some clean_geo => p2_is_rectangle (f3_polygon2d clean_geo) ang_tol
  | None => true
  end.

End RectangularSpec.

(** ** What the round trip through a dictionary relies on *)

Section DictSpec.
Context `{Ser : Serialization}.

(** The laws of the dictionaries that the other classes write and read,
    for a given [include_plane]: what they write they read back, up to the
    dictionary that would be written again; the dictionary of a sub-face
    does not tell its parent; the holes written have three vertices at
    least. *)
Record round_trip_laws (include_plane : bool) : Prop := {
  holes_law : forall g eul,
    match gd_holes (f3_to_dict g include_plane eul) with
    | Some holes => Forall (fun hole_list => 3 <= length hole_list) holes
    | None => True
    end;
  geometry_law : forall g eul,
    exists g',
      f3_from_dict (f3_to_dict g include_plane eul) = Ok g' /\
      f3_to_dict g' include_plane eul = f3_to_dict g include_plane eul /\
      f3_normal g' = f3_normal g;
  aperture_law : forall s,
    sf_kind s = IsAperture ->
    exists s',
      aperture_from_dict (sub_to_dict s include_plane) = Ok s' /\
      sf_kind s' = IsAperture /\
      sub_to_dict s' include_plane = sub_to_dict s include_plane /\
      f3_normal (sf_geometry s') = f3_normal (sf_geometry s);
  door_law : forall s,
    sf_kind s = IsDoor ->
    exists s',
      door_from_dict (sub_to_dict s include_plane) = Ok s' /\
      sf_kind s' = IsDoor /\
      sub_to_dict s' include_plane = sub_to_dict s include_plane /\
      f3_normal (sf_geometry s') = f3_normal (sf_geometry s);
  parent_law : forall s p,
    sub_to_dict (with_sf_parent p s) include_plane = sub_to_dict s include_plane
}.

(** A face of the store in good order: its apertures are Apertures of the
    store and its doors Doors, distinct objects, none with a normal
    reversed with respect to the face; and with sub-faces the face is no
    AirBoundary and has an Outdoors or a Surface boundary condition. *)
Record valid_face (h : Heap) (f : Face) (aps drs : list SubFace) : Prop := {
  valid_apertures :
    Forall2 (fun l s => h_subs h !! l = Some s /\ sf_kind s = IsAperture)
            (f_apertures f) aps;
  valid_doors :
    Forall2 (fun l s => h_subs h !! l = Some s /\ sf_kind s = IsDoor)
            (f_doors f) drs;
  valid_normals :
    Forall (fun s => angle_exceeds_right (f3_normal (f_geometry f))
                       (f3_normal (sf_geometry s)) = false) (aps ++ drs);
  valid_type :
    has_sub_faces f = true -> f_type f <> AirBoundary;
  valid_boundary_condition : face_admissible f
}.

End DictSpec.

(** ** Faces to run the methods on *)

Module Examples.
#[local] Existing Instance Flat.geometry.

(** The square with lower-left corner [(x, y)] and side [w], in the plane
    [z = 0], counter-clockwise. *)
Definition square (x y w : Q) : list Point3D :=
  [ mkPoint3D x y 0; mkPoint3D (x + w) y 0;
    mkPoint3D (x + w) (y + w) 0; mkPoint3D x (y + w) 0 ].

(** A triangle, half of the square. *)
Definition triangle (x y w : Q) : list Point3D :=
  [ mkPoint3D x y 0; mkPoint3D (x + w) y 0; mkPoint3D x (y + w) 0 ].

Definition aperture_at (identifier : string) (geometry : list Point3D)
    (parent : option loc) : SubFace :=
  mkSubFace IsAperture identifier identifier geometry false Outdoors parent.

Definition door_at (identifier : string) (geometry : list Point3D)
    (parent : option loc) : SubFace :=
  mkSubFace IsDoor identifier identifier geometry false Outdoors parent.

Definition face_with (identifier : string) (geometry : list Point3D)
    (apertures doors : list loc) (bc : BoundaryCondition) : Face :=
  mkFace identifier identifier None geometry None None apertures doors Wall bc.

(** A 4 x 4 face, object 0, with one aperture, object 1, and one door,
    object 2. *)
Definition store_door : Heap :=
  mkHeap {[ 0 := face_with "F" (square 0 0 4) [1] [2] Outdoors ]}
         (<[ 1 := aperture_at "A" (square 1 1 1) (Some 0) ]>
          {[ 2 := door_at "D" (square 3 0 1) (Some 0) ]})
         3.

(** Two faces, objects 0 and 1, that do not have the same number of
    apertures. *)
Definition store_mismatch : Heap :=
  mkHeap (<[ 0 := face_with "A" (square 0 0 4) [2] [] Outdoors ]>
          {[ 1 := face_with "B" (square 0 0 4) [] [] Outdoors ]})
         {[ 2 := aperture_at "A1" (square 1 1 1) (Some 0) ]}
         3.

(** A face of a Room. *)
Definition face_in_room (room identifier : string) (geometry : list Point3D)
    (apertures doors : list loc) (bc : BoundaryCondition) : Face :=
  mkFace identifier identifier None geometry (Some (mkRoom room room)) None
         apertures doors Wall bc.

(** Two faces of two Rooms with two apertures each.  Both apertures of
    face 0 lie on the first aperture of face 1; the second aperture of
    face 1 is far away. *)
Definition store_greedy : Heap :=
  mkHeap (<[ 0 := face_in_room "R1" "A" (square 0 0 4) [2; 3] [] Outdoors ]>
          {[ 1 := face_in_room "R2" "B" (square 0 0 200) [4; 5] [] Outdoors ]})
         (<[ 2 := aperture_at "A1" (square 1 1 1) (Some 0) ]>
          (<[ 3 := aperture_at "A2" (square 1 1 1) (Some 0) ]>
           (<[ 4 := aperture_at "B1" (square 1 1 1) (Some 1) ]>
            {[ 5 := aperture_at "B2" (square 100 1 1) (Some 1) ]})))
         6.

(** Two faces of two Rooms with one aperture each, at the same place. *)
Definition store_adjacent : Heap :=
  mkHeap (<[ 0 := face_in_room "R1" "A" (square 0 0 4) [2] [] Outdoors ]>
          {[ 1 := face_in_room "R2" "B" (square 0 0 4) [3] [] Outdoors ]})
         (<[ 2 := aperture_at "A1" (square 1 1 1) (Some 0) ]>
          {[ 3 := aperture_at "B1" (square 1 1 1) (Some 1) ]})
         4.

(** The same two faces, the aperture of the first one operable. *)
Definition store_operable : Heap :=
  mkHeap (<[ 0 := face_in_room "R1" "A" (square 0 0 4) [2] [] Outdoors ]>
          {[ 1 := face_in_room "R2" "B" (square 0 0 4) [3] [] Outdoors ]})
         (<[ 2 := mkSubFace IsAperture "A1" "A1" (square 1 1 1) true Outdoors (Some 0) ]>
          {[ 3 := aperture_at "B1" (square 1 1 1) (Some 1) ]})
         4.

(** Two faces with one aperture each, at the same place. *)
Definition store_paired : Heap :=
  mkHeap (<[ 0 := face_with "A" (square 0 0 4) [2] [] Outdoors ]>
          {[ 1 := face_with "B" (square 0 0 4) [3] [] Outdoors ]})
         (<[ 2 := aperture_at "A1" (square 1 1 1) (Some 0) ]>
          {[ 3 := aperture_at "B1" (square 1 1 1) (Some 1) ]})
         4.

(** A 4 x 4 face, object 0, whose only aperture, object 1, is a sliver of no
    width. *)
Definition store_sliver : Heap :=
  mkHeap {[ 0 := face_with "F" (square 0 0 4) [1] [] Outdoors ]}
         {[ 1 := aperture_at "A" (square 1 1 0) (Some 0) ]}
         2.

(** An interior face, object 0, with a Surface boundary condition and one
    aperture, object 1: one of the two faces of an adjacency. *)
Definition store_interior : Heap :=
  mkHeap {[ 0 := face_with "F" (square 0 0 4) [1] [] (Surface ["G"] false) ]}
         {[ 1 := aperture_at "A" (square 1 1 1) (Some 0) ]}
         2.

(** A 10 x 10 face, object 0, with two triangular apertures, objects 1
    and 2, side by side. *)
Definition store_triangles : Heap :=
  mkHeap {[ 0 := face_with "F" (square 0 0 10) [1; 2] [] Outdoors ]}
         (<[ 1 := aperture_at "A1" (triangle 1 1 2) (Some 0) ]>
          {[ 2 := aperture_at "A2" (triangle 5 1 2) (Some 0) ]})
         3.

(** A face, object 0, without sub-faces, whose boundary condition is that
    of an extension. *)
Definition store_adiabatic : Heap :=
  mkHeap {[ 0 := face_with "F" (square 0 0 4) [] [] (OtherBC "Adiabatic") ]}
         ∅ 1.

(** A 4 x 4 face, object 0, without any sub-face. *)
Definition store_bare : Heap :=
  mkHeap {[ 0 := face_with "F" (square 0 0 4) [] [] Outdoors ]} ∅ 1.


(** A 12 x 12 face, object 0, with two triangular apertures that do not
    touch: the small one, object 1, lies in the corner that the large one,
    object 2, leaves free, and so within the bounding rectangle of the
    large one. *)
Definition store_nested : Heap :=
  mkHeap {[ 0 := face_with "F" (square 0 0 12) [1; 2] [] Outdoors ]}
         (<[ 1 := aperture_at "A1" (triangle 2 2 2) (Some 0) ]>
          {[ 2 := aperture_at "A2"
                    [mkPoint3D 11 1 0; mkPoint3D 11 11 0; mkPoint3D 1 11 0]
                    (Some 0) ]})
         3.

(** A 4 x 4 face, object 0, without any sub-face, and an aperture and a
    door, objects 1 and 2, that belong to no face yet. *)
Definition store_loose : Heap :=
  mkHeap {[ 0 := face_with "F" (square 0 0 4) [] [] Outdoors ]}
         (<[ 1 := aperture_at "A" (square 1 1 1) None ]>
          {[ 2 := door_at "D" (square 2 0 1) None ]})
         3.

End Examples.

(** ** Dictionaries to run [to_dict] and [from_dict] on

    The dictionary of a geometry is its list of vertices; the dictionary of
    a boundary condition is the condition itself, read back by the module
    for the three classes of [boundarycondition.py] and for no other; the
    dictionary of a sub-face is the sub-face without its parent. *)

Module DictExamples.
#[local] Existing Instance Flat.geometry.

Definition known_class (name : string) : bool :=
  String.eqb name "Outdoors" || String.eqb name "Surface" || String.eqb name "Ground".

Definition serialization : Serialization := {|
  f3_to_dict := fun g _ _ => mkFace3DDict g None None;
  f3_from_dict := fun d => Ok (gd_boundary d);
  BCDict := BoundaryCondition;
  bcd_type := bc_name;
  bc_to_dict := fun bc _ => bc;
  hbc_getattr := fun name =>
    if known_class name then Some (fun d => Ok d) else None;
  SubDict := SubFace;
  sub_to_dict := fun s _ => with_sf_parent None s;
  aperture_from_dict := fun d =>
    if bool_decide (sf_kind d = IsAperture) then Ok d else Raise AssertionError;
  door_from_dict := fun d =>
    if bool_decide (sf_kind d = IsDoor) then Ok d else Raise AssertionError
|}.

End DictExamples.

(** ** The geometries that the other builders make apertures of *)

Section BuilderFaces.
Context `{Geo : Geometry}.

(** [apertures_by_ratio_rectangle] *)
Definition ratio_rectangle_faces (f : Face)
    (ratio aperture_height sill_height horizontal_separation
     vertical_separation tolerance : Q) : list Face3D :=
  if Qeqb ratio 0 then [] else
  match f3_remove_colinear_vertices (f_geometry f) tolerance with
  | None => []
  | Some geo =>
      f3_sub_faces_by_ratio_sub_rectangle geo ratio aperture_height sill_height
        horizontal_separation vertical_separation tolerance
  end.

(** [apertures_by_ratio_gridded] *)
Definition ratio_gridded_faces (f : Face) (ratio x_dim : Q) (y_dim : option Q)
    (tolerance : Q) : list Face3D :=
  if Qeqb ratio 0 then [] else
  match f3_remove_colinear_vertices (f_geometry f) tolerance with
  | None => []
  | Some geo => f3_sub_faces_by_ratio_gridded geo ratio x_dim y_dim
  end.

(** [apertures_by_width_height_rectangle] *)
Definition width_height_faces (f : Face)
    (aperture_height aperture_width sill_height horizontal_separation
     tolerance : Q) : list Face3D :=
  match f3_remove_colinear_vertices (f_geometry f) tolerance with
  | None => []
  | Some geo =>
      f3_sub_faces_by_dimension_rectangle geo aperture_height aperture_width
        sill_height horizontal_separation tolerance
  end.

(** What a builder leaves of the face [f] of the store [h] when it returns
    [r] after making apertures of [ap_faces]: no door, the new apertures
    alone, one for each geometry and numbered from 0, and an aperture area
    that is the sum of the areas of the geometries as oriented along the
    face. *)
Definition rebuilt_with (self : loc) (h : Heap) (f : Face)
    (ap_faces : list Face3D) (r : result unit * Heap) : Prop :=
  r.1 = Ok tt /\
  h_faces r.2
    = <[self := with_apertures (seq (h_next h) (length ap_faces)) (cleared f)]>
        (h_faces h) /\
  (forall i g, ap_faces !! i = Some g ->
     h_subs r.2 !! (h_next h + i) = Some (generated_aperture self f i g)) /\
  (aperture_area self r.2).1
    = Ok (Qsum (map (fun g => f3_area (oriented (f_geometry f) g)) ap_faces)).

End BuilderFaces.

Section TransformSpec.
Context `{Geo : Geometry}.


End TransformSpec.

Section DegenerateSpec.
Context `{Geo : Geometry}.

(** The sub-face [x] of the store [h] is left standing by
    [remove_colinear_vertices]: its geometry is not degenerate. *)
Definition standing (h : Heap) (tolerance : Q) (x : loc) : bool :=
  match h_subs h !! x with
  | Some s =>
      match f3_remove_colinear_vertices (sf_geometry s) tolerance with
      | Some _ => true
      | None => false
      end
  | None => false
  end.

(** A sub-face after [remove_colinear_vertices] was tried on it: a
    degenerate one is what it was. *)
Definition cleaned (tolerance : Q) (s : SubFace) : SubFace :=
  match f3_remove_colinear_vertices (sf_geometry s) tolerance with
  | Some g => with_sf_geometry g s
  | None => s
  end.

End DegenerateSpec.

(** ** The commands that add windows

    [windows_by_ratio] and [windows_by_ratio_rect] of [cli/edit.py].  A
    command reads the Model from its file, edits it, writes its dictionary
    out and exits with the code 0, or with the code 1 when anything raised.
    The reading and the writing are left to [model.py]; a command is
    modelled from the parsed Model on: its tolerance and, for each of its
    rooms, the faces of the room. *)

Section Commands.
Context `{Geo : Geometry}.

(** [isinstance(face.boundary_condition, Outdoors) and
    isinstance(face.type, Wall)] *)
Definition is_outdoor_wall (f : Face) : bool :=
  is_Outdoors (f_boundary_condition f) && bool_decide (f_type f = Wall).

(** The body of the loops: [build] is the method that the command calls
    on a face that is an outdoor wall. *)
Definition on_wall (build : loc -> M unit) (face : loc) : M unit :=
  f <- get_face face ;;
  if is_outdoor_wall f then build face else ret tt.

(** The loops over [parsed_model.rooms] and [room.faces]. *)
Definition for_outdoor_walls (rooms : list (list loc)) (build : loc -> M unit) : M unit :=
  for_each rooms (fun room => for_each room (on_wall build)).

(** [try: ... except Exception: sys.exit(1) else: sys.exit(0)] *)
Definition exit_code {A} (body : M A) : Heap -> Z * Heap :=
  fun h =>
    match body h with
    | (Ok _, h') => (0%Z, h')
    | (Raise _, h') => (1%Z, h')
    end.

(** [windows_by_ratio] *)
Definition windows_by_ratio (tolerance : Q) (rooms : list (list loc)) (ratio : Q)
    : Heap -> Z * Heap :=
  exit_code (
    assert_ (negb (Qeqb tolerance 0)) ;;
    let tol := tolerance in
    (* generate the windows for all walls of rooms *)
    for_outdoor_walls rooms (fun face => apertures_by_ratio face ratio tol true)).

(** [windows_by_ratio_rect], the four distances parsed already. *)
Definition windows_by_ratio_rect (tolerance : Q) (rooms : list (list loc))
    (ratio aperture_height sill_height horizontal_separation vertical_separation : Q)
    : Heap -> Z * Heap :=
  exit_code (
    assert_ (negb (Qeqb tolerance 0)) ;;
    let tol := tolerance in
    (* generate the windows for all walls of rooms *)
    for_outdoor_walls rooms (fun face =>
      apertures_by_ratio_rectangle face ratio aperture_height sill_height
        horizontal_separation vertical_separation tol)).

(** The face of the store at [l] is an outdoor wall. *)
Definition outdoor_wall_at (h : Heap) (l : loc) : bool :=
  match h_faces h !! l with
  | Some f => is_outdoor_wall f
  | None => false
  end.

(** What a command leaves of a face [f]: an outdoor wall has lost its doors
    and has as many new apertures as [geometries] gives for it; any other
    face is what it was. *)
Definition rebuilt_wall (geometries : Face -> list Face3D) (f f' : Face) : Prop :=
  if is_outdoor_wall f
  then exists n, f' = with_apertures (seq n (length (geometries f))) (cleared f)
  else f' = f.

(** The faces are in the store, with their apertures, which are objects
    made before. *)
Definition faces_ready (h : Heap) (faces : list loc) : Prop :=
  forall l, l ∈ faces ->
    exists f, h_faces h !! l = Some f /\
      Forall (fun x => is_Some (h_subs h !! x) /\ x < h_next h) (f_apertures f).

(** The outcome of a command that rebuilds the outdoor walls of [rooms] with
    the geometries [geometries], [valid] telling whether the method accepts
    its arguments: a tolerance of 0 and, when there is an outdoor wall,
    arguments that the method refuses give the exit code 1 with the store
    as it was; otherwise the exit code is 0, the outdoor walls are rebuilt
    and no other face is written. *)
Definition command_outcome (tolerance : Q) (rooms : list (list loc)) (valid : bool)
    (geometries : Face -> list Face3D) (h : Heap) (r : Z * Heap) : Prop :=
  if Qeqb tolerance 0 || (existsb (outdoor_wall_at h) (concat rooms) && negb valid)
  then r = (1%Z, h)
  else
    r.1 = 0%Z /\
    (forall l, l ∉ concat rooms -> h_faces r.2 !! l = h_faces h !! l) /\
    (forall l f, l ∈ concat rooms -> h_faces h !! l = Some f ->
       exists f', h_faces r.2 !! l = Some f' /\ rebuilt_wall geometries f f').

End Commands.
(** * Part II: lemmas and theorems *)

(** ** Comparisons of rationals *)

Lemma Qleb_le x y : Qleb x y = true <-> (x <= y)%Q.
Proof. apply Qle_bool_iff. Qed.


Lemma Qltb_false x y : Qltb x y = false <-> (y <= x)%Q.
Proof.
  unfold Qltb. rewrite negb_false_iff. apply Qle_bool_iff.
Qed.


(** ** Reasoning about methods *)

Section Reasoning.
Context `{Geo : Geometry}.

Lemma hoare_preserves {A} (I : Heap -> Prop) (m : M A) :
  hoare I m (fun _ h => I h) <-> preserves I m.
Proof. reflexivity. Qed.

Lemma hoare_consequence {A} (P P' : Heap -> Prop) (m : M A)
    (Q Q' : result A -> Heap -> Prop) :
  hoare P' m Q' ->
  (forall h, P h -> P' h) ->
  (forall r h, Q' r h -> Q r h) ->
  hoare P m Q.
Proof. intros Hm HP HQ h Hh. apply HQ, Hm, HP, Hh. Qed.

Lemma hoare_ret {A} (P : Heap -> Prop) (a : A) Q :
  (forall h, P h -> Q (Ok a) h) -> hoare P (ret a) Q.
Proof. intros H h Hh. apply H, Hh. Qed.

Lemma hoare_raise {A} (P : Heap -> Prop) e (Q : result A -> Heap -> Prop) :
  (forall h, P h -> Q (Raise e) h) -> hoare P (raise e) Q.
Proof. intros H h Hh. apply H, Hh. Qed.

Lemma hoare_bind {A B} (P : Heap -> Prop) (m : M A) (k : A -> M B)
    (R : A -> Heap -> Prop) (Q : result B -> Heap -> Prop) :
  hoare P m (fun r h => match r with Ok a => R a h | Raise e => Q (Raise e) h end) ->
  (forall a, hoare (R a) (k a) Q) ->
  hoare P (bind m k) Q.
Proof.
  intros Hm Hk h Hh. specialize (Hm h Hh). unfold bind.
  destruct (m h) as [[a|e] h']; simpl in *.
  - apply Hk, Hm.
  - exact Hm.
Qed.

Lemma preserves_ret {A} I (a : A) : preserves I (ret a).
Proof. intros h Hh. exact Hh. Qed.

Lemma preserves_raise {A} I e : preserves I (@raise _ A e).
Proof. intros h Hh. exact Hh. Qed.

Lemma preserves_bind {A B} I (m : M A) (k : A -> M B) :
  preserves I m -> (forall a, preserves I (k a)) -> preserves I (bind m k).
Proof.
  intros Hm Hk h Hh. specialize (Hm h Hh). unfold bind.
  destruct (m h) as [[a|e] h']; simpl in *.
  - apply Hk, Hm.
  - exact Hm.
Qed.

Lemma preserves_try_except {A} I (m : M A) catches handler :
  preserves I m -> preserves I handler -> preserves I (try_except m catches handler).
Proof.
  intros Hm Hh h HI. specialize (Hm h HI). unfold try_except.
  destruct (m h) as [[a|e] h']; simpl in *; [exact Hm|].
  destruct (catches e); [apply Hh, Hm | exact Hm].
Qed.

Lemma preserves_assert I b : preserves I (assert_ b).
Proof. destruct b; [apply preserves_ret | apply preserves_raise]. Qed.

Lemma preserves_get_heap I : preserves I get_heap.
Proof. intros h Hh. exact Hh. Qed.

Lemma preserves_get_face I l : preserves I (get_face l).
Proof. intros h Hh. unfold get_face. destruct (h_faces h !! l); exact Hh. Qed.

Lemma preserves_get_sub I l : preserves I (get_sub l).
Proof. intros h Hh. unfold get_sub. destruct (h_subs h !! l); exact Hh. Qed.

Lemma preserves_for_each {A} I (l : list A) body :
  (forall x, preserves I (body x)) -> preserves I (for_each l body).
Proof.
  intros Hb. induction l as [|x l IH]; simpl.
  - apply preserves_ret.
  - apply preserves_bind; [apply Hb | intros _; exact IH].
Qed.

Lemma preserves_map_M {A B} I (f : A -> M B) (l : list A) :
  (forall x, preserves I (f x)) -> preserves I (map_M f l).
Proof.
  intros Hf. induction l as [|x l IH]; simpl.
  - apply preserves_ret.
  - apply preserves_bind; [apply Hf | intros y].
    apply preserves_bind; [exact IH | intros ys; apply preserves_ret].
Qed.

Lemma preserves_put_sub I l s : faces_only I -> preserves I (put_sub l s).
Proof. intros HI h Hh. eapply HI; [|exact Hh]. reflexivity. Qed.

Lemma preserves_new_sub I s : faces_only I -> preserves I (new_sub s).
Proof. intros HI h Hh. eapply HI; [|exact Hh]. reflexivity. Qed.

Lemma preserves_modify_sub I l g : faces_only I -> preserves I (modify_sub l g).
Proof.
  intros HI. unfold modify_sub. apply preserves_bind.
  - apply preserves_get_sub.
  - intros s. apply preserves_put_sub, HI.
Qed.

End Reasoning.

(** ** Running methods step by step *)

Section Running.
Context `{Geo : Geometry}.

Lemma bind_ret {A B} (a : A) (k : A -> M B) h : bind (ret a) k h = k a h.
Proof. reflexivity. Qed.

Lemma bind_raise {A B} e (k : A -> M B) h : bind (raise e) k h = (Raise e, h).
Proof. reflexivity. Qed.

Lemma bind_bind {A B C} (m : M A) (k : A -> M B) (k' : B -> M C) h :
  bind (bind m k) k' h = bind m (fun a => bind (k a) k') h.
Proof. unfold bind. destruct (m h) as [[a|e] h']; reflexivity. Qed.

Lemma bind_of_ok {A B} (m : M A) (k : A -> M B) h a h' :
  m h = (Ok a, h') -> bind m k h = k a h'.
Proof. intros H. unfold bind. rewrite H. reflexivity. Qed.

Lemma bind_of_raise {A B} (m : M A) (k : A -> M B) h e h' :
  m h = (Raise e, h') -> bind m k h = (Raise e, h').
Proof. intros H. unfold bind. rewrite H. reflexivity. Qed.

Lemma get_face_ok l f h : h_faces h !! l = Some f -> get_face l h = (Ok f, h).
Proof. intros H. unfold get_face. rewrite H. reflexivity. Qed.

Lemma get_sub_ok l s h : h_subs h !! l = Some s -> get_sub l h = (Ok s, h).
Proof. intros H. unfold get_sub. rewrite H. reflexivity. Qed.

Lemma modify_face_ok l g f h :
  h_faces h !! l = Some f ->
  modify_face l g h = (Ok tt, mkHeap (<[l:=g f]> (h_faces h)) (h_subs h) (h_next h)).
Proof. intros H. unfold modify_face, bind. rewrite (get_face_ok _ _ _ H). reflexivity. Qed.

Lemma modify_sub_ok l g s h :
  h_subs h !! l = Some s ->
  modify_sub l g h = (Ok tt, mkHeap (h_faces h) (<[l:=g s]> (h_subs h)) (h_next h)).
Proof. intros H. unfold modify_sub, bind. rewrite (get_sub_ok _ _ _ H). reflexivity. Qed.

Lemma keeps_faces_preserves {A} (m : M A) I :
  keeps_faces m -> faces_only I -> preserves I m.
Proof. intros Hm HI h Hh. eapply HI; [|exact Hh]. symmetry. apply Hm. Qed.

Lemma keeps_faces_ret {A} (a : A) : keeps_faces (ret a).
Proof. intros h. reflexivity. Qed.

Lemma keeps_faces_raise {A} e : keeps_faces (@raise _ A e).
Proof. intros h. reflexivity. Qed.

Lemma keeps_faces_bind {A B} (m : M A) (k : A -> M B) :
  keeps_faces m -> (forall a, keeps_faces (k a)) -> keeps_faces (bind m k).
Proof.
  intros Hm Hk h. specialize (Hm h). unfold bind.
  destruct (m h) as [[a|e] h']; simpl in *; [|exact Hm].
  rewrite Hk. exact Hm.
Qed.

Lemma keeps_faces_get_heap : keeps_faces get_heap.
Proof. intros h. reflexivity. Qed.

Lemma keeps_faces_get_face l : keeps_faces (get_face l).
Proof. intros h. unfold get_face. destruct (h_faces h !! l); reflexivity. Qed.

Lemma keeps_faces_get_sub l : keeps_faces (get_sub l).
Proof. intros h. unfold get_sub. destruct (h_subs h !! l); reflexivity. Qed.

Lemma keeps_faces_put_sub l s : keeps_faces (put_sub l s).
Proof. intros h. reflexivity. Qed.

Lemma keeps_faces_new_sub s : keeps_faces (new_sub s).
Proof. intros h. reflexivity. Qed.

Lemma keeps_faces_modify_sub l g : keeps_faces (modify_sub l g).
Proof.
  unfold modify_sub. apply keeps_faces_bind.
  - apply keeps_faces_get_sub.
  - intros s. apply keeps_faces_put_sub.
Qed.

Lemma keeps_faces_assert b : keeps_faces (assert_ b).
Proof. destruct b; [apply keeps_faces_ret | apply keeps_faces_raise]. Qed.

Lemma keeps_faces_for_each {A} (l : list A) body :
  (forall x, keeps_faces (body x)) -> keeps_faces (for_each l body).
Proof.
  intros Hb. induction l as [|x l IH]; simpl.
  - apply keeps_faces_ret.
  - apply keeps_faces_bind; [apply Hb | intros _; exact IH].
Qed.

Lemma keeps_faces_map_M {A B} (f : A -> M B) (l : list A) :
  (forall x, keeps_faces (f x)) -> keeps_faces (map_M f l).
Proof.
  intros Hf. induction l as [|x l IH]; simpl.
  - apply keeps_faces_ret.
  - apply keeps_faces_bind; [apply Hf | intros y].
    apply keeps_faces_bind; [exact IH | intros ys; apply keeps_faces_ret].
Qed.

Lemma keeps_faces_try_except {A} (m : M A) catches handler :
  keeps_faces m -> keeps_faces handler -> keeps_faces (try_except m catches handler).
Proof.
  intros Hm Hh h. specialize (Hm h). unfold try_except.
  destruct (m h) as [[a|e] h']; simpl in *; [exact Hm|].
  destruct (catches e); [rewrite Hh; exact Hm | exact Hm].
Qed.

Lemma keeps_faces_sub_set_adjacency a b : keeps_faces (sub_set_adjacency a b).
Proof.
  unfold sub_set_adjacency.
  apply keeps_faces_bind; [apply keeps_faces_get_heap | intros h0].
  apply keeps_faces_bind; [apply keeps_faces_get_sub | intros sa].
  apply keeps_faces_bind; [apply keeps_faces_get_sub | intros sb].
  apply keeps_faces_bind; [apply keeps_faces_assert | intros _].
  apply keeps_faces_bind; [apply keeps_faces_assert | intros _].
  apply keeps_faces_bind; [apply keeps_faces_modify_sub | intros _].
  apply keeps_faces_modify_sub.
Qed.

End Running.

Create HintDb keeps.
#[global] Hint Resolve keeps_faces_ret keeps_faces_raise keeps_faces_get_heap
  keeps_faces_get_face keeps_faces_get_sub keeps_faces_put_sub
  keeps_faces_new_sub keeps_faces_modify_sub keeps_faces_assert
  keeps_faces_sub_set_adjacency : keeps.

(** Goals [keeps_faces m], by the shape of [m]. *)
Ltac keeps :=
  repeat first
    [ solve [eauto with keeps]
    | apply keeps_faces_bind; [|intros ?]
    | apply keeps_faces_for_each; intros ?
    | apply keeps_faces_map_M; intros ?
    | apply keeps_faces_try_except
    | match goal with
      | |- keeps_faces (if ?b then _ else _) => destruct b
      | |- keeps_faces (match ?x with _ => _ end) => destruct x
      end ].

(** One step of a run: the first computation of a sequence is a read or a
    write whose object the store holds. *)
Ltac lookup_now :=
  simpl; first [ eassumption | simplify_map_eq; first [reflexivity | eassumption] ].

Ltac run_step :=
  first
    [ rewrite bind_ret
    | rewrite bind_raise
    | erewrite bind_of_ok; [| apply get_face_ok; lookup_now ]
    | erewrite bind_of_ok; [| apply get_sub_ok; lookup_now ]
    | erewrite bind_of_ok; [| apply modify_face_ok; lookup_now ]
    | erewrite bind_of_ok; [| apply modify_sub_ok; lookup_now ] ].

(** ** Adjacency *)

Section AdjacencyFacts.
Context `{Geo : Geometry}.

Lemma keeps_faces_pair_with_first sub_1 others tolerance :
  keeps_faces (pair_with_first sub_1 others tolerance).
Proof.
  induction others as [|sub_2 rest IH]; simpl; [keeps|].
  apply keeps_faces_bind; [keeps | intros s1].
  apply keeps_faces_bind; [keeps | intros s2].
  destruct (distance_within _ _ _); [keeps | exact IH].
Qed.

Lemma keeps_faces_pair_sub_faces mine others tolerance :
  keeps_faces (pair_sub_faces mine others tolerance).
Proof.
  induction mine as [|sub_1 rest IH]; simpl; [keeps|].
  apply keeps_faces_bind; [apply keeps_faces_pair_with_first | intros r].
  apply keeps_faces_bind; [exact IH | intros ps]. keeps.
Qed.

#[local] Hint Resolve keeps_faces_pair_sub_faces : keeps.

Lemma keeps_faces_set_sub_faces_adjacent s o tolerance :
  keeps_faces (set_sub_faces_adjacent s o tolerance).
Proof.
  unfold set_sub_faces_adjacent.
  keeps.
Qed.

#[local] Hint Resolve keeps_faces_set_sub_faces_adjacent : keeps.

(** The faces after [set_adjacency], whatever its outcome: each of the two
    carries the Surface condition that references the other. *)
Lemma set_adjacency_boundary_conditions self other tolerance h s o :
  h_faces h !! self = Some s ->
  h_faces h !! other = Some o ->
  let h' := (set_adjacency self other tolerance h).2 in
  f_boundary_condition <$> h_faces h' !! self = Some (surface o) /\
  f_boundary_condition <$> h_faces h' !! other = Some (surface s).
Proof.
  intros Hs Ho. unfold set_adjacency.
  destruct (decide (self = other)) as [->|Hne].
  - assert (s = o) as -> by congruence.
    do 6 run_step.
    match goal with |- context [h_faces (?m ?hh).2] =>
      assert (Hk : keeps_faces m) by keeps; rewrite !Hk end.
    simpl. rewrite !lookup_insert_eq. split; reflexivity.
  - do 6 run_step.
    match goal with |- context [h_faces (?m ?hh).2] =>
      assert (Hk : keeps_faces m) by keeps; rewrite !Hk end.
    simpl. rewrite lookup_insert_eq.
    rewrite lookup_insert_ne by congruence. rewrite lookup_insert_eq.
    split; reflexivity.
Qed.


Lemma same_geometry_refl h : same_geometry h h.
Proof. intros l. reflexivity. Qed.

Lemma same_geometry_lookup h h' l s :
  same_geometry h h' -> h_subs h !! l = Some s ->
  exists s', h_subs h' !! l = Some s' /\ pairing_view s' = pairing_view s.
Proof.
  intros H Hl. specialize (H l). rewrite Hl in H. simpl in H.
  destruct (h_subs h' !! l) as [s'|]; simpl in H; [|discriminate].
  exists s'. split; [reflexivity | congruence].
Qed.

Lemma pairing_view_inv s s' :
  pairing_view s' = pairing_view s ->
  sf_geometry s' = sf_geometry s /\ sf_kind s' = sf_kind s /\
  sf_is_operable s' = sf_is_operable s.
Proof. unfold pairing_view. intros [= H1 H2 H3]. auto. Qed.

Lemma centers_within_same h h' tolerance a b :
  same_geometry h h' ->
  centers_within h' tolerance a b = centers_within h tolerance a b.
Proof.
  intros H. unfold centers_within, sf_center.
  pose proof (H a) as Ha. pose proof (H b) as Hb.
  destruct (h_subs h !! a) as [sa|], (h_subs h' !! a) as [sa'|];
    simpl in Ha; try discriminate; [|reflexivity].
  destruct (h_subs h !! b) as [sb|], (h_subs h' !! b) as [sb'|];
    simpl in Hb; try discriminate; [|reflexivity].
  assert (Va : pairing_view sa' = pairing_view sa) by congruence.
  assert (Vb : pairing_view sb' = pairing_view sb) by congruence.
  apply pairing_view_inv in Va as (-> & _ & _).
  apply pairing_view_inv in Vb as (-> & _ & _). reflexivity.
Qed.

Lemma modify_sub_same_geometry h h1 l g :
  same_geometry h h1 -> is_Some (h_subs h !! l) ->
  (forall s, pairing_view (g s) = pairing_view s) ->
  exists h2, modify_sub l g h1 = (Ok tt, h2) /\ same_geometry h h2.
Proof.
  intros Hsame [s Hl] Hg.
  destruct (same_geometry_lookup _ _ _ _ Hsame Hl) as (s' & Hl' & Hgeo).
  eexists. split; [apply modify_sub_ok; exact Hl'|].
  intros l'. simpl. destruct (decide (l = l')) as [<-|Hne].
  - rewrite lookup_insert_eq, Hl. simpl. rewrite Hg. congruence.
  - rewrite lookup_insert_ne by exact Hne. apply Hsame.
Qed.

(** [set_adjacency] of a sub-face returns when it takes the other one, and
    else raises AssertionError and writes nothing. *)
Lemma sub_set_adjacency_run h h1 a b :
  same_geometry h h1 -> is_Some (h_subs h !! a) -> is_Some (h_subs h !! b) ->
  exists h2,
    sub_set_adjacency a b h1
      = (if takes_adjacency h a b then Ok tt else Raise AssertionError, h2) /\
    same_geometry h h2.
Proof.
  intros Hsame [sa Ha] [sb Hb]. unfold sub_set_adjacency, takes_adjacency.
  destruct (same_geometry_lookup _ _ _ _ Hsame Ha) as (sa' & Ha' & Va).
  destruct (same_geometry_lookup _ _ _ _ Hsame Hb) as (sb' & Hb' & Vb).
  apply pairing_view_inv in Va as (_ & Ka & Fa).
  apply pairing_view_inv in Vb as (_ & Kb & Fb).
  rewrite Ha, Hb.
  unfold get_heap at 1. unfold bind at 1.
  rewrite (bind_of_ok _ _ _ _ _ (get_sub_ok _ _ _ Ha')).
  rewrite (bind_of_ok _ _ _ _ _ (get_sub_ok _ _ _ Hb')).
  rewrite Ka, Kb, Fa, Fb.
  destruct (bool_decide (sf_kind sb = sf_kind sa));
    [|exists h1; split; [reflexivity | exact Hsame]].
  erewrite (bind_of_ok (assert_ true)); [|reflexivity].
  destruct (Bool.eqb (sf_is_operable sb) (sf_is_operable sa));
    [|exists h1; split; [reflexivity | exact Hsame]].
  erewrite (bind_of_ok (assert_ true)); [|reflexivity].
  destruct (modify_sub_same_geometry h h1 a
              (with_sf_boundary_condition
                 (Surface (sf_identifier sb' :: parent_identifiers h1 (sf_parent sb')) true))
              Hsame (ex_intro _ _ Ha) (fun _ => eq_refl)) as (h2 & E2 & Hsame2).
  rewrite (bind_of_ok _ _ _ _ _ E2).
  apply (modify_sub_same_geometry h h2 b); [exact Hsame2 | eauto | reflexivity].
Qed.

(** The inner loop stops at the first counterpart within the tolerance. *)
Lemma pair_with_first_spec h tolerance sub_1 others h1 :
  same_geometry h h1 ->
  is_Some (h_subs h !! sub_1) ->
  Forall (fun l => is_Some (h_subs h !! l)) others ->
  exists h2,
    pair_with_first sub_1 others tolerance h1
      = (match first_counterpart h tolerance others sub_1 with
         | None => Ok None
         | Some sub_2 =>
             if takes_adjacency h sub_1 sub_2 then Ok (Some sub_2)
             else Raise AssertionError
         end, h2) /\
    same_geometry h h2.
Proof.
  intros Hsame H1 Hothers. revert h1 Hsame.
  induction Hothers as [|sub_2 rest H2 Hrest IH]; intros h1 Hsame; simpl.
  - exists h1. split; [reflexivity | exact Hsame].
  - destruct H1 as [s1 Hs1]. destruct H2 as [s2 Hs2].
    destruct (same_geometry_lookup _ _ _ _ Hsame Hs1) as (s1' & Hs1' & G1).
    destruct (same_geometry_lookup _ _ _ _ Hsame Hs2) as (s2' & Hs2' & G2).
    apply pairing_view_inv in G1 as (G1 & _ & _).
    apply pairing_view_inv in G2 as (G2 & _ & _).
    rewrite (bind_of_ok _ _ _ _ _ (get_sub_ok _ _ _ Hs1')).
    rewrite (bind_of_ok _ _ _ _ _ (get_sub_ok _ _ _ Hs2')).
    assert (Hc : centers_within h tolerance sub_1 sub_2 =
                 distance_within (sf_center s1') (sf_center s2') tolerance).
    { unfold centers_within, sf_center. rewrite Hs1, Hs2, G1, G2. reflexivity. }
    unfold first_counterpart. simpl find. rewrite Hc.
    destruct (distance_within (sf_center s1') (sf_center s2') tolerance).
    + destruct (sub_set_adjacency_run h h1 sub_1 sub_2 Hsame)
        as (h2 & E & Hsame2); [eauto | eauto |].
      exists h2. split; [|exact Hsame2].
      destruct (takes_adjacency h sub_1 sub_2).
      * rewrite (bind_of_ok _ _ _ _ _ E). reflexivity.
      * rewrite (bind_of_raise _ _ _ _ _ E). reflexivity.
    + exact (IH h1 Hsame).
Qed.

(** The outer loop: it raises when a sub-face does not take its first
    counterpart, and else counts the sub-faces that have one. *)
Lemma pair_sub_faces_spec h tolerance mine others h1 :
  same_geometry h h1 ->
  Forall (fun l => is_Some (h_subs h !! l)) mine ->
  Forall (fun l => is_Some (h_subs h !! l)) others ->
  exists r h2,
    pair_sub_faces mine others tolerance h1 = (r, h2) /\
    same_geometry h h2 /\
    match r with
    | Ok found =>
        length found <= length mine /\
        (length found = length mine <->
         forallb (paired h tolerance others) mine = true)
    | Raise e =>
        e = AssertionError /\
        forallb (paired h tolerance others) mine = false
    end.
Proof.
  intros Hsame Hmine Hothers. revert h1 Hsame.
  induction Hmine as [|sub_1 rest H1 Hrest IH]; intros h1 Hsame; simpl.
  - exists (Ok []), h1. simpl. split; [reflexivity|]. split; [exact Hsame|].
    split; [lia|]. split; reflexivity.
  - destruct (pair_with_first_spec h tolerance sub_1 others h1 Hsame H1 Hothers)
      as (h2 & E & Hsame2).
    unfold paired at 1 3.
    destruct (first_counterpart h tolerance others sub_1) as [sub_2|].
    + destruct (takes_adjacency h sub_1 sub_2).
      * rewrite (bind_of_ok _ _ _ _ _ E).
        destruct (IH h2 Hsame2) as ([ps|e] & h3 & E3 & Hsame3 & Hr).
        -- rewrite (bind_of_ok _ _ _ _ _ E3).
           eexists (Ok _), h3. split; [reflexivity|]. split; [exact Hsame3|].
           destruct Hr as [Hle Hiff]. simpl. split; [lia|].
           rewrite <- Hiff. lia.
        -- rewrite (bind_of_raise _ _ _ _ _ E3).
           exists (Raise e), h3. split; [reflexivity|]. split; [exact Hsame3|].
           exact Hr.
      * rewrite (bind_of_raise _ _ _ _ _ E).
        exists (Raise AssertionError), h2. split; [reflexivity|].
        split; [exact Hsame2|]. split; reflexivity.
    + rewrite (bind_of_ok _ _ _ _ _ E).
      destruct (IH h2 Hsame2) as ([ps|e] & h3 & E3 & Hsame3 & Hr).
      * rewrite (bind_of_ok _ _ _ _ _ E3).
        eexists (Ok _), h3. split; [reflexivity|]. split; [exact Hsame3|].
        destruct Hr as [Hle Hiff]. simpl. split; [lia|].
        split; [lia | discriminate].
      * rewrite (bind_of_raise _ _ _ _ _ E3).
        exists (Raise e), h3. split; [reflexivity|]. split; [exact Hsame3|].
        split; [exact (proj1 Hr) | reflexivity].
Qed.

(** The block of [set_adjacency] that pairs the apertures, and again the
    doors: it returns when every sub-face of [mine] gets paired, and raises
    AssertionError otherwise. *)
Lemma pairing_block_spec h tolerance mine others h1 :
  same_geometry h h1 ->
  Forall (fun l => is_Some (h_subs h !! l)) mine ->
  Forall (fun l => is_Some (h_subs h !! l)) others ->
  exists r h2,
    (if 0 <? length mine
     then
       found <- pair_sub_faces mine others tolerance ;;
       (if negb (length mine =? length found)
        then raise AssertionError else ret tt) ;;
       ret found
     else ret []) h1 = (r, h2) /\
    same_geometry h h2 /\
    (forallb (paired h tolerance others) mine = true ->
     exists found, r = Ok found) /\
    (forallb (paired h tolerance others) mine = false ->
     r = Raise AssertionError).
Proof.
  intros Hsame Hmine Hothers.
  destruct (0 <? length mine) eqn:Hlen.
  - destruct (pair_sub_faces_spec h tolerance mine others h1 Hsame Hmine Hothers)
      as ([found|e] & h2 & E & Hsame2 & Hr).
    + destruct Hr as [Hle Hiff].
      rewrite (bind_of_ok _ _ _ _ _ E).
      destruct (length mine =? length found) eqn:Heq; simpl.
      * apply Nat.eqb_eq in Heq. eexists _, h2. split; [reflexivity|].
        split; [exact Hsame2|]. split; [eauto|].
        intros Hf. symmetry in Heq. apply Hiff in Heq. congruence.
      * apply Nat.eqb_neq in Heq. eexists _, h2. split; [reflexivity|].
        split; [exact Hsame2|]. split; [|reflexivity].
        intros Hf. apply Hiff in Hf. congruence.
    + destruct Hr as [-> Hf].
      rewrite (bind_of_raise _ _ _ _ _ E).
      eexists _, h2. split; [reflexivity|]. split; [exact Hsame2|].
      split; [congruence | reflexivity].
  - apply Nat.ltb_ge in Hlen. destruct mine; [|simpl in Hlen; lia].
    exists (Ok []), h1. split; [reflexivity|]. split; [exact Hsame|].
    split; [eauto | discriminate].
Qed.


Lemma set_sub_faces_adjacent_spec h tolerance s o h1 :
  same_geometry h h1 ->
  Forall (fun l => is_Some (h_subs h !! l)) (sub_faces s ++ sub_faces o) ->
  let r := set_sub_faces_adjacent s o tolerance h1 in
  (adjacency_found h tolerance s o = true -> exists info, r.1 = Ok info) /\
  (adjacency_found h tolerance s o = false -> r.1 = Raise AssertionError).
Proof.
  intros Hsame Hall. unfold sub_faces in Hall.
  rewrite !Forall_app in Hall. destruct Hall as [[Hsa Hsd] [Hoa Hod]].
  cbv zeta. unfold set_sub_faces_adjacent, adjacency_found.
  destruct (length (f_apertures s) =? length (f_apertures o)); simpl negb;
    cbv iota; [|split; [discriminate | reflexivity]].
  rewrite bind_ret. simpl andb.
  destruct (pairing_block_spec h tolerance _ _ h1 Hsame Hsa Hoa)
    as (r1 & h2 & E1 & Hsame2 & Hok1 & Hbad1).
  destruct (forallb (paired h tolerance (f_apertures o)) (f_apertures s)).
  2:{ rewrite (bind_of_raise _ _ _ _ _ (eq_trans E1 (f_equal (fun r => (r, h2)) (Hbad1 eq_refl)))).
      split; [discriminate | reflexivity]. }
  destruct (Hok1 eq_refl) as [aps ->].
  rewrite (bind_of_ok _ _ _ _ _ E1).
  destruct (length (f_doors s) =? length (f_doors o)); unfold assert_;
    cbv iota; [|split; [discriminate | reflexivity]].
  rewrite bind_ret. simpl andb.
  destruct (pairing_block_spec h tolerance _ _ h2 Hsame2 Hsd Hod)
    as (r2 & h3 & E2 & Hsame3 & Hok2 & Hbad2).
  destruct (forallb (paired h tolerance (f_doors o)) (f_doors s)).
  2:{ rewrite (bind_of_raise _ _ _ _ _ (eq_trans E2 (f_equal (fun r => (r, h3)) (Hbad2 eq_refl)))).
      split; [discriminate | reflexivity]. }
  destruct (Hok2 eq_refl) as [drs ->].
  rewrite (bind_of_ok _ _ _ _ _ E2).
  split; [intros _; eexists; reflexivity | discriminate].
Qed.


(** C2, amended.  For two faces of the store that belong to Rooms, their
    sub-faces in the store, [set_adjacency] returns exactly when the
    numbers of apertures and of doors agree and every aperture and every
    door of the face [self] gets paired: on the other face some sub-face
    has its center within the tolerance, and the first such one is of the
    same class and has the same flag.  In every other case it raises
    AssertionError.  Either way both faces end with the Surface condition
    that references the other.  The sub-faces of the other face are not
    checked for a counterpart. *)
Theorem set_adjacency_returns_iff_found self other tolerance h s o :
  h_faces h !! self = Some s ->
  h_faces h !! other = Some o ->
  is_Some (f_parent s) ->
  is_Some (f_parent o) ->
  Forall (fun l => is_Some (h_subs h !! l)) (sub_faces s ++ sub_faces o) ->
  let r := set_adjacency self other tolerance h in
  (adjacency_found h tolerance s o = true -> exists info, r.1 = Ok info) /\
  (adjacency_found h tolerance s o = false -> r.1 = Raise AssertionError) /\
  f_boundary_condition <$> h_faces r.2 !! self = Some (surface o) /\
  f_boundary_condition <$> h_faces r.2 !! other = Some (surface s).
Proof.
  intros Hs Ho _ _ Hall r.
  assert (Hbc := set_adjacency_boundary_conditions self other tolerance h s o Hs Ho).
  cbv zeta in Hbc. fold r in Hbc.
  cut ((adjacency_found h tolerance s o = true -> exists info, r.1 = Ok info) /\
       (adjacency_found h tolerance s o = false -> r.1 = Raise AssertionError));
    [intros [H1 H2]; split; [exact H1 | split; [exact H2 | exact Hbc]]|].
  clear Hbc. subst r. unfold set_adjacency.
  destruct (decide (self = other)) as [->|Hne].
  - assert (s = o) as -> by congruence.
    do 6 run_step.
    apply (set_sub_faces_adjacent_spec h tolerance
             (with_boundary_condition _ (with_boundary_condition _ o))
             (with_boundary_condition _ (with_boundary_condition _ o)));
      [intros l; reflexivity | exact Hall].
  - do 6 run_step.
    apply (set_sub_faces_adjacent_spec h tolerance
             (with_boundary_condition _ s) (with_boundary_condition _ o));
      [intros l; reflexivity | exact Hall].
Qed.

(** C9.  Whenever [set_adjacency] raises, both faces are left with the
    Surface conditions that reference each other: the conditions are
    assigned before any count is compared. *)
Theorem set_adjacency_raises_after_assignment self other tolerance h s o e :
  h_faces h !! self = Some s ->
  h_faces h !! other = Some o ->
  (set_adjacency self other tolerance h).1 = Raise e ->
  let h' := (set_adjacency self other tolerance h).2 in
  f_boundary_condition <$> h_faces h' !! self = Some (surface o) /\
  f_boundary_condition <$> h_faces h' !! other = Some (surface s).
Proof.
  intros Hs Ho _. apply set_adjacency_boundary_conditions; assumption.
Qed.

End AdjacencyFacts.

Module AdjacencyExamples.
Import Examples.
#[local] Existing Instance Flat.geometry.

(** The sub-faces named by the faces of a store are in the store. *)
Ltac all_in_store :=
  repeat (constructor; [eexists; reflexivity|]); constructor.

(** C2: two faces of two Rooms with one aperture each at the same place
    are set adjacent. *)
Lemma set_adjacency_returns_iff_found_witness :
  let r := set_adjacency 0 1 (1 # 100) store_adjacent in
  (exists info, r.1 = Ok info) /\
  f_boundary_condition <$> h_faces r.2 !! 0 = Some (Surface ["B"; "R2"] false) /\
  f_boundary_condition <$> h_faces r.2 !! 1 = Some (Surface ["A"; "R1"] false).
Proof.
  intros r.
  destruct (set_adjacency_returns_iff_found 0 1 (1 # 100) store_adjacent
              (face_in_room "R1" "A" (square 0 0 4) [2] [] Outdoors)
              (face_in_room "R2" "B" (square 0 0 4) [3] [] Outdoors))
    as (Hok & _ & Hself & Hother).
  - reflexivity.
  - reflexivity.
  - eexists; reflexivity.
  - eexists; reflexivity.
  - all_in_store.
  - split; [apply Hok; reflexivity|]. split; [exact Hself | exact Hother].
Defined.

(** C2, as stated, fails twice.  On [store_greedy] the call returns,
    pairing both apertures of face 0 with the aperture 4 of face 1, while
    the aperture 5 of face 1 has no counterpart on face 0 and keeps its
    Outdoors condition.  On [store_operable] the numbers agree and every
    sub-face of either face has a counterpart within the tolerance, yet the
    call raises: one aperture is operable and the other is not. *)
Lemma set_adjacency_partial_or_refused :
  let r := set_adjacency 0 1 (1 # 100) store_greedy in
  r.1 = Ok (mkAdjacencyInfo [(2, 4); (3, 4)] []) /\
  has_counterpart store_greedy (1 # 100) [2; 3] 5 = false /\
  all_matched store_greedy (1 # 100)
    (face_in_room "R1" "A" (square 0 0 4) [2; 3] [] Outdoors)
    (face_in_room "R2" "B" (square 0 0 200) [4; 5] [] Outdoors) = false /\
  sf_boundary_condition <$> h_subs r.2 !! 4
    = Some (Surface ["A2"; "A"; "R1"] true) /\
  sf_boundary_condition <$> h_subs r.2 !! 5 = Some Outdoors /\
  all_matched store_operable (1 # 100)
    (face_in_room "R1" "A" (square 0 0 4) [2] [] Outdoors)
    (face_in_room "R2" "B" (square 0 0 4) [3] [] Outdoors) = true /\
  (set_adjacency 0 1 (1 # 100) store_operable).1 = Raise AssertionError.
Proof. cbv zeta. repeat split; reflexivity. Qed.

(** C9: the faces of [store_mismatch] have one aperture and none; the call
    raises, and both faces are Surface faces afterwards. *)
Lemma set_adjacency_raises_after_assignment_witness :
  (set_adjacency 0 1 (1 # 100) store_mismatch).1 = Raise AssertionError /\
  f_boundary_condition <$>
    h_faces (set_adjacency 0 1 (1 # 100) store_mismatch).2 !! 0 =
    Some (Surface ["B"] false) /\
  f_boundary_condition <$>
    h_faces (set_adjacency 0 1 (1 # 100) store_mismatch).2 !! 1 =
    Some (Surface ["A"] false).
Proof.
  split; [reflexivity|].
  apply (set_adjacency_raises_after_assignment 0 1 (1 # 100) store_mismatch
           (face_with "A" (square 0 0 4) [2] [] Outdoors)
           (face_with "B" (square 0 0 4) [] [] Outdoors) AssertionError);
    reflexivity.
Defined.

End AdjacencyExamples.

(** ** The invariant of sub-faces *)

Section InvariantFacts.
Context `{Geo : Geometry}.

Lemma sub_faces_invariant_faces_only : faces_only sub_faces_invariant.
Proof. intros h h' E H l f Hl. apply (H l). rewrite E. exact Hl. Qed.

(** A write of the face [self] keeps the invariant when it keeps the face
    admissible, given what is known of the face. *)
Lemma hoare_modify_face self g (P : Face -> Prop) :
  (forall f, P f -> face_admissible f -> face_admissible (g f)) ->
  hoare (fun h => sub_faces_invariant h /\
                  forall f, h_faces h !! self = Some f -> P f)
        (modify_face self g)
        (fun _ h => sub_faces_invariant h).
Proof.
  intros Hg h [HI HP]. unfold modify_face, bind, get_face.
  destruct (h_faces h !! self) as [f|] eqn:Hf; simpl; [|exact HI].
  intros l f' Hl. simpl in Hl. destruct (decide (self = l)) as [<-|Hne].
  - rewrite lookup_insert_eq in Hl. injection Hl as <-.
    apply Hg; [apply HP; reflexivity | apply (HI self); exact Hf].
  - rewrite lookup_insert_ne in Hl by exact Hne. apply (HI l). exact Hl.
Qed.

Lemma inv_modify_face self g :
  (forall f, face_admissible f -> face_admissible (g f)) ->
  preserves sub_faces_invariant (modify_face self g).
Proof.
  intros Hg h HI.
  apply (hoare_modify_face self g (fun _ => True)); [auto|].
  split; [exact HI | auto].
Qed.

Lemma inv_put_sub l s : preserves sub_faces_invariant (put_sub l s).
Proof. apply preserves_put_sub, sub_faces_invariant_faces_only. Qed.

Lemma inv_new_sub s : preserves sub_faces_invariant (new_sub s).
Proof. apply preserves_new_sub, sub_faces_invariant_faces_only. Qed.

Lemma inv_modify_sub l g : preserves sub_faces_invariant (modify_sub l g).
Proof. apply preserves_modify_sub, sub_faces_invariant_faces_only. Qed.

Lemma inv_keeps_faces {A} (m : M A) :
  keeps_faces m -> preserves sub_faces_invariant m.
Proof.
  intros H. apply keeps_faces_preserves;
    [exact H | apply sub_faces_invariant_faces_only].
Qed.

(** Writes that keep a face admissible. *)
Lemma admissible_with_type v f :
  face_admissible f -> face_admissible (with_type v f).
Proof. intros H. exact H. Qed.

Lemma admissible_with_identifier v f :
  face_admissible f -> face_admissible (with_identifier v f).
Proof. intros H. exact H. Qed.

Lemma admissible_with_display_name v f :
  face_admissible f -> face_admissible (with_display_name v f).
Proof. intros H. exact H. Qed.

Lemma admissible_with_geometry v f :
  face_admissible f -> face_admissible (with_geometry v f).
Proof. intros H. exact H. Qed.

Lemma admissible_with_punched_geometry v f :
  face_admissible f -> face_admissible (with_punched_geometry v f).
Proof. intros H. exact H. Qed.

Lemma admissible_without_apertures f :
  face_admissible f -> face_admissible (with_apertures [] f).
Proof.
  unfold face_admissible, has_sub_faces. simpl. intros H Hd. apply H.
  destruct (f_doors f); [discriminate|].
  destruct (f_apertures f); reflexivity.
Qed.

Lemma admissible_without_doors f :
  face_admissible f -> face_admissible (with_doors [] f).
Proof.
  unfold face_admissible, has_sub_faces. simpl. intros H Hd. apply H.
  destruct (f_apertures f); [discriminate|]. reflexivity.
Qed.

Lemma admissible_fewer_apertures aps f :
  (is_nil (f_apertures f) = true -> is_nil aps = true) ->
  face_admissible f -> face_admissible (with_apertures aps f).
Proof.
  unfold face_admissible, has_sub_faces. simpl. intros Hn H Hd. apply H.
  destruct (f_apertures f); [|reflexivity].
  rewrite (Hn eq_refl) in Hd. exact Hd.
Qed.

Lemma admissible_fewer_doors drs f :
  (is_nil (f_doors f) = true -> is_nil drs = true) ->
  face_admissible f -> face_admissible (with_doors drs f).
Proof.
  unfold face_admissible, has_sub_faces. simpl. intros Hn H Hd. apply H.
  destruct (f_doors f); [|rewrite andb_false_r; reflexivity].
  rewrite (Hn eq_refl) in Hd. exact Hd.
Qed.

Lemma admissible_outdoors f : face_admissible (with_boundary_condition Outdoors f).
Proof. intros _. reflexivity. Qed.

Lemma admissible_surface objs sub f :
  face_admissible (with_boundary_condition (Surface objs sub) f).
Proof. intros _. reflexivity. Qed.

Lemma admissible_surface_of o f :
  face_admissible (with_boundary_condition (surface o) f).
Proof. intros _. reflexivity. Qed.

Lemma admissible_allowed value f :
  is_Outdoors_or_Surface value = true ->
  face_admissible (with_boundary_condition value f).
Proof. intros H _. exact H. Qed.

Lemma admissible_prefixed clean_string prefix sub f :
  face_admissible f ->
  face_admissible
    (with_boundary_condition
       (prefix_boundary_condition clean_string prefix (f_boundary_condition f) sub) f).
Proof.
  unfold face_admissible, has_sub_faces. simpl. intros H Hd.
  specialize (H Hd). destruct (f_boundary_condition f); first [reflexivity | discriminate H].
Qed.

End InvariantFacts.

Create HintDb invariant.
#[global] Hint Resolve preserves_ret preserves_raise preserves_assert
  preserves_get_heap preserves_get_face preserves_get_sub
  inv_put_sub inv_new_sub inv_modify_sub : invariant.
#[global] Hint Resolve admissible_with_type admissible_with_identifier
  admissible_with_display_name admissible_with_geometry
  admissible_with_punched_geometry admissible_without_apertures
  admissible_without_doors admissible_outdoors admissible_surface
  admissible_surface_of admissible_prefixed : invariant.
#[global] Hint Extern 2 (preserves sub_faces_invariant (modify_face _ _)) =>
  apply inv_modify_face; intros ? ? : invariant.

(** Goals [preserves sub_faces_invariant m], by the shape of [m]. *)
Ltac invariant :=
  repeat first
    [ solve [eauto with invariant]
    | progress cbv beta zeta
    | apply preserves_bind; [|intros ?]
    | apply preserves_for_each; intros ?
    | apply preserves_map_M; intros ?
    | apply preserves_try_except
    | match goal with
      | |- preserves _ (if ?b then _ else _) => destruct b
      | |- preserves _ (match ?x with _ => _ end) => destruct x
      | |- preserves _ (lift ?r) => destruct r; simpl
      end ].

Section InvariantOfMethods.
Context `{Geo : Geometry}.

Lemma inv_set_type self value : preserves sub_faces_invariant (set_type self value).
Proof. unfold set_type. invariant. Qed.

Lemma inv_set_boundary_condition self value :
  preserves sub_faces_invariant (set_boundary_condition self value).
Proof.
  intros h HI. unfold set_boundary_condition, bind, get_face.
  destruct (h_faces h !! self) as [f|] eqn:Hf; simpl; [|exact HI].
  destruct (negb (is_nil (f_apertures f)) || negb (is_nil (f_doors f))) eqn:Hsub.
  - unfold assert_. destruct (is_Outdoors_or_Surface value) eqn:Hv; simpl; [|exact HI].
    apply (inv_modify_face self); [|exact HI].
    intros f' _. apply admissible_allowed, Hv.
  - simpl.
    apply (hoare_modify_face self _ (fun f' => f' = f)).
    + intros f' -> _. unfold face_admissible, has_sub_faces. simpl.
      destruct (f_apertures f), (f_doors f); simpl in *; discriminate.
    + split; [exact HI | congruence].
Qed.

Lemma inv_punched_geometry self :
  preserves sub_faces_invariant (punched_geometry self).
Proof. unfold punched_geometry. invariant. Qed.

Lemma inv_remove_apertures self :
  preserves sub_faces_invariant (remove_apertures self).
Proof. unfold remove_apertures. invariant. Qed.

Lemma inv_remove_doors self :
  preserves sub_faces_invariant (remove_doors self).
Proof. unfold remove_doors. invariant. Qed.

Lemma inv_remove_sub_faces self :
  preserves sub_faces_invariant (remove_sub_faces self).
Proof.
  unfold remove_sub_faces.
  apply preserves_bind; [apply inv_remove_apertures | intros _; apply inv_remove_doors].
Qed.


Lemma hoare_keeps_then {A B} (J I : Heap -> Prop) (m : M A) (k : A -> M B) :
  keeps_faces m -> faces_only J -> (forall h, J h -> I h) ->
  (forall a, hoare J (k a) (fun _ h => I h)) ->
  hoare J (bind m k) (fun _ h => I h).
Proof.
  intros Hm HJ HJI Hk h Hh. unfold bind.
  pose proof (Hm h) as E. destruct (m h) as [[a|e] h']; simpl in *.
  - apply Hk. eapply HJ; [|exact Hh]. symmetry. exact E.
  - apply HJI. eapply HJ; [|exact Hh]. symmetry. exact E.
Qed.

Lemma hoare_then_preserves {A B} (P I : Heap -> Prop) (m : M A) (k : A -> M B) :
  hoare P m (fun _ h => I h) -> (forall a, preserves I (k a)) ->
  hoare P (bind m k) (fun _ h => I h).
Proof.
  intros Hm Hk h Hh. specialize (Hm h Hh). unfold bind.
  destruct (m h) as [[a|e] h']; simpl in *; [apply Hk, Hm | exact Hm].
Qed.

Lemma knowing_faces_only self P : faces_only (knowing self P).
Proof.
  intros h h' E [HI HP]. split.
  - eapply sub_faces_invariant_faces_only; [exact E | exact HI].
  - intros f Hf. apply HP. rewrite E. exact Hf.
Qed.

Lemma hoare_acceptable_sub_face_check self :
  hoare sub_faces_invariant (_acceptable_sub_face_check self)
    (fun r h =>
       match r with
       | Ok _ => knowing self (fun f => is_Outdoors (f_boundary_condition f) = true) h
       | Raise _ => sub_faces_invariant h
       end).
Proof.
  intros h HI. unfold _acceptable_sub_face_check, bind, get_face, assert_.
  destruct (h_faces h !! self) as [f|] eqn:Hf; simpl; [|exact HI].
  destruct (is_Outdoors (f_boundary_condition f)) eqn:Hout; simpl; [|exact HI].
  destruct (negb (bool_decide (f_type f = AirBoundary))); simpl; [|exact HI].
  split; [exact HI | congruence].
Qed.

Lemma inv_attach_sub_face self sub append :
  (forall f, is_Outdoors (f_boundary_condition f) = true ->
             face_admissible (append sub f)) ->
  preserves sub_faces_invariant (attach_sub_face self sub append).
Proof.
  intros Happ.
  set (J := knowing self (fun f' => is_Outdoors (f_boundary_condition f') = true)).
  assert (HJI : forall h0, J h0 -> sub_faces_invariant h0) by (intros ? [? _]; assumption).
  change (hoare sub_faces_invariant (attach_sub_face self sub append)
            (fun _ h => sub_faces_invariant h)).
  unfold attach_sub_face.
  apply hoare_bind with (R := fun _ => J);
    [exact (hoare_acceptable_sub_face_check self) | intros _].
  apply hoare_keeps_then; [keeps | apply knowing_faces_only | exact HJI | intros _].
  apply hoare_keeps_then; [keeps | apply knowing_faces_only | exact HJI | intros f0].
  apply hoare_keeps_then; [keeps | apply knowing_faces_only | exact HJI | intros s].
  apply hoare_keeps_then; [keeps | apply knowing_faces_only | exact HJI | intros _].
  apply hoare_then_preserves.
  - apply hoare_modify_face. intros f' Hf' _. apply Happ, Hf'.
  - intros _. apply inv_modify_face. intros f'. apply admissible_with_punched_geometry.
Qed.

Lemma admissible_outdoors_apertures aps f :
  is_Outdoors (f_boundary_condition f) = true ->
  face_admissible (with_apertures aps f).
Proof.
  intros H _. unfold is_Outdoors_or_Surface. simpl. rewrite H. reflexivity.
Qed.

Lemma admissible_outdoors_doors drs f :
  is_Outdoors (f_boundary_condition f) = true ->
  face_admissible (with_doors drs f).
Proof.
  intros H _. unfold is_Outdoors_or_Surface. simpl. rewrite H. reflexivity.
Qed.

Lemma inv_add_aperture self aperture :
  preserves sub_faces_invariant (add_aperture self aperture).
Proof.
  unfold add_aperture.
  apply preserves_bind; [invariant | intros s].
  apply preserves_bind; [invariant | intros _].
  apply inv_attach_sub_face. intros f Hf. apply admissible_outdoors_apertures, Hf.
Qed.

Lemma inv_add_door self door :
  preserves sub_faces_invariant (add_door self door).
Proof.
  unfold add_door.
  apply preserves_bind; [invariant | intros s].
  apply preserves_bind; [invariant | intros _].
  apply inv_attach_sub_face. intros f Hf. apply admissible_outdoors_doors, Hf.
Qed.

End InvariantOfMethods.

#[global] Hint Resolve inv_set_type inv_set_boundary_condition
  inv_punched_geometry inv_remove_apertures inv_remove_doors
  inv_remove_sub_faces inv_add_aperture inv_add_door : invariant.

Section InvariantOfEditing.
Context `{Geo : Geometry}.

Lemma inv_add_sub_face self sub_face :
  preserves sub_faces_invariant (add_sub_face self sub_face).
Proof. unfold add_sub_face. invariant. Qed.

Lemma inv_add_apertures self apertures :
  preserves sub_faces_invariant (add_apertures self apertures).
Proof. unfold add_apertures. invariant. Qed.

Lemma inv_add_doors self doors :
  preserves sub_faces_invariant (add_doors self doors).
Proof. unfold add_doors. invariant. Qed.

Lemma inv_add_sub_faces self subs :
  preserves sub_faces_invariant (add_sub_faces self subs).
Proof.
  unfold add_sub_faces. apply preserves_for_each. intros x. apply inv_add_sub_face.
Qed.

Lemma inv_replace_apertures self apertures :
  preserves sub_faces_invariant (replace_apertures self apertures).
Proof.
  unfold replace_apertures.
  apply preserves_bind; [invariant | intros _; apply inv_add_apertures].
Qed.

Lemma inv_acceptable_sub_face_check self :
  preserves sub_faces_invariant (_acceptable_sub_face_check self).
Proof. unfold _acceptable_sub_face_check. invariant. Qed.

Lemma inv_sub_transform t l : preserves sub_faces_invariant (sub_transform t l).
Proof. unfold sub_transform. invariant. Qed.

Lemma inv_transform self t : preserves sub_faces_invariant (transform self t).
Proof. pose proof inv_sub_transform. unfold transform. invariant. Qed.

Lemma inv_remove_colinear_vertices self tolerance :
  preserves sub_faces_invariant (remove_colinear_vertices self tolerance).
Proof. unfold remove_colinear_vertices. invariant. Qed.

Lemma inv_set_adjacency self other tolerance :
  preserves sub_faces_invariant (set_adjacency self other tolerance).
Proof.
  pose proof (fun s o => inv_keeps_faces _ (keeps_faces_set_sub_faces_adjacent s o tolerance)).
  unfold set_adjacency. invariant.
Qed.

End InvariantOfEditing.

#[global] Hint Resolve inv_add_sub_face inv_add_apertures inv_add_doors
  inv_add_sub_faces inv_replace_apertures inv_acceptable_sub_face_check
  inv_sub_transform inv_transform inv_remove_colinear_vertices
  inv_set_adjacency : invariant.

(** ** The invariant through the editing methods *)

Section InvariantOfRepair.
Context `{Geo : Geometry}.

Lemma keeps_faces_sub_remove_colinear_vertices l tolerance :
  keeps_faces (sub_remove_colinear_vertices l tolerance).
Proof. unfold sub_remove_colinear_vertices. keeps. Qed.

Lemma keeps_faces_drop_degenerate l tolerance :
  keeps_faces (drop_degenerate l tolerance).
Proof.
  pose proof keeps_faces_sub_remove_colinear_vertices.
  induction l as [|x l IH]; simpl; keeps.
Qed.

(** Of no sub-face at all, none is left standing. *)
Lemma drop_degenerate_nil l tolerance h r h' :
  drop_degenerate l tolerance h = (Ok r, h') ->
  is_nil l = true -> is_nil r = true.
Proof. destruct l; [|discriminate]. intros [= <- _] _. reflexivity. Qed.

(** A list of sub-faces of the face [self] is read, filtered by a
    computation that writes sub-faces only, and written back. *)
Lemma inv_filter_sub_faces {B} self (proj : Face -> list loc)
    (upd : list loc -> Face -> Face) (filter : list loc -> M (list loc))
    (k : M B) :
  (forall l, keeps_faces (filter l)) ->
  (forall l h r h', filter l h = (Ok r, h') -> is_nil l = true -> is_nil r = true) ->
  (forall f r, (is_nil (proj f) = true -> is_nil r = true) ->
               face_admissible f -> face_admissible (upd r f)) ->
  preserves sub_faces_invariant k ->
  preserves sub_faces_invariant
    (f <- get_face self ;; r <- filter (proj f) ;; modify_face self (upd r) ;; k).
Proof.
  intros Hk Hn Hadm Hrest h HI. unfold bind at 1, get_face.
  destruct (h_faces h !! self) as [f|] eqn:Hf; [|exact HI].
  unfold bind at 1. pose proof (Hk (proj f) h) as E.
  destruct (filter (proj f) h) as [[r|e] h1] eqn:E1; simpl in E.
  - apply (hoare_then_preserves (knowing self (fun f' => f' = f))
             sub_faces_invariant (modify_face self (upd r)) (fun _ => k)).
    + apply hoare_modify_face. intros f' -> Ha.
      apply Hadm; [|exact Ha]. apply (Hn _ _ _ _ E1).
    + intros _. exact Hrest.
    + split.
      * eapply sub_faces_invariant_faces_only; [|exact HI]. symmetry. exact E.
      * intros f0 Hf0. rewrite E in Hf0. congruence.
  - simpl. eapply sub_faces_invariant_faces_only; [|exact HI]. symmetry. exact E.
Qed.

Lemma inv_remove_degenerate_sub_faces self tolerance :
  preserves sub_faces_invariant (remove_degenerate_sub_faces self tolerance).
Proof.
  unfold remove_degenerate_sub_faces.
  apply (inv_filter_sub_faces self f_apertures with_apertures
           (fun l => drop_degenerate l tolerance)).
  - intros l. apply keeps_faces_drop_degenerate.
  - intros l h r h'. apply drop_degenerate_nil.
  - intros f r. apply admissible_fewer_apertures.
  - intros h HI.
    assert (H : preserves sub_faces_invariant
                  (f <- get_face self ;;
                   drs <- drop_degenerate (f_doors f) tolerance ;;
                   modify_face self (with_doors drs) ;; ret tt)).
    { apply (inv_filter_sub_faces self f_doors with_doors
               (fun l => drop_degenerate l tolerance)).
      - intros l. apply keeps_faces_drop_degenerate.
      - intros l h0 r h'. apply drop_degenerate_nil.
      - intros f r. apply admissible_fewer_doors.
      - apply preserves_ret. }
    specialize (H h HI). revert H. unfold bind, get_face.
    destruct (h_faces h !! self) as [f|]; [|auto].
    destruct (drop_degenerate (f_doors f) tolerance h) as [[drs|e] h1]; [|auto].
    destruct (modify_face self (with_doors drs) h1) as [[[]|e] h2]; auto.
Qed.

Lemma inv_sub_duplicate l : preserves sub_faces_invariant (sub_duplicate l).
Proof. unfold sub_duplicate. invariant. Qed.

Lemma inv_snapshot subs : preserves sub_faces_invariant (snapshot subs).
Proof. unfold snapshot. invariant. Qed.

Lemma inv_new_subs l : preserves sub_faces_invariant (new_subs l).
Proof. unfold new_subs. invariant. Qed.

Lemma inv_build_objects l : preserves sub_faces_invariant (build_objects l).
Proof. induction l as [|[obj|s] l IH]; simpl; invariant. Qed.

Lemma inv_lift {A} (r : result A) : preserves sub_faces_invariant (lift r).
Proof. destruct r; simpl; invariant. Qed.

End InvariantOfRepair.

#[global] Hint Resolve inv_remove_degenerate_sub_faces inv_sub_duplicate
  inv_snapshot inv_new_subs inv_build_objects inv_lift : invariant.

Section InvariantOfBuilders.
Context `{Geo : Geometry}.

Lemma inv_add_generated_apertures self ap_faces :
  preserves sub_faces_invariant (add_generated_apertures self ap_faces).
Proof. unfold add_generated_apertures. invariant. Qed.

Lemma inv_rebuild_sub_faces self prim_pl clean_polys originals :
  preserves sub_faces_invariant (rebuild_sub_faces self prim_pl clean_polys originals).
Proof. unfold rebuild_sub_faces. invariant. Qed.

End InvariantOfBuilders.

#[global] Hint Resolve inv_add_generated_apertures inv_rebuild_sub_faces : invariant.

Section InvariantOfOperations.
Context `{Geo : Geometry}.

Lemma inv_apertures_by_ratio self ratio tolerance rect_split :
  preserves sub_faces_invariant (apertures_by_ratio self ratio tolerance rect_split).
Proof. unfold apertures_by_ratio. invariant. Qed.

Lemma inv_apertures_by_ratio_rectangle self ratio ah sh hs vs tolerance :
  preserves sub_faces_invariant
    (apertures_by_ratio_rectangle self ratio ah sh hs vs tolerance).
Proof. unfold apertures_by_ratio_rectangle. invariant. Qed.

Lemma inv_apertures_by_ratio_gridded self ratio x_dim y_dim tolerance :
  preserves sub_faces_invariant
    (apertures_by_ratio_gridded self ratio x_dim y_dim tolerance).
Proof. unfold apertures_by_ratio_gridded. invariant. Qed.

Lemma inv_apertures_by_width_height_rectangle self ah aw sh hs tolerance :
  preserves sub_faces_invariant
    (apertures_by_width_height_rectangle self ah aw sh hs tolerance).
Proof. unfold apertures_by_width_height_rectangle. invariant. Qed.

Lemma inv_aperture_by_width_height self width height sill_height aperture_identifier :
  preserves sub_faces_invariant
    (aperture_by_width_height self width height sill_height aperture_identifier).
Proof. unfold aperture_by_width_height. invariant. Qed.

Lemma inv_offset_aperture_edges self offset_distance tolerance :
  preserves sub_faces_invariant (offset_aperture_edges self offset_distance tolerance).
Proof. unfold offset_aperture_edges. invariant. Qed.

Lemma inv_merge_neighboring_sub_faces self merge_distance tolerance :
  preserves sub_faces_invariant
    (merge_neighboring_sub_faces self merge_distance tolerance).
Proof. unfold merge_neighboring_sub_faces. invariant. Qed.

Lemma inv_project_and_add_sub_face self sub_face angle_tolerance :
  preserves sub_faces_invariant
    (project_and_add_sub_face self sub_face angle_tolerance).
Proof. unfold project_and_add_sub_face. invariant. Qed.

Lemma inv_fix_invalid_sub_faces self trim_with_parent union_overlaps
    offset_distance tolerance :
  preserves sub_faces_invariant
    (fix_invalid_sub_faces self trim_with_parent union_overlaps
       offset_distance tolerance).
Proof. unfold fix_invalid_sub_faces. invariant. Qed.

Lemma inv_rectangularize_apertures self sd ms merge_all tolerance angle_tolerance :
  preserves sub_faces_invariant
    (rectangularize_apertures self sd ms merge_all tolerance angle_tolerance).
Proof. unfold rectangularize_apertures. invariant. Qed.

Lemma inv_add_prefix clean_string self prefix :
  preserves sub_faces_invariant (add_prefix clean_string self prefix).
Proof. unfold add_prefix, sub_add_prefix. invariant. Qed.

End InvariantOfOperations.

(** ** The invariant of sub-faces holds through every operation *)

Section InvariantTheorem.
Context `{Geo : Geometry}.

Lemma has_sub_faces_not_nil f :
  has_sub_faces f = true ->
  negb (is_nil (f_apertures f)) || negb (is_nil (f_doors f)) = true.
Proof.
  unfold has_sub_faces. destruct (f_apertures f), (f_doors f); simpl; congruence.
Qed.

Lemma not_allowed_not_outdoors bc :
  is_Outdoors_or_Surface bc = false -> is_Outdoors bc = false.
Proof. unfold is_Outdoors_or_Surface. destruct bc; simpl; congruence. Qed.

(** The setter refuses a boundary condition that is neither Outdoors nor
    Surface on a face with sub-faces, and writes nothing. *)
Lemma set_boundary_condition_refused self value h f :
  h_faces h !! self = Some f ->
  has_sub_faces f = true ->
  is_Outdoors_or_Surface value = false ->
  set_boundary_condition self value h = (Raise AssertionError, h).
Proof.
  intros Hf Hsub Hv. unfold set_boundary_condition.
  erewrite bind_of_ok; [|apply get_face_ok; exact Hf].
  rewrite (has_sub_faces_not_nil f Hsub), Hv. reflexivity.
Qed.

(** The check that opens [add_aperture] and [add_door] fails on a face whose
    boundary condition is not Outdoors. *)
Lemma acceptable_sub_face_check_refused self h f :
  h_faces h !! self = Some f ->
  is_Outdoors (f_boundary_condition f) = false ->
  _acceptable_sub_face_check self h = (Raise AssertionError, h).
Proof.
  intros Hf Hbc. unfold _acceptable_sub_face_check.
  erewrite bind_of_ok; [|apply get_face_ok; exact Hf].
  rewrite Hbc. reflexivity.
Qed.

Lemma attach_sub_face_refused self sub append h f :
  h_faces h !! self = Some f ->
  is_Outdoors (f_boundary_condition f) = false ->
  attach_sub_face self sub append h = (Raise AssertionError, h).
Proof.
  intros Hf Hbc. unfold attach_sub_face.
  erewrite bind_of_raise; [reflexivity|].
  apply (acceptable_sub_face_check_refused self h f Hf Hbc).
Qed.

Lemma add_aperture_refused self aperture h f s :
  h_faces h !! self = Some f ->
  h_subs h !! aperture = Some s ->
  is_Outdoors (f_boundary_condition f) = false ->
  add_aperture self aperture h = (Raise AssertionError, h).
Proof.
  intros Hf Hs Hbc. unfold add_aperture.
  erewrite bind_of_ok; [|apply get_sub_ok; exact Hs].
  destruct (bool_decide (sf_kind s = IsAperture)); [|reflexivity].
  apply (attach_sub_face_refused self aperture _ h f Hf Hbc).
Qed.

Lemma add_door_refused self door h f s :
  h_faces h !! self = Some f ->
  h_subs h !! door = Some s ->
  is_Outdoors (f_boundary_condition f) = false ->
  add_door self door h = (Raise AssertionError, h).
Proof.
  intros Hf Hs Hbc. unfold add_door.
  erewrite bind_of_ok; [|apply get_sub_ok; exact Hs].
  destruct (bool_decide (sf_kind s = IsDoor)); [|reflexivity].
  apply (attach_sub_face_refused self door _ h f Hf Hbc).
Qed.

Lemma inv_call clean_string self op :
  preserves sub_faces_invariant (call clean_string self op).
Proof.
  destruct op; simpl;
    first
      [ apply inv_add_prefix
      | apply inv_apertures_by_ratio
      | apply inv_apertures_by_ratio_rectangle
      | apply inv_apertures_by_ratio_gridded
      | apply inv_apertures_by_width_height_rectangle
      | apply inv_offset_aperture_edges
      | apply inv_merge_neighboring_sub_faces
      | apply inv_project_and_add_sub_face
      | apply inv_fix_invalid_sub_faces
      | apply preserves_bind;
          [ first [ apply inv_rectangularize_apertures
                  | apply inv_aperture_by_width_height
                  | apply inv_set_adjacency
                  | apply inv_punched_geometry ]
          | intros _; apply preserves_ret ]
      | unfold move, rotate, rotate_xy, reflect, scale; apply inv_transform
      | solve [eauto with invariant] ].
Qed.

(** C4.  In a store where every face with an Aperture or a Door has an
    Outdoors or a Surface boundary condition, the same holds after any
    operation of [Face], whether it returns or raises.  Moreover the setter
    of the boundary condition raises, writing nothing, when the face has
    sub-faces and the value is neither Outdoors nor Surface; and
    [add_aperture] and [add_door] raise, writing nothing, on a face whose
    boundary condition is neither Outdoors nor Surface (Ground, Adiabatic
    and the like). *)
Theorem sub_faces_invariant_kept clean_string self op h :
  sub_faces_invariant h ->
  sub_faces_invariant (call clean_string self op h).2 /\
  (forall f value,
     h_faces h !! self = Some f ->
     has_sub_faces f = true ->
     is_Outdoors_or_Surface value = false ->
     set_boundary_condition self value h = (Raise AssertionError, h)) /\
  (forall f sub s,
     h_faces h !! self = Some f ->
     h_subs h !! sub = Some s ->
     is_Outdoors_or_Surface (f_boundary_condition f) = false ->
     add_aperture self sub h = (Raise AssertionError, h) /\
     add_door self sub h = (Raise AssertionError, h)).
Proof.
  intros HI. split; [apply inv_call, HI|]. split.
  - intros f value. apply set_boundary_condition_refused.
  - intros f sub s Hf Hs Hbc. apply not_allowed_not_outdoors in Hbc. split.
    + apply (add_aperture_refused self sub h f s Hf Hs Hbc).
    + apply (add_door_refused self sub h f s Hf Hs Hbc).
Qed.

End InvariantTheorem.

Module InvariantExamples.
Import Examples.
#[local] Existing Instance Flat.geometry.

Lemma store_door_invariant : sub_faces_invariant store_door.
Proof.
  intros l f Hl. unfold store_door in Hl. cbn [h_faces] in Hl.
  apply lookup_singleton_Some in Hl as [_ <-]. intros _. reflexivity.
Qed.

(** C4 on the face of [store_door], which has an aperture and a door: the
    assignment of a Ground boundary condition. *)
Lemma sub_faces_invariant_kept_witness :
  sub_faces_invariant
    (call (fun s => s) 0 (SetBoundaryCondition Ground) store_door).2 /\
  (forall f value,
     h_faces store_door !! 0 = Some f ->
     has_sub_faces f = true ->
     is_Outdoors_or_Surface value = false ->
     set_boundary_condition 0 value store_door = (Raise AssertionError, store_door)) /\
  (forall f sub s,
     h_faces store_door !! 0 = Some f ->
     h_subs store_door !! sub = Some s ->
     is_Outdoors_or_Surface (f_boundary_condition f) = false ->
     add_aperture 0 sub store_door = (Raise AssertionError, store_door) /\
     add_door 0 sub store_door = (Raise AssertionError, store_door)).
Proof.
  exact (sub_faces_invariant_kept (fun s => s) 0 (SetBoundaryCondition Ground)
           store_door store_door_invariant).
Defined.

End InvariantExamples.

(** ** Removal of sub-faces *)

Module RemovalExamples.
Import Examples.
#[local] Existing Instance Flat.geometry.

(** C10.  [remove_sub_faces] on a face with one aperture and one door: the
    face ends with no aperture, no door and no cached punched geometry, the
    aperture has lost its parent, and the door still points to the face: the
    loop of [remove_doors] runs over the apertures, which [remove_apertures]
    has just emptied. *)
Lemma remove_sub_faces_door_keeps_parent :
  let h' := (remove_sub_faces 0 store_door).2 in
  (remove_sub_faces 0 store_door).1 = Ok tt /\
  f_apertures <$> h_faces h' !! 0 = Some [] /\
  f_doors <$> h_faces h' !! 0 = Some [] /\
  f_punched_geometry <$> h_faces h' !! 0 = Some None /\
  sf_parent <$> h_subs h' !! 1 = Some None /\
  sf_parent <$> h_subs h' !! 2 = Some (Some 0).
Proof. cbv zeta. repeat split; reflexivity. Qed.

(** C7.  The punched geometry of the face of [store_sliver] is read, the
    degenerate aperture is removed by [remove_degenerate_sub_faces], and the
    punched geometry is read again: the second read returns the geometry
    that was cached with the hole of the aperture, although the face has no
    sub-face left and its punched geometry, computed anew, is the geometry
    of the face. *)
Lemma remove_degenerate_sub_faces_keeps_cache :
  let run :=
    (punched_geometry 0 ;;
     remove_degenerate_sub_faces 0 (1 # 100) ;;
     punched_geometry 0) store_sliver in
  run.1 = Ok (square 0 0 4 ++ square 1 1 0) /\
  f_apertures <$> h_faces run.2 !! 0 = Some [] /\
  f_doors <$> h_faces run.2 !! 0 = Some [] /\
  f_geometry <$> h_faces run.2 !! 0 = Some (square 0 0 4) /\
  compute_punched_geometry (square 0 0 4) [] = square 0 0 4 /\
  run.1 <> Ok (compute_punched_geometry (square 0 0 4) []).
Proof.
  cbv zeta. repeat split; try reflexivity.
  intros H. apply (f_equal (fun r => match r with Ok g => length g | Raise _ => 0 end)) in H.
  vm_compute in H. discriminate H.
Qed.

End RemovalExamples.

(** ** The areas of the flat geometry *)

Module FlatLaws.
Import Flat.
#[local] Open Scope Q_scope.
















End FlatLaws.

(** ** Runs of the removal and of the builders *)

Section BuilderRuns.
Context `{Geo : Geometry}.

Lemma heap_eta h : mkHeap (h_faces h) (h_subs h) (h_next h) = h.
Proof. destruct h. reflexivity. Qed.

(** A loop that writes the same idempotent change to each sub-face of a
    list. *)
Lemma for_each_modify_sub_run (g : SubFace -> SubFace) l h :
  (forall s, g (g s) = g s) ->
  subs_in_store h l ->
  exists subs',
    for_each l (fun x => modify_sub x g) h
      = (Ok tt, mkHeap (h_faces h) subs' (h_next h)) /\
    (forall x, x ∈ l -> subs' !! x = g <$> h_subs h !! x) /\
    (forall x, x ∉ l -> subs' !! x = h_subs h !! x).
Proof.
  intros Hg. revert h. induction l as [|x l IH]; intros h Hl.
  - exists (h_subs h). simpl. unfold ret. rewrite heap_eta.
    split; [reflexivity|]. split; [|reflexivity].
    intros x Hx. apply elem_of_nil in Hx. destruct Hx.
  - apply Forall_cons in Hl as [[s Hs] Hl]. simpl.
    erewrite bind_of_ok; [|apply modify_sub_ok; exact Hs].
    set (h1 := mkHeap (h_faces h) (<[x:=g s]> (h_subs h)) (h_next h)).
    destruct (IH h1) as (subs' & Hrun & Hin & Hout).
    { eapply Forall_impl; [exact Hl|]. intros y Hy. simpl.
      apply lookup_insert_is_Some'. right. exact Hy. }
    exists subs'. split; [exact Hrun|]. split.
    + intros y Hy. destruct (decide (y ∈ l)) as [Hyl|Hyl].
      * rewrite (Hin y Hyl). simpl. destruct (decide (x = y)) as [->|Hne].
        -- rewrite lookup_insert_eq, Hs. simpl. rewrite Hg. reflexivity.
        -- rewrite lookup_insert_ne by exact Hne. reflexivity.
      * rewrite (Hout y Hyl). simpl.
        apply elem_of_cons in Hy as [->|Hy]; [|contradiction].
        rewrite lookup_insert_eq, Hs. reflexivity.
    + intros y Hy. apply not_elem_of_cons in Hy as [Hne Hyl].
      rewrite (Hout y Hyl). simpl. rewrite lookup_insert_ne by congruence.
      reflexivity.
Qed.

(** [remove_apertures] on a face whose apertures the store holds. *)
Lemma remove_apertures_run self h f :
  h_faces h !! self = Some f ->
  subs_in_store h (f_apertures f) ->
  exists subs',
    remove_apertures self h
      = (Ok tt, mkHeap (<[self := with_punched_geometry None (with_apertures [] f)]>
                          (h_faces h)) subs' (h_next h)) /\
    (forall x, x ∈ f_apertures f ->
               subs' !! x = with_sf_parent None <$> h_subs h !! x) /\
    (forall x, x ∉ f_apertures f -> subs' !! x = h_subs h !! x).
Proof.
  intros Hf Hl.
  destruct (for_each_modify_sub_run (with_sf_parent None) (f_apertures f) h)
    as (subs' & Hrun & Hin & Hout); [reflexivity | exact Hl |].
  exists subs'. split; [|split; assumption].
  unfold remove_apertures.
  erewrite bind_of_ok; [|apply get_face_ok; exact Hf].
  erewrite bind_of_ok; [|exact Hrun].
  erewrite bind_of_ok; [|apply modify_face_ok; simpl; exact Hf].
  erewrite modify_face_ok; [|simpl; apply lookup_insert_eq].
  simpl. rewrite insert_insert_eq. reflexivity.
Qed.

(** [remove_doors], whose loop runs over the apertures of the face. *)
Lemma remove_doors_run self h f :
  h_faces h !! self = Some f ->
  subs_in_store h (f_apertures f) ->
  exists subs',
    remove_doors self h
      = (Ok tt, mkHeap (<[self := with_punched_geometry None (with_doors [] f)]>
                          (h_faces h)) subs' (h_next h)) /\
    (forall x, x ∈ f_apertures f ->
               subs' !! x = with_sf_parent None <$> h_subs h !! x) /\
    (forall x, x ∉ f_apertures f -> subs' !! x = h_subs h !! x).
Proof.
  intros Hf Hl.
  destruct (for_each_modify_sub_run (with_sf_parent None) (f_apertures f) h)
    as (subs' & Hrun & Hin & Hout); [reflexivity | exact Hl |].
  exists subs'. split; [|split; assumption].
  unfold remove_doors.
  erewrite bind_of_ok; [|apply get_face_ok; exact Hf].
  erewrite bind_of_ok; [|exact Hrun].
  erewrite bind_of_ok; [|apply modify_face_ok; simpl; exact Hf].
  erewrite modify_face_ok; [|simpl; apply lookup_insert_eq].
  simpl. rewrite insert_insert_eq. reflexivity.
Qed.

(** [remove_sub_faces]: the face is cleared, the apertures lose their
    parent, and every other object of the store, the doors of the face
    among them, is as it was. *)
Lemma remove_sub_faces_run self h f :
  h_faces h !! self = Some f ->
  subs_in_store h (f_apertures f) ->
  exists subs',
    remove_sub_faces self h
      = (Ok tt, mkHeap (<[self := cleared f]> (h_faces h)) subs' (h_next h)) /\
    (forall x, x ∈ f_apertures f ->
               subs' !! x = with_sf_parent None <$> h_subs h !! x) /\
    (forall x, x ∉ f_apertures f -> subs' !! x = h_subs h !! x).
Proof.
  intros Hf Hl.
  destruct (remove_apertures_run self h f Hf Hl) as (subs' & Hrun & Hin & Hout).
  exists subs'. split; [|split; assumption].
  unfold remove_sub_faces. erewrite bind_of_ok; [|exact Hrun].
  set (f1 := with_punched_geometry None (with_apertures [] f)).
  set (h1 := mkHeap (<[self:=f1]> (h_faces h)) subs' (h_next h)).
  destruct (remove_doors_run self h1 f1) as (subs2 & Hrun2 & _ & Hout2).
  { simpl. apply lookup_insert_eq. }
  { constructor. }
  rewrite Hrun2. simpl. rewrite insert_insert_eq.
  f_equal. f_equal.
  apply map_eq. intros x. apply Hout2. simpl. apply not_elem_of_nil.
Qed.

End BuilderRuns.

Section BuilderLoop.
Context `{Geo : Geometry}.

Lemma accepts_sub_faces_check self h f :
  h_faces h !! self = Some f ->
  _acceptable_sub_face_check self h
    = (if accepts_sub_faces f then Ok tt else Raise AssertionError, h).
Proof.
  intros Hf. unfold _acceptable_sub_face_check, accepts_sub_faces.
  erewrite bind_of_ok; [|apply get_face_ok; exact Hf].
  destruct (is_Outdoors (f_boundary_condition f)); [|reflexivity].
  destruct (negb (bool_decide (f_type f = AirBoundary))); reflexivity.
Qed.

(** A new Aperture is built and added to a face that accepts sub-faces. *)
Lemma add_new_aperture_run self h f identifier g :
  h_faces h !! self = Some f ->
  accepts_sub_faces f = true ->
  (aperture <- new_sub (Aperture identifier g false) ;; add_aperture self aperture) h
    = (Ok tt,
       mkHeap (<[self := grown f [h_next h]]> (h_faces h))
              (<[h_next h := mkSubFace IsAperture identifier identifier
                               (oriented (f_geometry f) g) false Outdoors
                               (Some self)]> (h_subs h))
              (S (h_next h))).
Proof.
  intros Hf Hacc. unfold bind at 1, new_sub at 1.
  unfold add_aperture.
  erewrite bind_of_ok; [|apply get_sub_ok; simpl; apply lookup_insert_eq].
  simpl bool_decide. unfold assert_ at 1. rewrite bind_ret.
  unfold attach_sub_face.
  erewrite bind_of_ok;
    [|rewrite (accepts_sub_faces_check self _ f) by exact Hf; rewrite Hacc; reflexivity].
  erewrite bind_of_ok; [|apply modify_sub_ok; simpl; apply lookup_insert_eq].
  erewrite bind_of_ok; [|apply get_face_ok; simpl; exact Hf].
  erewrite bind_of_ok; [|apply get_sub_ok; simpl; apply lookup_insert_eq].
  unfold oriented. simpl sf_geometry.
  destruct (angle_exceeds_right (f3_normal (f_geometry f)) (f3_normal g)).
  - erewrite bind_of_ok; [|apply modify_sub_ok; simpl; apply lookup_insert_eq].
    erewrite bind_of_ok; [|apply modify_face_ok; simpl; exact Hf].
    erewrite modify_face_ok; [|simpl; apply lookup_insert_eq].
    simpl. rewrite !insert_insert_eq. reflexivity.
  - rewrite bind_ret.
    erewrite bind_of_ok; [|apply modify_face_ok; simpl; exact Hf].
    erewrite modify_face_ok; [|simpl; apply lookup_insert_eq].
    simpl. rewrite !insert_insert_eq. reflexivity.
Qed.

Lemma grown_nil f : f_punched_geometry f = None -> grown f [] = f.
Proof.
  destruct f. simpl. intros ->. unfold grown, with_punched_geometry, with_apertures.
  simpl. rewrite app_nil_r. reflexivity.
Qed.

Lemma grown_grown f l1 l2 : grown (grown f l1) l2 = grown f (l1 ++ l2).
Proof. unfold grown, with_punched_geometry, with_apertures. simpl. rewrite app_assoc. reflexivity. Qed.

Lemma accepts_sub_faces_grown f l : accepts_sub_faces (grown f l) = accepts_sub_faces f.
Proof. reflexivity. Qed.

(** The closing loop of the builders, entered at the index [i0]. *)
Lemma add_generated_from_run self ap_faces : forall i0 h f,
  h_faces h !! self = Some f ->
  accepts_sub_faces f = true ->
  f_punched_geometry f = None ->
  exists subs',
    for_each (zip (seq i0 (length ap_faces)) ap_faces) (fun '(i, ap_face) =>
      f <- get_face self ;;
      aperture <- new_sub (Aperture (glz_identifier (f_identifier f) i) ap_face false) ;;
      add_aperture self aperture) h
      = (Ok tt,
         mkHeap (<[self := grown f (seq (h_next h) (length ap_faces))]> (h_faces h))
                subs' (h_next h + length ap_faces)) /\
    (forall l, l < h_next h -> subs' !! l = h_subs h !! l) /\
    (forall k g, ap_faces !! k = Some g ->
       subs' !! (h_next h + k) = Some (generated_aperture self f (i0 + k) g)).
Proof.
  induction ap_faces as [|g rest IH]; intros i0 h f Hf Hacc Hp.
  - exists (h_subs h). simpl. unfold ret.
    rewrite (grown_nil f Hp), (insert_id _ _ _ Hf), Nat.add_0_r, heap_eta.
    split; [reflexivity|]. split; [reflexivity|]. intros k g Hk. discriminate Hk.
  - simpl length. simpl seq. simpl zip. simpl for_each.
    rewrite bind_bind.
    erewrite bind_of_ok; [|apply get_face_ok; exact Hf].
    erewrite bind_of_ok; [|apply (add_new_aperture_run self h f _ g Hf Hacc)].
    set (s0 := mkSubFace IsAperture _ _ _ false Outdoors (Some self)).
    set (h1 := mkHeap (<[self := grown f [h_next h]]> (h_faces h))
                      (<[h_next h := s0]> (h_subs h)) (S (h_next h))).
    destruct (IH (S i0) h1 (grown f [h_next h])) as (subs' & Hrun & Hold & Hnew);
      [simpl; apply lookup_insert_eq | exact Hacc | reflexivity |].
    exists subs'. split; [|split].
    + rewrite Hrun. simpl. rewrite insert_insert_eq, grown_grown.
      f_equal. f_equal. lia.
    + intros l Hl. rewrite (Hold l) by (simpl; lia). simpl.
      apply lookup_insert_ne. lia.
    + intros [|k] g' Hk.
      * injection Hk as <-. rewrite Nat.add_0_r.
        rewrite (Hold (h_next h)) by (simpl; lia). simpl.
        rewrite lookup_insert_eq, Nat.add_0_r. reflexivity.
      * simpl in Hk. specialize (Hnew k g' Hk). simpl in Hnew.
        replace (h_next h + S k) with (S (h_next h + k)) by lia.
        rewrite Hnew. f_equal. unfold generated_aperture. simpl.
        replace (i0 + S k) with (S (i0 + k)) by lia. reflexivity.
Qed.

Lemma add_generated_apertures_run self ap_faces h f :
  h_faces h !! self = Some f ->
  accepts_sub_faces f = true ->
  f_punched_geometry f = None ->
  exists subs',
    add_generated_apertures self ap_faces h
      = (Ok tt,
         mkHeap (<[self := grown f (seq (h_next h) (length ap_faces))]> (h_faces h))
                subs' (h_next h + length ap_faces)) /\
    (forall l, l < h_next h -> subs' !! l = h_subs h !! l) /\
    (forall k g, ap_faces !! k = Some g ->
       subs' !! (h_next h + k) = Some (generated_aperture self f k g)).
Proof.
  intros Hf Hacc Hp. unfold add_generated_apertures, enumerate.
  apply (add_generated_from_run self ap_faces 0 h f Hf Hacc Hp).
Qed.

End BuilderLoop.

Section BuilderTheorems.
Context `{Geo : Geometry}.

Lemma map_M_get_sub_run l ss h :
  Forall2 (fun x s => h_subs h !! x = Some s) l ss ->
  map_M get_sub l h = (Ok ss, h).
Proof.
  induction 1 as [|x s l ss Hx _ IH]; simpl; [reflexivity|].
  erewrite bind_of_ok; [|apply get_sub_ok; exact Hx].
  erewrite bind_of_ok; [|exact IH]. reflexivity.
Qed.

Lemma aperture_area_run self h f ss :
  h_faces h !! self = Some f ->
  Forall2 (fun x s => h_subs h !! x = Some s) (f_apertures f) ss ->
  aperture_area self h
    = (Ok (Qsum (map (fun ap => f3_area (sf_geometry ap)) ss)), h).
Proof.
  intros Hf Hss. unfold aperture_area.
  erewrite bind_of_ok; [|apply get_face_ok; exact Hf].
  erewrite bind_of_ok; [|apply map_M_get_sub_run; exact Hss]. reflexivity.
Qed.

Lemma generated_in_store (subs : gmap loc SubFace) self f ap_faces : forall n i0,
  (forall k g, ap_faces !! k = Some g ->
     subs !! (n + k) = Some (generated_aperture self f (i0 + k) g)) ->
  exists ss,
    Forall2 (fun x s => subs !! x = Some s) (seq n (length ap_faces)) ss /\
    map sf_geometry ss = map (oriented (f_geometry f)) ap_faces.
Proof.
  induction ap_faces as [|g rest IH]; intros n i0 H.
  - exists []. split; [constructor | reflexivity].
  - destruct (IH (S n) (S i0)) as (ss & Hss & Hgeo).
    { intros k g' Hk. specialize (H (S k) g' Hk).
      replace (S n + k) with (n + S k) by lia.
      replace (S i0 + k) with (i0 + S k) by lia. exact H. }
    exists (generated_aperture self f i0 g :: ss). split.
    + simpl. constructor; [|exact Hss].
      specialize (H 0 g eq_refl). rewrite !Nat.add_0_r in H. exact H.
    + simpl. rewrite Hgeo. reflexivity.
Qed.





End BuilderTheorems.

Module BuilderExamples.
Import Examples.
#[local] Existing Instance Flat.geometry.



End BuilderExamples.

(** ** Runs of [add_aperture], [add_door] and their loops *)

Section AttachRuns.
Context `{Geo : Geometry}.

(** The body shared by [add_aperture] and [add_door] on a face that accepts
    sub-faces. *)
Lemma attach_sub_face_run self sub append h f s :
  h_faces h !! self = Some f ->
  accepts_sub_faces f = true ->
  h_subs h !! sub = Some s ->
  attach_sub_face self sub append h
    = (Ok tt,
       mkHeap (<[self := with_punched_geometry None (append sub f)]> (h_faces h))
              (<[sub := attached self f s]> (h_subs h))
              (h_next h)).
Proof.
  intros Hf Hacc Hs. unfold attach_sub_face.
  erewrite bind_of_ok;
    [|rewrite (accepts_sub_faces_check self _ f) by exact Hf; rewrite Hacc; reflexivity].
  erewrite bind_of_ok; [|apply modify_sub_ok; exact Hs].
  erewrite bind_of_ok; [|apply get_face_ok; simpl; exact Hf].
  erewrite bind_of_ok; [|apply get_sub_ok; simpl; apply lookup_insert_eq].
  unfold attached, oriented. simpl sf_geometry.
  destruct (angle_exceeds_right (f3_normal (f_geometry f)) (f3_normal (sf_geometry s))).
  - erewrite bind_of_ok; [|apply modify_sub_ok; simpl; apply lookup_insert_eq].
    erewrite bind_of_ok; [|apply modify_face_ok; simpl; exact Hf].
    erewrite modify_face_ok; [|simpl; apply lookup_insert_eq].
    simpl. rewrite !insert_insert_eq. reflexivity.
  - rewrite bind_ret.
    erewrite bind_of_ok; [|apply modify_face_ok; simpl; exact Hf].
    erewrite modify_face_ok; [|simpl; apply lookup_insert_eq].
    simpl. rewrite !insert_insert_eq.
    destruct s; reflexivity.
Qed.

Lemma add_aperture_run self aperture h f s :
  h_faces h !! self = Some f ->
  accepts_sub_faces f = true ->
  h_subs h !! aperture = Some s ->
  sf_kind s = IsAperture ->
  add_aperture self aperture h
    = (Ok tt,
       mkHeap (<[self := grown f [aperture]]> (h_faces h))
              (<[aperture := attached self f s]> (h_subs h))
              (h_next h)).
Proof.
  intros Hf Hacc Hs Hk. unfold add_aperture.
  erewrite bind_of_ok; [|apply get_sub_ok; exact Hs].
  rewrite Hk. erewrite (bind_of_ok (assert_ _)); [|reflexivity].
  exact (attach_sub_face_run self aperture
           (fun a f => with_apertures (f_apertures f ++ [a]) f) h f s Hf Hacc Hs).
Qed.

Lemma add_door_run self door h f s :
  h_faces h !! self = Some f ->
  accepts_sub_faces f = true ->
  h_subs h !! door = Some s ->
  sf_kind s = IsDoor ->
  add_door self door h
    = (Ok tt,
       mkHeap (<[self := grown_doors f [door]]> (h_faces h))
              (<[door := attached self f s]> (h_subs h))
              (h_next h)).
Proof.
  intros Hf Hacc Hs Hk. unfold add_door.
  erewrite bind_of_ok; [|apply get_sub_ok; exact Hs].
  rewrite Hk. erewrite (bind_of_ok (assert_ _)); [|reflexivity].
  exact (attach_sub_face_run self door
           (fun d f => with_doors (f_doors f ++ [d]) f) h f s Hf Hacc Hs).
Qed.

End AttachRuns.

Section AddLoops.
Context `{Geo : Geometry}.

(** The loops of [add_apertures] and [add_doors] have one shape: [add_one]
    is [add_aperture] or [add_door], and [grow] is [grown] or
    [grown_doors]. *)
Section Generic.
Variable self : loc.
Variable kind : SubKind.
Variable add_one : loc -> M unit.
Variable grow : Face -> list loc -> Face.
Hypothesis add_one_run : forall l h f s,
  h_faces h !! self = Some f ->
  accepts_sub_faces f = true ->
  h_subs h !! l = Some s ->
  sf_kind s = kind ->
  add_one l h
    = (Ok tt, mkHeap (<[self := grow f [l]]> (h_faces h))
                     (<[l := attached self f s]> (h_subs h)) (h_next h)).
Hypothesis grow_grow : forall f l1 l2, grow (grow f l1) l2 = grow f (l1 ++ l2).
Hypothesis grow_accepts : forall f l, accepts_sub_faces (grow f l) = accepts_sub_faces f.
Hypothesis grow_geometry : forall f l, f_geometry (grow f l) = f_geometry f.

Lemma add_all_run locs ss : forall h f,
  h_faces h !! self = Some f ->
  accepts_sub_faces f = true ->
  Forall2 (fun l s => h_subs h !! l = Some s /\ sf_kind s = kind) locs ss ->
  NoDup locs ->
  exists subs',
    for_each locs add_one h
      = (Ok tt,
         mkHeap (if is_nil locs then h_faces h
                 else <[self := grow f locs]> (h_faces h))
                subs' (h_next h)) /\
    (forall k l s, locs !! k = Some l -> ss !! k = Some s ->
                   subs' !! l = Some (attached self f s)) /\
    (forall l, l ∉ locs -> subs' !! l = h_subs h !! l).
Proof.
  intros h f Hf Hacc Hall. revert h f Hf Hacc Hall.
  revert ss. induction locs as [|l rest IH]; intros ss h f Hf Hacc Hall Hnd.
  - exists (h_subs h). simpl. unfold ret. rewrite heap_eta.
    split; [reflexivity|]. split; [|reflexivity]. intros k l s Hk. discriminate Hk.
  - apply Forall2_cons_inv_l in Hall as (s & ss' & [Hs Hkind] & Hrest & ->).
    apply NoDup_cons in Hnd as [Hl Hnd].
    simpl for_each.
    erewrite bind_of_ok; [|apply (add_one_run l h f s Hf Hacc Hs Hkind)].
    set (h1 := mkHeap (<[self := grow f [l]]> (h_faces h))
                      (<[l := attached self f s]> (h_subs h)) (h_next h)).
    destruct (IH ss' h1 (grow f [l])) as (subs' & Hrun & Hin & Hout).
    { simpl. apply lookup_insert_eq. }
    { rewrite grow_accepts. exact Hacc. }
    { eapply Forall2_impl; [|intros ? ? H; exact H].
      clear -Hrest Hl. revert Hl. induction Hrest as [|x y xs ys [Hx Hy] _ IH'];
        intros Hl; constructor.
      - split; [|exact Hy]. simpl. rewrite lookup_insert_ne; [exact Hx|].
        intros ->. apply Hl. left.
      - apply IH'. intros H. apply Hl. right. exact H. }
    { exact Hnd. }
    exists subs'. split; [|split].
    + rewrite Hrun. simpl h_faces. simpl h_next. f_equal. f_equal.
      destruct rest as [|l' rest']; [reflexivity|].
      simpl is_nil. cbv iota. rewrite insert_insert_eq, grow_grow. reflexivity.
    + intros [|k] l0 s0 Hk Hk'; simpl in Hk, Hk'.
      * injection Hk as <-. injection Hk' as <-.
        rewrite (Hout l Hl). simpl. apply lookup_insert_eq.
      * rewrite (Hin k l0 s0 Hk Hk'). unfold attached. rewrite grow_geometry.
        reflexivity.
    + intros l0 Hl0. apply not_elem_of_cons in Hl0 as [Hne Hl0].
      rewrite (Hout l0 Hl0). simpl. apply lookup_insert_ne. congruence.
Qed.

End Generic.

Lemma grown_doors_grown_doors f l1 l2 :
  grown_doors (grown_doors f l1) l2 = grown_doors f (l1 ++ l2).
Proof.
  unfold grown_doors, with_punched_geometry, with_doors. simpl.
  rewrite app_assoc. reflexivity.
Qed.

(** [add_apertures] on distinct Apertures of the store and a face that
    accepts sub-faces: the Apertures are appended in their order, each with
    the face for its parent and its geometry oriented along the face, and
    the cache is reset. *)
Lemma add_apertures_run self locs ss h f :
  h_faces h !! self = Some f ->
  accepts_sub_faces f = true ->
  Forall2 (fun l s => h_subs h !! l = Some s /\ sf_kind s = IsAperture) locs ss ->
  NoDup locs ->
  exists subs',
    add_apertures self locs h
      = (Ok tt,
         mkHeap (if is_nil locs then h_faces h
                 else <[self := grown f locs]> (h_faces h))
                subs' (h_next h)) /\
    (forall k l s, locs !! k = Some l -> ss !! k = Some s ->
                   subs' !! l = Some (attached self f s)) /\
    (forall l, l ∉ locs -> subs' !! l = h_subs h !! l).
Proof.
  apply (add_all_run self IsAperture (add_aperture self) grown).
  - intros l h0 f0 s. apply add_aperture_run.
  - apply grown_grown.
  - reflexivity.
  - reflexivity.
Qed.

Lemma add_doors_run self locs ss h f :
  h_faces h !! self = Some f ->
  accepts_sub_faces f = true ->
  Forall2 (fun l s => h_subs h !! l = Some s /\ sf_kind s = IsDoor) locs ss ->
  NoDup locs ->
  exists subs',
    add_doors self locs h
      = (Ok tt,
         mkHeap (if is_nil locs then h_faces h
                 else <[self := grown_doors f locs]> (h_faces h))
                subs' (h_next h)) /\
    (forall k l s, locs !! k = Some l -> ss !! k = Some s ->
                   subs' !! l = Some (attached self f s)) /\
    (forall l, l ∉ locs -> subs' !! l = h_subs h !! l).
Proof.
  apply (add_all_run self IsDoor (add_door self) grown_doors).
  - intros l h0 f0 s. apply add_door_run.
  - apply grown_doors_grown_doors.
  - reflexivity.
  - reflexivity.
Qed.

End AddLoops.

(** ** [fix_invalid_sub_faces] writes only when the polygons were edited *)

Section RepairFrame.
Context `{Geo : Geometry}.

Lemma snapshot_run l ss h :
  Forall2 (fun x s => h_subs h !! x = Some s) l ss ->
  snapshot l h = (Ok (zip l ss), h).
Proof.
  unfold snapshot. induction 1 as [|x s l ss Hx _ IH]; simpl; [reflexivity|].
  rewrite bind_bind. erewrite bind_of_ok; [|apply get_sub_ok; exact Hx].
  rewrite bind_ret. erewrite bind_of_ok; [|exact IH]. reflexivity.
Qed.

(** The polygons count as edited when their number changed or their total
    area moved by more than the tolerance. *)
Lemma polygons_edited_false clean_polys original_polys tolerance :
  polygons_edited clean_polys original_polys tolerance = false <->
  length clean_polys = length original_polys /\
  (Qabs (Qsum (map p2_area original_polys) - Qsum (map p2_area clean_polys))
     <= tolerance)%Q.
Proof.
  unfold polygons_edited. rewrite orb_false_iff, negb_false_iff, Nat.eqb_eq.
  rewrite Qltb_false. reflexivity.
Qed.

(** C5.  On a face of the store that has no aperture and no door,
    [fix_invalid_sub_faces] raises IndexError when it is to union the
    overlaps, as it is by default: [Polygon2D.group_by_overlap] is called on
    the empty list of polygons, whatever the other arguments.  Nothing is
    written. *)
Theorem fix_invalid_sub_faces_raises_without_sub_faces self
    (trim_with_parent : bool) offset_distance tolerance h f :
  h_faces h !! self = Some f ->
  sub_faces f = [] ->
  fix_invalid_sub_faces self trim_with_parent true offset_distance tolerance h
    = (Raise IndexError, h).
Proof.
  intros Hf Hnone. unfold fix_invalid_sub_faces.
  erewrite bind_of_ok; [|apply get_face_ok; exact Hf].
  rewrite Hnone.
  erewrite bind_of_ok; [|apply (snapshot_run [] []); constructor].
  destruct trim_with_parent; reflexivity.
Qed.


End RepairFrame.

Module RepairExamples.
Import Examples.
#[local] Existing Instance Flat.geometry.

(** C5 on the face of [store_bare], which has no sub-face: the call with
    the default arguments raises IndexError. *)
Lemma fix_invalid_sub_faces_raises_without_sub_faces_witness :
  fix_invalid_sub_faces 0 true true (1 # 20) (1 # 100) store_bare
    = (Raise IndexError, store_bare).
Proof.
  exact (fix_invalid_sub_faces_raises_without_sub_faces 0 true (1 # 20) (1 # 100)
           store_bare (face_with "F" (square 0 0 4) [] [] Outdoors)
           eq_refl eq_refl).
Defined.


End RepairExamples.

(** ** The matching of regenerated apertures *)

Section Regeneration.
Context `{Geo : Geometry}.

Lemma find_existing_find non_rect_aps ap_face tolerance :
  find_existing non_rect_aps ap_face tolerance
    = find (center_matches ap_face tolerance) non_rect_aps.
Proof.
  induction non_rect_aps as [|old_ap rest IH]; simpl; [reflexivity|].
  unfold center_matches at 1.
  destruct (is_equivalent (sf_center old_ap.2) (f3_center ap_face) tolerance);
    [reflexivity | exact IH].
Qed.

Lemma lookup_zip_seq {A} (l : list A) : forall j i x,
  l !! i = Some x -> zip (seq j (length l)) l !! i = Some (j + i, x).
Proof.
  induction l as [|y l IH]; intros j i x Hi; [discriminate Hi|].
  destruct i as [|i]; simpl in *.
  - injection Hi as ->. rewrite Nat.add_0_r. reflexivity.
  - rewrite (IH (S j) i x Hi). f_equal. f_equal. lia.
Qed.

Lemma lookup_enumerate {A} (l : list A) i x :
  l !! i = Some x -> enumerate l !! i = Some (i, x).
Proof. intros Hi. unfold enumerate. rewrite (lookup_zip_seq l 0 i x Hi). reflexivity. Qed.

(** The Aperture made of the regenerated geometry of index [i]. *)
Lemma regenerated_apertures_lookup identifier non_rect_aps tolerance
    non_rect_geos i ap_face :
  non_rect_geos !! i = Some ap_face ->
  regenerated_apertures identifier non_rect_aps tolerance non_rect_geos !! i
    = Some (regenerated_aperture identifier non_rect_aps tolerance i ap_face).
Proof.
  intros Hi. unfold regenerated_apertures.
  rewrite list_lookup_fmap, (lookup_enumerate _ _ _ Hi). reflexivity.
Qed.

Lemma length_regenerated_apertures identifier non_rect_aps tolerance non_rect_geos :
  length (regenerated_apertures identifier non_rect_aps tolerance non_rect_geos)
    = length non_rect_geos.
Proof.
  unfold regenerated_apertures, enumerate.
  rewrite length_map, length_zip, length_seq. lia.
Qed.

End Regeneration.

(** ** Rectangularization of rectangles *)

Section Rectangular.
Context `{Geo : Geometry}.

Lemma sort_apertures_rect_like apertures tol ang_tol :
  Forall (fun ap : loc * SubFace => is_rect_like tol ang_tol (sf_geometry ap.2) = true)
         apertures ->
  (sort_apertures apertures false tol ang_tol).2 = [].
Proof.
  induction 1 as [|ap rest Hap _ IH]; simpl; [reflexivity|].
  destruct (sort_apertures rest false tol ang_tol) as [rect_aps non_rect].
  simpl in IH. subst non_rect. unfold is_rect_like in Hap.
  destruct (f3_remove_colinear_vertices (sf_geometry ap.2) tol); [|reflexivity].
  simpl. rewrite Hap. reflexivity.
Qed.

(** C6.  On a face of the store whose apertures the store holds, each of
    them a rectangle within the angle tolerance once its colinear vertices
    are removed (or degenerate, which the method ignores),
    [rectangularize_apertures] without a [max_separation] returns False and
    the store is as it was, whatever the subdivision distance and
    [merge_all]. *)
Theorem rectangularize_apertures_of_rectangles self subdivision_distance merge_all
    tolerance angle_tolerance h f subs :
  h_faces h !! self = Some f ->
  Forall2 (fun x s => h_subs h !! x = Some s) (f_apertures f) subs ->
  Forall (fun s => is_rect_like tolerance (math_radians angle_tolerance)
                     (sf_geometry s) = true) subs ->
  rectangularize_apertures self subdivision_distance None merge_all
    tolerance angle_tolerance h = (Ok false, h).
Proof.
  intros Hf Hsubs Hrect. unfold rectangularize_apertures.
  erewrite bind_of_ok; [|apply get_face_ok; exact Hf].
  erewrite bind_of_ok; [|apply snapshot_run; exact Hsubs].
  destruct (length (zip (f_apertures f) subs) =? 0); [reflexivity|].
  cbv zeta.
  rewrite (bool_decide_eq_false_2 (@None Q <> None)) by (intros H; apply H; reflexivity).
  rewrite andb_false_l.
  assert (Hall : Forall (fun ap : loc * SubFace =>
                    is_rect_like tolerance (math_radians angle_tolerance)
                      (sf_geometry ap.2) = true) (zip (f_apertures f) subs)).
  { clear -Hsubs Hrect. revert Hrect.
    induction Hsubs as [|x s l ss _ _ IH]; intros Hrect; simpl; [constructor|].
    apply Forall_cons in Hrect as [Hs Hrect].
    constructor; [exact Hs | apply IH, Hrect]. }
  pose proof (sort_apertures_rect_like _ _ _ Hall) as Hsort.
  destruct (sort_apertures (zip (f_apertures f) subs) false tolerance
              (math_radians angle_tolerance)) as [rect_aps non_rect].
  simpl in Hsort. subst non_rect. reflexivity.
Qed.

End Rectangular.

Module RectangularExamples.
Import Examples.
#[local] Existing Instance Flat.geometry.

(** C6 on the face of [store_door], whose one aperture is a square. *)
Lemma rectangularize_apertures_of_rectangles_witness :
  rectangularize_apertures 0 None None false (1 # 100) 1 store_door
    = (Ok false, store_door).
Proof.
  apply (rectangularize_apertures_of_rectangles 0 None false (1 # 100) 1 store_door
           (face_with "F" (square 0 0 4) [1] [2] Outdoors)
           [aperture_at "A" (square 1 1 1) (Some 0)]).
  - reflexivity.
  - constructor; [reflexivity | constructor].
  - constructor; [reflexivity | constructor].
Defined.

End RectangularExamples.


(** ** The round trip through a dictionary *)

Section DictRuns.
Context `{Ser : Serialization}.

Lemma remove_invalid_holes_valid rounds : forall holes i,
  Forall (fun hole_list : list Point3D => 3 <= length hole_list) holes ->
  remove_invalid_holes rounds holes i = holes.
Proof.
  induction rounds as [|rounds IH]; intros holes i Hv; simpl; [reflexivity|].
  destruct (holes !! i) as [hole_list|] eqn:Hi; [|reflexivity].
  pose proof (proj1 (Forall_lookup _ _) Hv i hole_list Hi) as Hlen. simpl in Hlen.
  destruct (Nat.ltb_spec (length hole_list) 3) as [Hlt|_]; [lia|].
  apply IH, Hv.
Qed.

Lemma clean_geo_dict_valid (d : Face3DDict) :
  match gd_holes d with
  | Some holes => Forall (fun hole_list => 3 <= length hole_list) holes
  | None => True
  end ->
  clean_geo_dict d = d.
Proof.
  unfold clean_geo_dict. destruct d as [b [holes|] p]; simpl; [|reflexivity].
  intros Hv. rewrite remove_invalid_holes_valid by exact Hv. reflexivity.
Qed.

Lemma face_type_by_name_of_name t : face_type_by_name (face_type_name t) = Ok t.
Proof. destruct t; reflexivity. Qed.

(** The objects that [from_dict] builds of a list of dictionaries. *)
Lemma sub_faces_from_dicts_run from_dict ds ss : forall h,
  Forall2 (fun d s => from_dict d = Ok s) ds ss ->
  exists subs',
    sub_faces_from_dicts from_dict ds h
      = (Ok (seq (h_next h) (length ds)),
         mkHeap (h_faces h) subs' (h_next h + length ds)) /\
    (forall k s, ss !! k = Some s -> subs' !! (h_next h + k) = Some s) /\
    (forall l, l < h_next h -> subs' !! l = h_subs h !! l).
Proof.
  intros h Hall. revert h.
  induction Hall as [|d s ds ss Hd _ IH]; intros h.
  - exists (h_subs h). simpl. unfold ret. rewrite Nat.add_0_r, heap_eta.
    split; [reflexivity|]. split; [|reflexivity]. intros k s Hk. discriminate Hk.
  - set (h1 := mkHeap (h_faces h) (<[h_next h := s]> (h_subs h)) (S (h_next h))).
    destruct (IH h1) as (subs' & Hrun & Hnew & Hold).
    unfold sub_faces_from_dicts in *. simpl map_M.
    erewrite bind_of_ok; [|rewrite Hd; reflexivity].
    erewrite bind_of_ok; [|exact Hrun].
    exists subs'. split; [|split].
    + unfold ret. simpl. f_equal. f_equal. lia.
    + intros [|k] s0 Hk; simpl in Hk.
      * injection Hk as <-. rewrite Nat.add_0_r.
        rewrite (Hold (h_next h)) by (simpl; lia). simpl. apply lookup_insert_eq.
      * replace (h_next h + S k) with (S (h_next h) + k) by lia.
        apply (Hnew k s0 Hk).
    + intros l Hl. rewrite (Hold l) by (simpl; lia). simpl.
      apply lookup_insert_ne. lia.
Qed.

End DictRuns.

Section DictRebuild.
Context `{Ser : Serialization}.

Lemma attached_aligned self f s :
  angle_exceeds_right (f3_normal (f_geometry f)) (f3_normal (sf_geometry s)) = false ->
  attached self f s = with_sf_parent (Some self) s.
Proof.
  intros Ha. unfold attached, oriented. simpl. rewrite Ha. destruct s; reflexivity.
Qed.

(** The sub-faces of one kind go through their dictionaries and are added
    to the new face. *)
Section OneKind.
Variable include_plane : bool.
Variable kind : SubKind.
Variable from_kind : SubDict -> result SubFace.
Variable add_all : loc -> list loc -> M unit.
Variable grow : Face -> list loc -> Face.
Hypothesis add_all_run : forall self locs ss h f,
  h_faces h !! self = Some f ->
  accepts_sub_faces f = true ->
  Forall2 (fun l s => h_subs h !! l = Some s /\ sf_kind s = kind) locs ss ->
  NoDup locs ->
  exists subs',
    add_all self locs h
      = (Ok tt,
         mkHeap (if is_nil locs then h_faces h
                 else <[self := grow f locs]> (h_faces h))
                subs' (h_next h)) /\
    (forall k l s, locs !! k = Some l -> ss !! k = Some s ->
                   subs' !! l = Some (attached self f s)) /\
    (forall l, l ∉ locs -> subs' !! l = h_subs h !! l).
Hypothesis law : forall s,
  sf_kind s = kind ->
  exists s',
    from_kind (sub_to_dict s include_plane) = Ok s' /\
    sf_kind s' = kind /\
    sub_to_dict s' include_plane = sub_to_dict s include_plane /\
    f3_normal (sf_geometry s') = f3_normal (sf_geometry s).
Hypothesis parent_law : forall s p,
  sub_to_dict (with_sf_parent p s) include_plane = sub_to_dict s include_plane.

Lemma read_back ss normal :
  Forall (fun s => sf_kind s = kind) ss ->
  Forall (fun s => angle_exceeds_right normal (f3_normal (sf_geometry s)) = false) ss ->
  exists ss',
    Forall2 (fun d s' => from_kind d = Ok s')
            (map (fun s => sub_to_dict s include_plane) ss) ss' /\
    Forall (fun s' => sf_kind s' = kind) ss' /\
    Forall (fun s' => angle_exceeds_right normal (f3_normal (sf_geometry s')) = false) ss' /\
    map (fun s => sub_to_dict s include_plane) ss'
      = map (fun s => sub_to_dict s include_plane) ss.
Proof.
  induction ss as [|s ss IH]; intros Hk Ha.
  - exists []. repeat split; constructor.
  - apply Forall_cons in Hk as [Hs Hk]. apply Forall_cons in Ha as [Has Ha].
    destruct (IH Hk Ha) as (ss' & H1 & H2 & H3 & H4).
    destruct (law s Hs) as (s' & Hfrom & Hkind & Hdict & Hnormal).
    exists (s' :: ss'). repeat split.
    + constructor; assumption.
    + constructor; assumption.
    + constructor; [rewrite Hnormal; exact Has | exact H3].
    + simpl. rewrite Hdict, H4. reflexivity.
Qed.

Lemma rebuild_run h face f ss :
  h_faces h !! face = Some f ->
  (ss <> [] -> accepts_sub_faces f = true) ->
  Forall (fun s => sf_kind s = kind) ss ->
  Forall (fun s => angle_exceeds_right (f3_normal (f_geometry f))
                     (f3_normal (sf_geometry s)) = false) ss ->
  exists subs' ss'',
    (match (if negb (is_nil ss)
            then Some (map (fun s => sub_to_dict s include_plane) ss)
            else None) with
     | Some ds => locs <- sub_faces_from_dicts from_kind ds ;; add_all face locs
     | None => ret tt
     end) h
    = (Ok tt,
       mkHeap (if is_nil ss then h_faces h
               else <[face := grow f (seq (h_next h) (length ss))]> (h_faces h))
              subs' (h_next h + length ss)) /\
    Forall2 (fun l s'' => subs' !! l = Some s'') (seq (h_next h) (length ss)) ss'' /\
    map (fun s => sub_to_dict s include_plane) ss''
      = map (fun s => sub_to_dict s include_plane) ss /\
    (forall l, l < h_next h -> subs' !! l = h_subs h !! l).
Proof.
  intros Hf Hacc Hk Ha.
  destruct ss as [|s0 ss0] eqn:Ess.
  { exists (h_subs h), []. simpl. unfold ret. rewrite Nat.add_0_r, heap_eta.
    repeat split; constructor. }
  rewrite <- Ess in *. assert (Hnil : is_nil ss = false) by (rewrite Ess; reflexivity).
  assert (Hacc' : accepts_sub_faces f = true) by (apply Hacc; rewrite Ess; discriminate).
  rewrite Hnil. cbn [negb].
  destruct (read_back ss _ Hk Ha) as (ss' & Hfrom & Hk' & Ha' & Hdict).
  assert (Hlen : length ss' = length ss).
  { rewrite <- (length_map (fun s => sub_to_dict s include_plane) ss'), Hdict.
    apply length_map. }
  destruct (sub_faces_from_dicts_run from_kind _ ss' h Hfrom)
    as (subs1 & Hrun1 & Hnew1 & Hold1).
  rewrite length_map in Hrun1.
  erewrite bind_of_ok; [|exact Hrun1].
  set (h1 := mkHeap (h_faces h) subs1 (h_next h + length ss)).
  assert (Hlocs : Forall2 (fun l s => h_subs h1 !! l = Some s /\ sf_kind s = kind)
                          (seq (h_next h) (length ss)) ss').
  { apply Forall2_lookup. intros i.
    destruct (ss' !! i) as [s'|] eqn:Hi.
    - assert (Hlt : i < length ss) by (rewrite <- Hlen; eapply lookup_lt_Some; exact Hi).
      rewrite (lookup_seq_lt _ _ _ Hlt). constructor. split.
      + simpl. apply (Hnew1 i s' Hi).
      + apply (proj1 (Forall_lookup _ _) Hk' i s' Hi).
    - assert (Hge : length ss <= i) by (rewrite <- Hlen; apply lookup_ge_None; exact Hi).
      rewrite (lookup_seq_ge _ _ _ Hge). constructor. }
  destruct (add_all_run face (seq (h_next h) (length ss)) ss' h1 f Hf Hacc' Hlocs
              (NoDup_seq _ _)) as (subs2 & Hrun2 & Hin2 & Hout2).
  rewrite Hrun2.
  assert (Hseq : is_nil (seq (h_next h) (length ss)) = false)
    by (rewrite Ess; reflexivity).
  rewrite Hseq.
  exists subs2, (map (with_sf_parent (Some face)) ss'). split; [reflexivity|]. split; [|split].
  - apply Forall2_lookup. intros i. rewrite list_lookup_fmap.
    destruct (ss' !! i) as [s'|] eqn:Hi; simpl.
    + assert (Hlt : i < length ss) by (rewrite <- Hlen; eapply lookup_lt_Some; exact Hi).
      rewrite (lookup_seq_lt _ _ _ Hlt). constructor.
      rewrite (Hin2 i (h_next h + i) s' (lookup_seq_lt _ _ _ Hlt) Hi).
      rewrite attached_aligned; [reflexivity|].
      apply (proj1 (Forall_lookup _ _) Ha' i s' Hi).
    + assert (Hge : length ss <= i) by (rewrite <- Hlen; apply lookup_ge_None; exact Hi).
      rewrite (lookup_seq_ge _ _ _ Hge). constructor.
  - rewrite map_map. rewrite <- Hdict. apply map_ext. intros s'. apply parent_law.
  - intros l Hl. rewrite Hout2.
    + simpl. apply Hold1, Hl.
    + intros Hin. apply elem_of_seq in Hin. lia.
Qed.

End OneKind.
End DictRebuild.

Section RoundTrip.
Context `{Ser : Serialization}.

Lemma Forall2_lookups_only h (kind : SubKind) locs ss :
  Forall2 (fun l s => h_subs h !! l = Some s /\ sf_kind s = kind) locs ss ->
  Forall2 (fun l s => h_subs h !! l = Some s) locs ss /\
  Forall (fun s => sf_kind s = kind) ss.
Proof.
  induction 1 as [|l s locs ss [Hl Hk] _ [IH1 IH2]]; split; constructor; assumption.
Qed.

Lemma is_nil_Forall2 {A B} (P : A -> B -> Prop) l1 l2 :
  Forall2 P l1 l2 -> is_nil l1 = is_nil l2.
Proof. destruct 1; reflexivity. Qed.

(** [to_dict] on a face in good order. *)
Lemma to_dict_run self energy include_plane h f aps drs :
  h_faces h !! self = Some f ->
  Forall2 (fun l s => h_subs h !! l = Some s) (f_apertures f) aps ->
  Forall2 (fun l s => h_subs h !! l = Some s) (f_doors f) drs ->
  to_dict self energy include_plane h
    = (Ok (mkFaceDict "Face" (f_identifier f) (Some (f_display_name f))
             (f3_to_dict (f_geometry f) include_plane energy)
             (face_type_name (f_type f))
             (bc_to_dict (f_boundary_condition f)
                (is_Outdoors (f_boundary_condition f) && energy))
             (if negb (is_nil aps)
              then Some (map (fun ap => sub_to_dict ap include_plane) aps) else None)
             (if negb (is_nil drs)
              then Some (map (fun dr => sub_to_dict dr include_plane) drs) else None)
             (f_user_data f)), h).
Proof.
  intros Hf Ha Hd. unfold to_dict.
  erewrite bind_of_ok; [|apply get_face_ok; exact Hf].
  erewrite bind_of_ok; [|apply map_M_get_sub_run; exact Ha].
  erewrite bind_of_ok; [|apply map_M_get_sub_run; exact Hd].
  rewrite (is_nil_Forall2 _ _ _ Ha), (is_nil_Forall2 _ _ _ Hd).
  destruct (is_Outdoors (f_boundary_condition f) && energy); reflexivity.
Qed.

End RoundTrip.

Section RoundTripBody.
Context `{Ser : Serialization}.

Lemma set_boundary_condition_run self value h f :
  h_faces h !! self = Some f ->
  (has_sub_faces f = true -> is_Outdoors_or_Surface value = true) ->
  set_boundary_condition self value h
    = (Ok tt, mkHeap (<[self := with_boundary_condition value f]> (h_faces h))
                     (h_subs h) (h_next h)).
Proof.
  intros Hf Hv. unfold set_boundary_condition.
  erewrite bind_of_ok; [|apply get_face_ok; exact Hf].
  erewrite bind_of_ok; [apply modify_face_ok; exact Hf|].
  destruct (negb (is_nil (f_apertures f)) || negb (is_nil (f_doors f))) eqn:Hsub;
    [|reflexivity].
  rewrite Hv; [reflexivity|].
  unfold has_sub_faces. destruct (f_apertures f), (f_doors f); simpl in *; congruence.
Qed.

Lemma Forall2_seq_lookup_later (subs subs' : gmap loc SubFace) n len ss :
  Forall2 (fun l s => subs !! l = Some s) (seq n len) ss ->
  (forall l, l < n + len -> subs' !! l = subs !! l) ->
  Forall2 (fun l s => subs' !! l = Some s) (seq n len) ss.
Proof.
  intros H Hsame. apply Forall2_same_length_lookup in H as [Hlen H].
  apply Forall2_same_length_lookup. split; [exact Hlen|].
  intros i l s Hl Hs. rewrite Hsame; [apply (H i l s Hl Hs)|].
  apply lookup_seq in Hl as [-> Hi]. lia.
Qed.

(** The body of [from_dict] on the dictionary that [to_dict] writes of a
    face in good order; [bc_final] is the boundary condition that the last
    step leaves. *)
Lemma from_dict_body_run energy include_plane h f aps drs bc_final :
  round_trip_laws include_plane ->
  Forall (fun s => sf_kind s = IsAperture) aps ->
  Forall (fun s => sf_kind s = IsDoor) drs ->
  Forall (fun s => angle_exceeds_right (f3_normal (f_geometry f))
                     (f3_normal (sf_geometry s)) = false) (aps ++ drs) ->
  (aps <> [] \/ drs <> [] -> f_type f <> AirBoundary) ->
  let bc_dict := bc_to_dict (f_boundary_condition f)
                   (is_Outdoors (f_boundary_condition f) && energy) in
  ((exists bc_from_dict,
      hbc_getattr (bcd_type bc_dict) = Some bc_from_dict /\
      bc_from_dict bc_dict = Ok bc_final /\
      (aps <> [] \/ drs <> [] -> is_Outdoors_or_Surface bc_final = true)) \/
   (hbc_getattr (bcd_type bc_dict) = None /\ bc_final = Outdoors)) ->
  let data :=
    mkFaceDict "Face" (f_identifier f) (Some (f_display_name f))
      (f3_to_dict (f_geometry f) include_plane energy)
      (face_type_name (f_type f)) bc_dict
      (if negb (is_nil aps)
       then Some (map (fun ap => sub_to_dict ap include_plane) aps) else None)
      (if negb (is_nil drs)
       then Some (map (fun dr => sub_to_dict dr include_plane) drs) else None)
      (f_user_data f) in
  exists h' f' aps' drs',
    from_dict_body data h = (Ok (h_next h), h') /\
    h_faces h' !! h_next h = Some f' /\
    f_identifier f' = f_identifier f /\
    f_display_name f' = f_display_name f /\
    f_user_data f' = f_user_data f /\
    f3_to_dict (f_geometry f') include_plane energy
      = f3_to_dict (f_geometry f) include_plane energy /\
    f_type f' = f_type f /\
    f_boundary_condition f' = bc_final /\
    Forall2 (fun l s => h_subs h' !! l = Some s) (f_apertures f') aps' /\
    map (fun s => sub_to_dict s include_plane) aps'
      = map (fun s => sub_to_dict s include_plane) aps /\
    Forall2 (fun l s => h_subs h' !! l = Some s) (f_doors f') drs' /\
    map (fun s => sub_to_dict s include_plane) drs'
      = map (fun s => sub_to_dict s include_plane) drs.
Proof.
  intros Laws Hka Hkd Hnormals Htype bc_dict Hbc data. subst data.
  apply Forall_app in Hnormals as [Hna Hnd].
  destruct (geometry_law _ Laws (f_geometry f) energy) as (g' & Hfrom & Hto & Hnormal).
  rewrite <- Hnormal in Hna, Hnd.
  set (n := h_next h).
  set (f0 := new_Face (f_identifier f) g' (f_type f) Outdoors).
  set (f1 := with_display_name (f_display_name f) f0).
  set (f2 := with_user_data (f_user_data f) f1).
  unfold from_dict_body.
  erewrite (bind_of_ok (assert_ _)); [|reflexivity].
  erewrite bind_of_ok;
    [|simpl d_face_type; rewrite face_type_by_name_of_name; reflexivity].
  erewrite bind_of_ok;
    [|simpl d_geometry;
      rewrite (clean_geo_dict_valid _ (holes_law _ Laws (f_geometry f) energy)), Hfrom;
      reflexivity].
  unfold bind at 1, new_face_object at 1. fold n. fold f0.
  set (h0 := mkHeap (<[n := f0]> (h_faces h)) (h_subs h) (S n)).
  cbn [d_display_name d_user_data d_apertures d_doors d_boundary_condition].
  erewrite bind_of_ok; [|apply modify_face_ok; simpl; apply lookup_insert_eq].
  fold f1.
  set (h1 := mkHeap (<[n := f1]> (h_faces h0)) (h_subs h0) (h_next h0)).
  (* the user data *)
  assert (Huser : exists faces2,
    (match f_user_data f with
     | Some user_data => modify_face n (with_user_data (Some user_data))
     | None => ret tt
     end) h1 = (Ok tt, mkHeap faces2 (h_subs h) (S n)) /\
    faces2 !! n = Some f2).
  { subst f2. destruct (f_user_data f) as [ud|].
    - exists (<[n := with_user_data (Some ud) f1]> (h_faces h1)).
      split; [|apply lookup_insert_eq].
      exact (modify_face_ok n (with_user_data (Some ud)) f1 h1 (lookup_insert_eq _ _ _)).
    - exists (h_faces h1). split; [reflexivity|]. simpl. apply lookup_insert_eq. }
  destruct Huser as (faces2 & Hrun2 & Hf2).
  erewrite bind_of_ok; [|exact Hrun2].
  set (h2 := mkHeap faces2 (h_subs h) (S n)).
  assert (Hacc2 : aps <> [] \/ drs <> [] -> accepts_sub_faces f2 = true).
  { intros Hsub. unfold accepts_sub_faces. simpl.
    rewrite bool_decide_eq_false_2 by (apply Htype, Hsub). reflexivity. }
  (* the apertures *)
  destruct (rebuild_run include_plane IsAperture aperture_from_dict add_apertures grown
              add_apertures_run (aperture_law _ Laws) (parent_law _ Laws)
              h2 n f2 aps Hf2 (fun H => Hacc2 (or_introl H)) Hka Hna)
    as (subs3 & aps' & Hrun3 & Haps' & Hdicta & Hold3).
  erewrite bind_of_ok; [|exact Hrun3].
  set (f3 := if is_nil aps then f2 else grown f2 (seq (h_next h2) (length aps))).
  set (h3 := mkHeap _ subs3 (h_next h2 + length aps)).
  assert (Hf3 : h_faces h3 !! n = Some f3).
  { subst h3 f3. simpl. destruct (is_nil aps); [exact Hf2 | apply lookup_insert_eq]. }
  (* the doors *)
  destruct (rebuild_run include_plane IsDoor door_from_dict add_doors grown_doors
              add_doors_run (door_law _ Laws) (parent_law _ Laws)
              h3 n f3 drs Hf3)
    as (subs4 & drs' & Hrun4 & Hdrs' & Hdictd & Hold4).
  { intros H. subst f3. destruct (is_nil aps); apply Hacc2; right; exact H. }
  { exact Hkd. }
  { subst f3. destruct (is_nil aps); exact Hnd. }
  erewrite bind_of_ok; [|exact Hrun4].
  set (f4 := if is_nil drs then f3 else grown_doors f3 (seq (h_next h3) (length drs))).
  set (h4 := mkHeap _ subs4 (h_next h3 + length drs)).
  assert (Hf4 : h_faces h4 !! n = Some f4).
  { subst h4 f4. simpl. destruct (is_nil drs); [exact Hf3 | apply lookup_insert_eq]. }
  assert (Hsub4 : has_sub_faces f4 = true -> aps <> [] \/ drs <> []).
  { subst f4 f3. unfold has_sub_faces.
    destruct aps, drs; simpl; intros H; try discriminate H;
      first [left; discriminate | right; discriminate]. }
  (* the boundary condition *)
  assert (Hbcrun : exists faces5,
    try_except
      (match hbc_getattr (bcd_type bc_dict) with
       | None => raise AttributeError
       | Some bc_from_dict =>
           bc <- lift (bc_from_dict bc_dict) ;;
           set_boundary_condition n bc
       end)
      (fun e => bool_decide (e = AttributeError)) (ret tt) h4
      = (Ok tt, mkHeap faces5 subs4 (h_next h4)) /\
    faces5 !! n = Some (with_boundary_condition bc_final f4)).
  { unfold try_except.
    destruct Hbc as [(cls & Hget & Hcls & Hok) | [Hget ->]]; rewrite Hget.
    - erewrite bind_of_ok; [|rewrite Hcls; reflexivity].
      rewrite (set_boundary_condition_run n bc_final h4 f4 Hf4)
        by (intros H; apply Hok, Hsub4, H).
      eexists. split; [reflexivity|]. apply lookup_insert_eq.
    - exists (h_faces h4). split; [reflexivity|]. rewrite Hf4. f_equal.
      subst f4 f3. destruct (is_nil drs), (is_nil aps); reflexivity. }
  destruct Hbcrun as (faces5 & Hrun5 & Hf5).
  erewrite bind_of_ok; [|exact Hrun5].
  exists (mkHeap faces5 subs4 (h_next h4)), (with_boundary_condition bc_final f4),
         aps', drs'.
  split; [reflexivity|]. split; [exact Hf5|].
  assert (Hfields : f_identifier f4 = f_identifier f /\
                    f_display_name f4 = f_display_name f /\
                    f_user_data f4 = f_user_data f /\
                    f_geometry f4 = g' /\ f_type f4 = f_type f /\
                    f_apertures f4 = (if is_nil aps then [] else seq (h_next h2) (length aps)) /\
                    f_doors f4 = (if is_nil drs then [] else seq (h_next h3) (length drs))).
  { subst f4 f3. destruct (is_nil drs), (is_nil aps); repeat split. }
  destruct Hfields as (Hid & Hdn & Hud & Hgeo & Hty & Hfa & Hfd).
  simpl. rewrite Hid, Hdn, Hud, Hgeo, Hty, Hfa, Hfd.
  repeat split; try reflexivity; try assumption.
  - (* the apertures are where the doors left them *)
    destruct aps as [|a0 aps0]; simpl is_nil; cbv iota.
    { inversion Haps'. constructor. }
    apply (Forall2_seq_lookup_later subs3); [exact Haps'|].
    intros l Hl. apply Hold4. exact Hl.
  - destruct drs as [|d0 drs0]; simpl is_nil; cbv iota.
    { inversion Hdrs'. constructor. }
    exact Hdrs'.
Qed.

End RoundTripBody.

Section RoundTripTheorem.
Context `{Ser : Serialization}.

Lemma is_nil_map_eq {A B} (g : A -> B) (l1 l2 : list A) :
  map g l1 = map g l2 -> is_nil l1 = is_nil l2.
Proof. destruct l1, l2; simpl; intros H; first [reflexivity | discriminate H]. Qed.

Lemma from_dict_of_body data h a h' :
  from_dict_body data h = (Ok a, h') -> from_dict data h = (Ok a, h').
Proof. intros H. unfold from_dict, try_except. rewrite H. reflexivity. Qed.

(** C8, amended.  For a face in good order and dictionaries of the other
    classes that are read back as they were written: [to_dict] returns a
    dictionary; when the module of the boundary conditions holds the class
    named in the dictionary and the class reads the boundary condition back,
    [from_dict] builds a new face of it and [to_dict] of the new face is
    the same dictionary; when the module does not hold the class,
    [from_dict] still returns a face, with the same identifier, geometry,
    apertures and doors in its dictionary, but with the Outdoors boundary
    condition. *)
Theorem to_dict_from_dict_round_trip self energy include_plane h f aps drs :
  round_trip_laws include_plane ->
  h_faces h !! self = Some f ->
  valid_face h f aps drs ->
  exists data,
    to_dict self energy include_plane h = (Ok data, h) /\
    d_boundary_condition data
      = bc_to_dict (f_boundary_condition f)
          (is_Outdoors (f_boundary_condition f) && energy) /\
    (forall bc_from_dict,
       hbc_getattr (bcd_type (d_boundary_condition data)) = Some bc_from_dict ->
       bc_from_dict (d_boundary_condition data) = Ok (f_boundary_condition f) ->
       exists h',
         from_dict data h = (Ok (h_next h), h') /\
         to_dict (h_next h) energy include_plane h' = (Ok data, h')) /\
    (hbc_getattr (bcd_type (d_boundary_condition data)) = None ->
     exists h' data',
       from_dict data h = (Ok (h_next h), h') /\
       to_dict (h_next h) energy include_plane h' = (Ok data', h') /\
       d_identifier data' = d_identifier data /\
       d_geometry data' = d_geometry data /\
       d_apertures data' = d_apertures data /\
       d_doors data' = d_doors data /\
       d_boundary_condition data' = bc_to_dict Outdoors energy).
Proof.
  intros Laws Hf [Hva Hvd Hvn Hvt Hvb].
  destruct (Forall2_lookups_only _ _ _ _ Hva) as [Hla Hka].
  destruct (Forall2_lookups_only _ _ _ _ Hvd) as [Hld Hkd].
  assert (Hsub : aps <> [] \/ drs <> [] -> has_sub_faces f = true).
  { unfold has_sub_faces.
    rewrite (is_nil_Forall2 _ _ _ Hla), (is_nil_Forall2 _ _ _ Hld).
    destruct aps, drs; simpl; intros [H|H]; congruence. }
  eexists. split; [apply (to_dict_run self energy include_plane h f aps drs Hf Hla Hld)|].
  cbn [d_boundary_condition d_identifier d_geometry d_apertures d_doors].
  split; [reflexivity|]. split.
  - intros bc_from_dict Hget Hread.
    destruct (from_dict_body_run energy include_plane h f aps drs
                (f_boundary_condition f) Laws Hka Hkd Hvn
                (fun H => Hvt (Hsub H)))
      as (h' & f' & aps' & drs' & Hrun & Hf' & Hid & Hdn & Hud & Hgeo & Hty & Hbc
          & Hla' & Hda & Hld' & Hdd).
    { left. exists bc_from_dict. split; [exact Hget|]. split; [exact Hread|].
      intros H. apply Hvb, Hsub, H. }
    exists h'. split; [apply from_dict_of_body, Hrun|].
    rewrite (to_dict_run _ energy include_plane h' f' aps' drs' Hf' Hla' Hld').
    rewrite Hid, Hdn, Hud, Hgeo, Hty, Hbc, Hda, Hdd.
    rewrite (is_nil_map_eq _ _ _ Hda), (is_nil_map_eq _ _ _ Hdd). reflexivity.
  - intros Hget.
    destruct (from_dict_body_run energy include_plane h f aps drs
                Outdoors Laws Hka Hkd Hvn (fun H => Hvt (Hsub H)))
      as (h' & f' & aps' & drs' & Hrun & Hf' & Hid & Hdn & Hud & Hgeo & Hty & Hbc
          & Hla' & Hda & Hld' & Hdd).
    { right. split; [exact Hget | reflexivity]. }
    exists h'. eexists. split; [apply from_dict_of_body, Hrun|].
    split; [apply (to_dict_run _ energy include_plane h' f' aps' drs' Hf' Hla' Hld')|].
    cbn [d_boundary_condition d_identifier d_geometry d_apertures d_doors].
    rewrite Hid, Hgeo, Hbc, Hda, Hdd.
    rewrite (is_nil_map_eq _ _ _ Hda), (is_nil_map_eq _ _ _ Hdd).
    repeat split.
Qed.

End RoundTripTheorem.

Module RoundTripExamples.
Import Examples DictExamples.
#[local] Existing Instance Flat.geometry.
#[local] Existing Instance serialization.

Lemma serialization_laws include_plane : round_trip_laws include_plane.
Proof.
  split.
  - intros g eul. exact I.
  - intros g eul. exists g. repeat split.
  - intros s Hs. exists (with_sf_parent None s). simpl.
    rewrite Hs. repeat split.
  - intros s Hs. exists (with_sf_parent None s). simpl.
    rewrite Hs. repeat split.
  - intros s p. reflexivity.
Qed.

Lemma store_door_valid :
  valid_face store_door (face_with "F" (square 0 0 4) [1] [2] Outdoors)
    [aperture_at "A" (square 1 1 1) (Some 0)]
    [door_at "D" (square 3 0 1) (Some 0)].
Proof.
  split.
  - constructor; [split; reflexivity | constructor].
  - constructor; [split; reflexivity | constructor].
  - repeat constructor.
  - intros _ H. discriminate H.
  - intros _. reflexivity.
Qed.

(** C8 on the face of [store_door]: the dictionary of the face is read back
    as a new face, object 3, whose dictionary is the same. *)
Lemma to_dict_from_dict_round_trip_witness :
  exists data h',
    to_dict 0 false true store_door = (Ok data, store_door) /\
    from_dict data store_door = (Ok 3, h') /\
    to_dict 3 false true h' = (Ok data, h').
Proof.
  destruct (to_dict_from_dict_round_trip 0 false true store_door _ _ _
              (serialization_laws true) eq_refl store_door_valid)
    as (data & Hto & Hbc & Hregistered & _).
  destruct (Hregistered (fun d => Ok d)) as (h' & Hfrom & Hagain).
  - rewrite Hbc. reflexivity.
  - rewrite Hbc. reflexivity.
  - exists data, h'. split; [exact Hto|]. split; [exact Hfrom | exact Hagain].
Defined.

(** C8, as stated, fails on the face of [store_adiabatic], whose boundary
    condition is of a class that the module of the boundary conditions does
    not hold: the dictionary names the Adiabatic condition, the face read
    back of it is an Outdoors face, and so says its dictionary. *)
Lemma from_dict_defaults_to_outdoors :
  (data <- to_dict 0 false true ;;
   face <- from_dict data ;;
   data' <- to_dict face false true ;;
   ret (d_boundary_condition data, face, d_boundary_condition data'))
    store_adiabatic
  = (Ok (OtherBC "Adiabatic", 1, Outdoors),
     mkHeap (<[ 1 := face_with "F" (square 0 0 4) [] [] Outdoors ]>
               (h_faces store_adiabatic)) ∅ 2).
Proof. reflexivity. Qed.

End RoundTripExamples.

(** ** The identity of the regenerated apertures *)

Section Identity.
Context `{Geo : Geometry}.

Lemma keeps_identity_same {A} (m : M A) :
  (forall h, (m h).2 = h) -> keeps_identity m.
Proof.
  intros Hm h. rewrite Hm. split; [lia|]. intros l s _ Hl. eauto.
Qed.

Lemma keeps_identity_ret {A} (a : A) : keeps_identity (ret a).
Proof. apply keeps_identity_same. reflexivity. Qed.

Lemma keeps_identity_raise {A} e : keeps_identity (@raise _ A e).
Proof. apply keeps_identity_same. reflexivity. Qed.

Lemma keeps_identity_assert b : keeps_identity (assert_ b).
Proof. destruct b; [apply keeps_identity_ret | apply keeps_identity_raise]. Qed.

Lemma keeps_identity_lift {A} (r : result A) : keeps_identity (lift r).
Proof. destruct r; [apply keeps_identity_ret | apply keeps_identity_raise]. Qed.

Lemma keeps_identity_get_face l : keeps_identity (get_face l).
Proof.
  apply keeps_identity_same. intros h. unfold get_face.
  destruct (h_faces h !! l); reflexivity.
Qed.

Lemma keeps_identity_get_sub l : keeps_identity (get_sub l).
Proof.
  apply keeps_identity_same. intros h. unfold get_sub.
  destruct (h_subs h !! l); reflexivity.
Qed.

Lemma keeps_identity_bind {A B} (m : M A) (k : A -> M B) :
  keeps_identity m -> (forall a, keeps_identity (k a)) -> keeps_identity (bind m k).
Proof.
  intros Hm Hk h. destruct (Hm h) as [Hn Hobj]. unfold bind.
  destruct (m h) as [[a|e] h1]; simpl in *; [|split; assumption].
  destruct (Hk a h1) as [Hn1 Hobj1]. split; [lia|].
  intros l s Hl Hs. destruct (Hobj l s Hl Hs) as (s1 & Hs1 & Hid1).
  destruct (Hobj1 l s1 ltac:(lia) Hs1) as (s2 & Hs2 & Hid2).
  exists s2. split; [exact Hs2 | congruence].
Qed.

Lemma keeps_identity_modify_face l g : keeps_identity (modify_face l g).
Proof.
  intros h. unfold modify_face, bind, get_face.
  destruct (h_faces h !! l); simpl; (split; [lia | eauto]).
Qed.

Lemma keeps_identity_modify_sub l g :
  (forall s, identity (g s) = identity s) -> keeps_identity (modify_sub l g).
Proof.
  intros Hg h. unfold modify_sub, bind, get_sub.
  destruct (h_subs h !! l) as [s0|] eqn:Hl0; simpl; (split; [lia|]); [|eauto].
  intros l' s Hl Hs. destruct (decide (l = l')) as [<-|Hne].
  - rewrite lookup_insert_eq. eexists. split; [reflexivity|].
    rewrite Hg. congruence.
  - rewrite lookup_insert_ne by exact Hne. eauto.
Qed.

Lemma keeps_identity_new_sub s : keeps_identity (new_sub s).
Proof.
  intros h. unfold new_sub. simpl. split; [lia|].
  intros l s0 Hl Hs. rewrite lookup_insert_ne by lia. eauto.
Qed.

Lemma keeps_identity_for_each {A} (l : list A) body :
  (forall x, keeps_identity (body x)) -> keeps_identity (for_each l body).
Proof.
  intros Hb. induction l as [|x l IH]; simpl; [apply keeps_identity_ret|].
  apply keeps_identity_bind; [apply Hb | intros _; exact IH].
Qed.

Lemma keeps_identity_map_M {A B} (f : A -> M B) (l : list A) :
  (forall x, keeps_identity (f x)) -> keeps_identity (map_M f l).
Proof.
  intros Hf. induction l as [|x l IH]; simpl; [apply keeps_identity_ret|].
  apply keeps_identity_bind; [apply Hf | intros b].
  apply keeps_identity_bind; [exact IH | intros bs]. apply keeps_identity_ret.
Qed.

End Identity.

Create HintDb identity discriminated.
#[export] Hint Resolve
  keeps_identity_ret keeps_identity_raise keeps_identity_assert keeps_identity_lift
  keeps_identity_get_face keeps_identity_get_sub keeps_identity_modify_face
  keeps_identity_new_sub : identity.

Ltac identity_kept :=
  repeat first
    [ solve [eauto with identity]
    | apply keeps_identity_modify_sub; intros ?; reflexivity
    | apply keeps_identity_bind; [|intros ?]
    | apply keeps_identity_for_each; intros ?
    | apply keeps_identity_map_M; intros ?
    | match goal with
      | |- keeps_identity (if ?b then _ else _) => destruct b
      | |- keeps_identity (match ?x with _ => _ end) => destruct x
      end ].

Section Regenerated.
Context `{Geo : Geometry}.

Lemma keeps_identity_remove_apertures self : keeps_identity (remove_apertures self).
Proof. unfold remove_apertures. identity_kept. Qed.

Lemma keeps_identity_add_aperture self aperture :
  keeps_identity (add_aperture self aperture).
Proof.
  unfold add_aperture, attach_sub_face, _acceptable_sub_face_check.
  identity_kept.
Qed.

Lemma keeps_identity_add_apertures self apertures :
  keeps_identity (add_apertures self apertures).
Proof.
  unfold add_apertures. apply keeps_identity_for_each. intros x.
  apply keeps_identity_add_aperture.
Qed.

Lemma keeps_identity_build_objects l : keeps_identity (build_objects l).
Proof. induction l as [|[obj|s] l IH]; simpl; identity_kept. Qed.

End Regenerated.

Section RegeneratedRun.
Context `{Geo : Geometry}.

Lemma sort_apertures_rect_in apertures merging tol ang_tol
    (P : loc * SubFace -> Prop) :
  Forall P apertures ->
  Forall P (sort_apertures apertures merging tol ang_tol).1.
Proof.
  induction 1 as [|ap rest Hap _ IH]; simpl; [constructor|].
  destruct (sort_apertures rest merging tol ang_tol) as [rect_aps non_rect].
  simpl in IH.
  destruct (f3_remove_colinear_vertices (sf_geometry ap.2) tol); [|exact IH].
  destruct (negb merging); [|exact IH].
  destruct (p2_is_rectangle _ _); [constructor; assumption | exact IH].
Qed.

Lemma new_subs_run (l : list SubFace) : forall h,
  exists subs',
    new_subs l h
      = (Ok (zip (seq (h_next h) (length l)) l),
         mkHeap (h_faces h) subs' (h_next h + length l)) /\
    (forall i s, l !! i = Some s -> subs' !! (h_next h + i) = Some s) /\
    (forall x, x < h_next h -> subs' !! x = h_subs h !! x).
Proof.
  unfold new_subs. induction l as [|s l IH]; intros h.
  - exists (h_subs h). simpl. unfold ret. rewrite Nat.add_0_r, heap_eta.
    split; [reflexivity|]. split; [|reflexivity]. intros i s Hi. discriminate Hi.
  - simpl map_M. rewrite bind_bind. unfold bind at 1, new_sub at 1.
    rewrite bind_ret.
    set (h1 := mkHeap (h_faces h) (<[h_next h := s]> (h_subs h)) (S (h_next h))).
    destruct (IH h1) as (subs' & Hrun & Hnew & Hold).
    exists subs'. split; [|split].
    + erewrite bind_of_ok; [|exact Hrun]. unfold ret. simpl.
      f_equal. f_equal. lia.
    + intros [|i] s0 Hi; simpl in Hi.
      * injection Hi as <-. rewrite Nat.add_0_r.
        rewrite (Hold (h_next h)) by (simpl; lia). simpl.
        apply lookup_insert_eq.
      * replace (h_next h + S i) with (h_next h1 + i) by (simpl; lia).
        apply Hnew. exact Hi.
    + intros x Hx. rewrite (Hold x) by (simpl; lia). simpl.
      apply lookup_insert_ne. lia.
Qed.

Lemma reset_conditions_run self f (rect_aps : list (loc * SubFace)) h :
  h_faces h !! self = Some f ->
  Forall (fun ap : loc * SubFace => is_Some (h_subs h !! ap.1)) rect_aps ->
  exists h1,
    (if negb (is_Outdoors (f_boundary_condition f)) then
       set_boundary_condition self Outdoors ;;
       for_each rect_aps (fun ap =>
         modify_sub ap.1 (with_sf_boundary_condition Outdoors))
     else ret tt) h = (Ok tt, h1) /\
    h_next h1 = h_next h.
Proof.
  intros Hf Hin.
  destruct (negb (is_Outdoors (f_boundary_condition f)));
    [|exists h; split; reflexivity].
  assert (Hset : exists h0, set_boundary_condition self Outdoors h = (Ok tt, h0) /\
                            h_next h0 = h_next h /\ h_subs h0 = h_subs h).
  { unfold set_boundary_condition.
    erewrite bind_of_ok; [|apply get_face_ok; exact Hf].
    destruct (negb (is_nil (f_apertures f)) || negb (is_nil (f_doors f)));
      (erewrite bind_of_ok; [|reflexivity]);
      (erewrite modify_face_ok; [|exact Hf]); eexists; repeat split. }
  destruct Hset as (h0 & Hset & Hn0 & Hs0).
  erewrite bind_of_ok; [|exact Hset].
  rewrite <- Hn0. rewrite <- Hs0 in Hin. clear Hset Hn0 Hs0 Hf.
  revert h0 Hin. induction rect_aps as [|ap rest IH]; intros h0 Hin.
  - exists h0. split; reflexivity.
  - apply Forall_cons in Hin as [[s Hs] Hin]. simpl.
    erewrite bind_of_ok; [|apply modify_sub_ok; exact Hs].
    destruct (IH (mkHeap (h_faces h0)
                    (<[ap.1 := with_sf_boundary_condition Outdoors s]> (h_subs h0))
                    (h_next h0))) as (h1 & Hrun & Hn).
    { eapply Forall_impl; [exact Hin|]. intros y Hy. simpl.
      apply lookup_insert_is_Some'. right. exact Hy. }
    exists h1. split; [exact Hrun | exact Hn].
Qed.

(** C3, amended.  Whenever [rectangularize_apertures] regenerates aperture
    geometry (the face has an aperture that is not a rectangle, and either
    no subdivision distance is given or a merge took place), it makes one
    new Aperture object for each regenerated geometry, in their order, and
    the object made for the geometry of index [i] is matched with the first
    original non-rectangular Aperture whose center is equivalent,
    coordinate by coordinate within the tolerance, to the center of the
    new geometry.  In the store that the call leaves, whether it returns or
    raises later, that object has the identifier and the operable flag of
    the original it is matched with, and its display name followed by the
    index; when no original has such a center, its identifier is that of
    the face followed by _RG and the index, and it is not operable. *)
Theorem rectangularize_apertures_matches_by_center self
    subdivision_distance max_separation merge_all tolerance angle_tolerance
    h f aps :
  h_faces h !! self = Some f ->
  Forall2 (fun l s => h_subs h !! l = Some s) (f_apertures f) aps ->
  let merging := bool_decide (max_separation <> None) && merge_all in
  let non_rect :=
    (sort_apertures (zip (f_apertures f) aps) merging tolerance
       (math_radians angle_tolerance)).2 in
  let non_rect_aps := map fst non_rect in
  let geos :=
    regenerated_geometries f (map snd non_rect) subdivision_distance
      max_separation merge_all tolerance angle_tolerance in
  non_rect <> [] ->
  regenerates (map snd non_rect) subdivision_distance max_separation merge_all
    = true ->
  let h' := (rectangularize_apertures self subdivision_distance max_separation
               merge_all tolerance angle_tolerance h).2 in
  forall i ap_face,
    geos !! i = Some ap_face ->
    exists new_ap,
      h_subs h' !! (h_next h + i) = Some new_ap /\
      sf_kind new_ap = IsAperture /\
      match find (center_matches ap_face tolerance) non_rect_aps with
      | Some old_ap =>
          sf_identifier new_ap = sf_identifier old_ap.2 /\
          sf_is_operable new_ap = sf_is_operable old_ap.2 /\
          sf_display_name new_ap = sf_display_name old_ap.2 +:+ "_" +:+ pretty i
      | None =>
          sf_identifier new_ap = f_identifier f +:+ "_RG" +:+ pretty i /\
          sf_is_operable new_ap = false
      end.
Proof.
  intros Hf Haps merging non_rect non_rect_aps geos Hnon Hregen h' i ap_face Hi.
  subst h'. unfold rectangularize_apertures.
  erewrite bind_of_ok; [|apply get_face_ok; exact Hf].
  erewrite bind_of_ok; [|apply snapshot_run; exact Haps].
  fold merging.
  set (apertures := zip (f_apertures f) aps) in *.
  assert (Hstore : Forall (fun ap : loc * SubFace => is_Some (h_subs h !! ap.1))
                          apertures).
  { subst apertures. clear -Haps.
    induction Haps as [|l s ls ss Hl _ IH]; simpl; constructor; eauto. }
  pose proof (sort_apertures_rect_in apertures merging tolerance
                (math_radians angle_tolerance) _ Hstore) as Hrect.
  assert (Hlen : (length apertures =? 0) = false).
  { destruct apertures; [|reflexivity]. exfalso. apply Hnon. reflexivity. }
  rewrite Hlen. clear Hlen.
  subst geos non_rect_aps non_rect.
  destruct (sort_apertures apertures merging tolerance (math_radians angle_tolerance))
    as [rect_aps non_rect]. simpl in *.
  destruct non_rect as [|first rest]; [congruence|].
  set (non_rect := first :: rest) in *.
  change (is_nil (map snd non_rect)) with false. cbv iota.
  destruct (reset_conditions_run self f rect_aps h Hf Hrect) as (h1 & Hreset & Hn1).
  erewrite bind_of_ok; [|exact Hreset].
  set (new_geos := regenerated_geometries f (map snd non_rect) subdivision_distance
                     max_separation merge_all tolerance angle_tolerance) in *.
  set (news := regenerated_apertures (f_identifier f) (map fst non_rect) tolerance
                 new_geos).
  destruct (new_subs_run news h1) as (subs2 & Hnew & Hat & _).
  match goal with
  | |- context [(?m h1).2] =>
      assert (Hrun : exists rest : list (loc * SubFace) -> M bool,
                (forall new_aps, keeps_identity (rest new_aps)) /\
                m h1 = (new_aps <- new_subs news ;; rest new_aps) h1)
  end.
  { unfold regenerates in Hregen. subst news new_geos.
    unfold regenerated_geometries.
    destruct subdivision_distance as [sd|], max_separation as [ms|];
      try discriminate Hregen;
      try (rewrite Hregen); cbv beta iota zeta;
      try (destruct (merge_all || negb merge_all && (1 <? length (map snd non_rect))));
      cbv beta iota zeta;
      (eexists; split; [|reflexivity]); intros new_aps;
      pose proof keeps_identity_remove_apertures;
      pose proof keeps_identity_add_apertures;
      pose proof keeps_identity_build_objects;
      identity_kept. }
  destruct Hrun as (finish & Hfinish & Hrun). rewrite Hrun. clear Hrun.
  erewrite bind_of_ok; [|exact Hnew].
  set (h2 := mkHeap (h_faces h1) subs2 (h_next h1 + length news)).
  set (made := regenerated_aperture (f_identifier f) (map fst non_rect) tolerance
                 i ap_face).
  assert (Hmade : news !! i = Some made)
    by (apply regenerated_apertures_lookup; exact Hi).
  destruct (Hfinish (zip (seq (h_next h1) (length news)) news) h2) as [_ Hkept].
  destruct (Hkept (h_next h1 + i) made) as (new_ap & Hlook & Hid).
  { simpl. apply lookup_lt_Some in Hmade. lia. }
  { simpl. apply Hat. exact Hmade. }
  exists new_ap. rewrite <- Hn1. split; [exact Hlook|].
  unfold identity in Hid. injection Hid as Hkind Hident Hname Hflag.
  rewrite Hkind, Hident, Hname, Hflag. subst made.
  unfold regenerated_aperture. rewrite find_existing_find.
  destruct (find (center_matches ap_face tolerance) (map fst non_rect))
    as [[l old]|]; repeat split.
Qed.

End RegeneratedRun.

Module RegenerationExamples.
Import Examples.
#[local] Existing Instance Flat.geometry.

(** C3 on [store_triangles], with the default arguments: each of the two
    triangular apertures gives way to its bounding rectangle, whose center
    is that of the triangle, and the new Apertures, objects 3 and 4, keep
    the identifiers of the originals. *)
Lemma rectangularize_apertures_matches_by_center_witness :
  let h' := (rectangularize_apertures 0 None None false (1 # 100) 1
               store_triangles).2 in
  sf_identifier <$> h_subs h' !! 3 = Some "A1" /\
  sf_identifier <$> h_subs h' !! 4 = Some "A2".
Proof.
  intros h'.
  pose proof (rectangularize_apertures_matches_by_center 0 None None false
                (1 # 100) 1 store_triangles
                (face_with "F" (square 0 0 10) [1; 2] [] Outdoors)
                [aperture_at "A1" (triangle 1 1 2) (Some 0);
                 aperture_at "A2" (triangle 5 1 2) (Some 0)]
                eq_refl) as H.
  cbv zeta in H. fold h' in H.
  assert (Haps : Forall2 (fun l s => h_subs store_triangles !! l = Some s) [1; 2]
                   [aperture_at "A1" (triangle 1 1 2) (Some 0);
                    aperture_at "A2" (triangle 5 1 2) (Some 0)])
    by (repeat constructor).
  specialize (H Haps ltac:(intros E; discriminate E) eq_refl).
  split.
  - destruct (H 0 _ eq_refl) as (new_ap & Hl & _ & Hid & _).
    change (h_subs h' !! 3 = Some new_ap) in Hl. rewrite Hl. simpl.
    rewrite Hid. reflexivity.
  - destruct (H 1 _ eq_refl) as (new_ap & Hl & _ & Hid & _).
    change (h_subs h' !! 4 = Some new_ap) in Hl. rewrite Hl. simpl.
    rewrite Hid. reflexivity.
Defined.

(** C3, as stated, fails on [store_nested].  The center of the first
    original aperture, A1, lies within the bounding rectangle of the
    geometry regenerated for the second one, A2, so that the rule of the
    claim would give the new Aperture the identifier of A1; the centers are
    not equivalent, and the new Aperture, object 4, the only one that the
    face is left with, has the identifier of A2. *)
Lemma rectangularize_apertures_first_in_rectangle_not_matched :
  let r := rectangularize_apertures 0 None None false (1 # 100) 1 store_nested in
  let first := (1, aperture_at "A1" (triangle 2 2 2) (Some 0)) in
  r.1 = Ok true /\
  f_apertures <$> h_faces r.2 !! 0 = Some [4] /\
  (fun new_ap => spec_center_in_bounding_rectangle (sf_geometry new_ap) first)
    <$> h_subs r.2 !! 4 = Some true /\
  (fun new_ap => center_matches (sf_geometry new_ap) (1 # 100) first)
    <$> h_subs r.2 !! 4 = Some false /\
  sf_identifier <$> h_subs r.2 !! 4 = Some "A2" /\
  sf_identifier first.2 = "A1".
Proof. cbv zeta. repeat split; reflexivity. Qed.

End RegenerationExamples.

(** ** Removal and addition of sub-faces *)

Section SubFaceOutcomes.
Context `{Geo : Geometry}.

(** X1.  On a face of the store whose apertures the store holds,
    [remove_sub_faces] returns.  The face is left with no aperture, no door
    and no cached punched geometry, and is otherwise what it was; every
    aperture of the face has lost its parent; every other object of the
    store, the doors of the face among them, is exactly what it was; no
    object is made. *)
Theorem remove_sub_faces_clears self h f :
  h_faces h !! self = Some f ->
  subs_in_store h (f_apertures f) ->
  exists h',
    remove_sub_faces self h = (Ok tt, h') /\
    h_faces h' = <[self := cleared f]> (h_faces h) /\
    h_next h' = h_next h /\
    (forall x, x ∈ f_apertures f ->
       h_subs h' !! x = with_sf_parent None <$> h_subs h !! x) /\
    (forall x, x ∉ f_apertures f -> h_subs h' !! x = h_subs h !! x).
Proof.
  intros Hf Hl.
  destruct (remove_sub_faces_run self h f Hf Hl) as (subs' & Hrun & Hin & Hout).
  eexists. split; [exact Hrun|]. repeat split; assumption.
Qed.

Lemma accepts_sub_faces_refused self sub append h f :
  h_faces h !! self = Some f ->
  accepts_sub_faces f = false ->
  attach_sub_face self sub append h = (Raise AssertionError, h).
Proof.
  intros Hf Hacc. unfold attach_sub_face.
  erewrite bind_of_raise; [reflexivity|].
  rewrite (accepts_sub_faces_check self h f Hf), Hacc. reflexivity.
Qed.

(** X2.  [add_aperture] on a face and an object of the store.  When the
    object is an Aperture and the face takes sub-faces (an Outdoors
    boundary condition, a type other than AirBoundary) it returns: the
    Aperture is the last aperture of the face, the face is its parent, its
    geometry is flipped if its normal was reversed, and the cached punched
    geometry is reset.  Otherwise it raises AssertionError and nothing is
    written. *)
Theorem add_aperture_outcome self aperture h f s :
  h_faces h !! self = Some f ->
  h_subs h !! aperture = Some s ->
  add_aperture self aperture h
    = if bool_decide (sf_kind s = IsAperture) && accepts_sub_faces f
      then (Ok tt,
            mkHeap (<[self := grown f [aperture]]> (h_faces h))
                   (<[aperture := attached self f s]> (h_subs h))
                   (h_next h))
      else (Raise AssertionError, h).
Proof.
  intros Hf Hs.
  destruct (decide (sf_kind s = IsAperture)) as [Hk|Hk].
  - rewrite (bool_decide_eq_true_2 _ Hk). simpl andb.
    destruct (accepts_sub_faces f) eqn:Hacc.
    + apply (add_aperture_run self aperture h f s Hf Hacc Hs Hk).
    + unfold add_aperture.
      erewrite bind_of_ok; [|apply get_sub_ok; exact Hs].
      rewrite (bool_decide_eq_true_2 _ Hk).
      erewrite (bind_of_ok (assert_ _)); [|reflexivity].
      apply (accepts_sub_faces_refused self aperture _ h f Hf Hacc).
  - rewrite (bool_decide_eq_false_2 _ Hk). simpl andb.
    unfold add_aperture.
    erewrite bind_of_ok; [|apply get_sub_ok; exact Hs].
    rewrite (bool_decide_eq_false_2 _ Hk). reflexivity.
Qed.

(** X3.  [add_door] on a face and an object of the store: as
    [add_aperture], for a Door, which becomes the last door of the face. *)
Theorem add_door_outcome self door h f s :
  h_faces h !! self = Some f ->
  h_subs h !! door = Some s ->
  add_door self door h
    = if bool_decide (sf_kind s = IsDoor) && accepts_sub_faces f
      then (Ok tt,
            mkHeap (<[self := grown_doors f [door]]> (h_faces h))
                   (<[door := attached self f s]> (h_subs h))
                   (h_next h))
      else (Raise AssertionError, h).
Proof.
  intros Hf Hs.
  destruct (decide (sf_kind s = IsDoor)) as [Hk|Hk].
  - rewrite (bool_decide_eq_true_2 _ Hk). simpl andb.
    destruct (accepts_sub_faces f) eqn:Hacc.
    + apply (add_door_run self door h f s Hf Hacc Hs Hk).
    + unfold add_door.
      erewrite bind_of_ok; [|apply get_sub_ok; exact Hs].
      rewrite (bool_decide_eq_true_2 _ Hk).
      erewrite (bind_of_ok (assert_ _)); [|reflexivity].
      apply (accepts_sub_faces_refused self door _ h f Hf Hacc).
  - rewrite (bool_decide_eq_false_2 _ Hk). simpl andb.
    unfold add_door.
    erewrite bind_of_ok; [|apply get_sub_ok; exact Hs].
    rewrite (bool_decide_eq_false_2 _ Hk). reflexivity.
Qed.

Lemma for_each_app {A} (l1 l2 : list A) body h :
  for_each (l1 ++ l2) body h = (for_each l1 body ;; for_each l2 body) h.
Proof.
  revert h. induction l1 as [|x l1 IH]; intros h; simpl; [reflexivity|].
  rewrite bind_bind.
  destruct (body x h) as [[[]|e] h1] eqn:E.
  - rewrite !(bind_of_ok _ _ _ _ _ E). apply IH.
  - rewrite !(bind_of_raise _ _ _ _ _ E). reflexivity.
Qed.

(** X4.  [add_apertures] on a face that takes sub-faces and a list that
    starts with distinct Apertures of the store.  When the whole list is
    made of them, the call returns and the face has them as its last
    apertures, in their order, each with the face for its parent (with an
    empty list nothing is written).  When they are followed by an object of
    the store that is not an Aperture, the call raises AssertionError at
    that object, and the Apertures before it stay added: the face keeps
    them, and the rest of the list is not looked at. *)
Theorem add_apertures_outcome self good ss h f :
  h_faces h !! self = Some f ->
  accepts_sub_faces f = true ->
  Forall2 (fun l s => h_subs h !! l = Some s /\ sf_kind s = IsAperture) good ss ->
  NoDup good ->
  let faces' :=
    if is_nil good then h_faces h
    else <[self := grown f good]> (h_faces h) in
  (exists h',
     add_apertures self good h = (Ok tt, h') /\
     h_faces h' = faces' /\
     (forall k l s, good !! k = Some l -> ss !! k = Some s ->
        h_subs h' !! l = Some (attached self f s))) /\
  (forall bad s rest,
     bad ∉ good ->
     h_subs h !! bad = Some s ->
     sf_kind s <> IsAperture ->
     exists h',
       add_apertures self (good ++ bad :: rest) h = (Raise AssertionError, h') /\
       h_faces h' = faces' /\
       h_subs h' !! bad = Some s).
Proof.
  intros Hf Hacc Hall Hnd faces'.
  destruct (add_apertures_run self good ss h f Hf Hacc Hall Hnd)
    as (subs' & Hrun & Hin & Hout).
  fold faces' in Hrun. split.
  - eexists. split; [exact Hrun|]. split; [reflexivity | exact Hin].
  - intros bad s rest Hbad Hs Hk. eexists. split; [|split].
    + unfold add_apertures in *. rewrite for_each_app.
      erewrite bind_of_ok; [|exact Hrun].
      simpl for_each. erewrite bind_of_raise; [reflexivity|].
      unfold add_aperture.
      erewrite bind_of_ok;
        [|apply get_sub_ok; simpl; rewrite (Hout bad Hbad); exact Hs].
      rewrite (bool_decide_eq_false_2 _ Hk). reflexivity.
    + reflexivity.
    + simpl. rewrite (Hout bad Hbad). exact Hs.
Qed.

End SubFaceOutcomes.

Module SubFaceExamples.
Import Examples.
#[local] Existing Instance Flat.geometry.

(** X1 on the face of [store_door]: the door, object 2, is what it was. *)
Lemma remove_sub_faces_clears_witness :
  exists h',
    remove_sub_faces 0 store_door = (Ok tt, h') /\
    h_subs h' !! 2 = h_subs store_door !! 2.
Proof.
  destruct (remove_sub_faces_clears 0 store_door
              (face_with "F" (square 0 0 4) [1] [2] Outdoors) eq_refl)
    as (h' & Hrun & _ & _ & _ & Hout).
  - constructor; [eexists; reflexivity | constructor].
  - exists h'. split; [exact Hrun|]. apply Hout.
    intros H. apply list_elem_of_singleton in H. discriminate H.
Defined.

(** X2: the door of [store_door] is no Aperture. *)
Lemma add_aperture_outcome_witness :
  add_aperture 0 2 store_door = (Raise AssertionError, store_door).
Proof.
  exact (add_aperture_outcome 0 2 store_door
           (face_with "F" (square 0 0 4) [1] [2] Outdoors)
           (door_at "D" (square 3 0 1) (Some 0)) eq_refl eq_refl).
Defined.

(** X3: the aperture of the interior face of [store_interior] is no Door. *)
Lemma add_door_outcome_witness :
  add_door 0 1 store_interior = (Raise AssertionError, store_interior).
Proof.
  exact (add_door_outcome 0 1 store_interior
           (face_with "F" (square 0 0 4) [1] [] (Surface ["G"] false))
           (aperture_at "A" (square 1 1 1) (Some 0)) eq_refl eq_refl).
Defined.

(** X4 on the face of [store_loose], given its loose aperture, object 1,
    and then its loose door, object 2: the call raises at the door, and the
    aperture stays added. *)
Lemma add_apertures_outcome_witness :
  exists h',
    add_apertures 0 [1; 2] store_loose = (Raise AssertionError, h') /\
    f_apertures <$> h_faces h' !! 0 = Some [1].
Proof.
  destruct (add_apertures_outcome 0 [1]
              [aperture_at "A" (square 1 1 1) None] store_loose
              (face_with "F" (square 0 0 4) [] [] Outdoors))
    as [_ Hbad].
  - reflexivity.
  - reflexivity.
  - constructor; [split; reflexivity | constructor].
  - apply NoDup_singleton.
  - destruct (Hbad 2 (door_at "D" (square 2 0 1) None) [])
      as (h' & Hrun & Hfaces & _).
    + intros H. apply list_elem_of_singleton in H. discriminate H.
    + reflexivity.
    + discriminate.
    + exists h'. split; [exact Hrun|]. rewrite Hfaces. reflexivity.
Defined.

End SubFaceExamples.

(** ** The other builders of apertures *)

Section BuilderOutcomes.
Context `{Geo : Geometry}.

(** The check, the removal and the closing loop that the builders share. *)
Lemma checked_rebuild_run self h f (rest : M unit) ap_faces :
  h_faces h !! self = Some f ->
  subs_in_store h (f_apertures f) ->
  (forall h1, h_faces h1 !! self = Some (cleared f) ->
              rest h1 = add_generated_apertures self ap_faces h1) ->
  let r := (_acceptable_sub_face_check self ;; remove_sub_faces self ;; rest) h in
  if accepts_sub_faces f
  then rebuilt_with self h f ap_faces r
  else r = (Raise AssertionError, h).
Proof.
  intros Hf Hl Hrest r. subst r.
  destruct (accepts_sub_faces f) eqn:Hacc.
  2:{ erewrite bind_of_raise; [reflexivity|].
      rewrite (accepts_sub_faces_check self h f Hf), Hacc. reflexivity. }
  erewrite bind_of_ok;
    [|rewrite (accepts_sub_faces_check self h f Hf), Hacc; reflexivity].
  destruct (remove_sub_faces_run self h f Hf Hl) as (subs1 & Hrun & _ & _).
  erewrite bind_of_ok; [|exact Hrun].
  set (h1 := mkHeap (<[self:=cleared f]> (h_faces h)) subs1 (h_next h)).
  assert (Hf1 : h_faces h1 !! self = Some (cleared f))
    by (simpl; apply lookup_insert_eq).
  rewrite (Hrest h1 Hf1).
  destruct (add_generated_apertures_run self ap_faces h1 (cleared f) Hf1 Hacc eq_refl)
    as (subs2 & Hrun2 & _ & Hnew).
  rewrite Hrun2. unfold rebuilt_with. simpl fst. simpl snd.
  set (h2 := mkHeap _ subs2 _).
  assert (Hf2 : h_faces h2 !! self
                = Some (with_apertures (seq (h_next h) (length ap_faces)) (cleared f)))
    by (simpl; apply lookup_insert_eq).
  destruct (generated_in_store subs2 self (cleared f) ap_faces (h_next h) 0 Hnew)
    as (ss & Hss & Hgeo).
  split; [reflexivity|]. split.
  { simpl. rewrite insert_insert_eq. reflexivity. }
  split; [exact Hnew|].
  rewrite (aperture_area_run self h2 _ ss Hf2 Hss).
  rewrite <- (map_map sf_geometry f3_area), Hgeo, map_map. reflexivity.
Qed.

(** X5.  [apertures_by_ratio_rectangle] on a face of the store whose
    apertures the store holds.  It raises AssertionError, writing nothing,
    when the ratio lies outside [0, 0.95] (0.95 itself is accepted) or the
    face does not take sub-faces.  Otherwise it returns, and the face is
    left with no door and with one new Aperture for each geometry that the
    geometry library makes for the ratio and the dimensions: none for the
    ratio 0 and for a degenerate face. *)
Theorem apertures_by_ratio_rectangle_spec self ratio aperture_height sill_height
    horizontal_separation vertical_separation tolerance h f :
  h_faces h !! self = Some f ->
  subs_in_store h (f_apertures f) ->
  let r := apertures_by_ratio_rectangle self ratio aperture_height sill_height
             horizontal_separation vertical_separation tolerance h in
  if Qleb 0 ratio && Qleb ratio (95 # 100) && accepts_sub_faces f
  then rebuilt_with self h f
         (ratio_rectangle_faces f ratio aperture_height sill_height
            horizontal_separation vertical_separation tolerance) r
  else r = (Raise AssertionError, h).
Proof.
  intros Hf Hl r. subst r. unfold apertures_by_ratio_rectangle.
  destruct (Qleb 0 ratio && Qleb ratio (95 # 100)); [|reflexivity].
  erewrite (bind_of_ok (assert_ true)); [|reflexivity]. simpl andb.
  apply (checked_rebuild_run self h f _ _ Hf Hl).
  intros h1 Hf1. unfold ratio_rectangle_faces.
  destruct (Qeqb ratio 0); [reflexivity|].
  erewrite bind_of_ok; [|apply get_face_ok; exact Hf1].
  change (f_geometry (cleared f)) with (f_geometry f).
  destruct (f3_remove_colinear_vertices (f_geometry f) tolerance); reflexivity.
Qed.

(** X6.  [apertures_by_ratio_gridded] on a face of the store whose
    apertures the store holds.  It raises AssertionError, writing nothing,
    when the ratio lies outside [0, 1) or the face does not take sub-faces.
    Otherwise it returns, and the face is left with no door and with one
    new Aperture for each cell that the geometry library makes for the ratio
    and the grid: none for the ratio 0 and for a degenerate face. *)
Theorem apertures_by_ratio_gridded_spec self ratio x_dim y_dim tolerance h f :
  h_faces h !! self = Some f ->
  subs_in_store h (f_apertures f) ->
  let r := apertures_by_ratio_gridded self ratio x_dim y_dim tolerance h in
  if Qleb 0 ratio && Qltb ratio 1 && accepts_sub_faces f
  then rebuilt_with self h f (ratio_gridded_faces f ratio x_dim y_dim tolerance) r
  else r = (Raise AssertionError, h).
Proof.
  intros Hf Hl r. subst r. unfold apertures_by_ratio_gridded.
  destruct (Qleb 0 ratio && Qltb ratio 1); [|reflexivity].
  erewrite (bind_of_ok (assert_ true)); [|reflexivity]. simpl andb.
  apply (checked_rebuild_run self h f _ _ Hf Hl).
  intros h1 Hf1. unfold ratio_gridded_faces.
  destruct (Qeqb ratio 0); [reflexivity|].
  erewrite bind_of_ok; [|apply get_face_ok; exact Hf1].
  change (f_geometry (cleared f)) with (f_geometry f).
  destruct (f3_remove_colinear_vertices (f_geometry f) tolerance); reflexivity.
Qed.

(** X7.  [apertures_by_width_height_rectangle] on a face of the store
    whose apertures the store holds.  A horizontal separation that is not
    positive raises AssertionError.  With a height or a width that is not
    positive the call returns at once and writes nothing, whatever the
    face: the check of the face is not reached, and the sub-faces stay.
    Otherwise the call raises AssertionError, writing nothing, on a face
    that does not take sub-faces, and else leaves the face with no door and
    with one new Aperture for each geometry of the library. *)
Theorem apertures_by_width_height_rectangle_spec self aperture_height
    aperture_width sill_height horizontal_separation tolerance h f :
  h_faces h !! self = Some f ->
  subs_in_store h (f_apertures f) ->
  let r := apertures_by_width_height_rectangle self aperture_height aperture_width
             sill_height horizontal_separation tolerance h in
  if negb (Qltb 0 horizontal_separation) then r = (Raise AssertionError, h)
  else if Qleb aperture_height 0 || Qleb aperture_width 0 then r = (Ok tt, h)
  else if accepts_sub_faces f
  then rebuilt_with self h f
         (width_height_faces f aperture_height aperture_width sill_height
            horizontal_separation tolerance) r
  else r = (Raise AssertionError, h).
Proof.
  intros Hf Hl r. subst r. unfold apertures_by_width_height_rectangle.
  destruct (Qltb 0 horizontal_separation); simpl negb; cbv iota; [|reflexivity].
  erewrite (bind_of_ok (assert_ true)); [|reflexivity].
  destruct (Qleb aperture_height 0 || Qleb aperture_width 0); [reflexivity|].
  apply (checked_rebuild_run self h f _ _ Hf Hl).
  intros h1 Hf1. unfold width_height_faces.
  erewrite bind_of_ok; [|apply get_face_ok; exact Hf1].
  change (f_geometry (cleared f)) with (f_geometry f).
  destruct (f3_remove_colinear_vertices (f_geometry f) tolerance); reflexivity.
Qed.

End BuilderOutcomes.

Module BuilderOutcomeExamples.
Import Examples.
#[local] Existing Instance Flat.geometry.

Lemma store_door_apertures : subs_in_store store_door [1].
Proof. constructor; [eexists; reflexivity | constructor]. Qed.

Lemma store_interior_apertures : subs_in_store store_interior [1].
Proof. constructor; [eexists; reflexivity | constructor]. Qed.

(** X5 on the face of [store_door] for the ratio 0.95, the largest one
    accepted: the new aperture is object 3. *)
Lemma apertures_by_ratio_rectangle_spec_witness :
  let r := apertures_by_ratio_rectangle 0 (95 # 100) 2 (8 # 10) 3 0 (1 # 100)
             store_door in
  r.1 = Ok tt /\ f_apertures <$> h_faces r.2 !! 0 = Some [3].
Proof.
  intros r.
  destruct (apertures_by_ratio_rectangle_spec 0 (95 # 100) 2 (8 # 10) 3 0 (1 # 100)
              store_door (face_with "F" (square 0 0 4) [1] [2] Outdoors)
              eq_refl store_door_apertures) as (H1 & H2 & _).
  split; [exact H1|]. subst r. rewrite H2. reflexivity.
Defined.

(** X6 on the face of [store_door] for the ratio 0: no sub-face is left. *)
Lemma apertures_by_ratio_gridded_spec_witness :
  let r := apertures_by_ratio_gridded 0 0 1 None (1 # 100) store_door in
  r.1 = Ok tt /\
  f_apertures <$> h_faces r.2 !! 0 = Some [] /\
  f_doors <$> h_faces r.2 !! 0 = Some [].
Proof.
  intros r.
  destruct (apertures_by_ratio_gridded_spec 0 0 1 None (1 # 100)
              store_door (face_with "F" (square 0 0 4) [1] [2] Outdoors)
              eq_refl store_door_apertures) as (H1 & H2 & _).
  split; [exact H1|]. subst r. rewrite H2. split; reflexivity.
Defined.

(** X7 on the interior face of [store_interior], which takes no sub-face:
    with a height of 0 the call returns and the aperture stays. *)
Lemma apertures_by_width_height_rectangle_spec_witness :
  apertures_by_width_height_rectangle 0 0 2 (8 # 10) 3 (1 # 100) store_interior
    = (Ok tt, store_interior).
Proof.
  exact (apertures_by_width_height_rectangle_spec 0 0 2 (8 # 10) 3 (1 # 100)
           store_interior
           (face_with "F" (square 0 0 4) [1] [] (Surface ["G"] false))
           eq_refl store_interior_apertures).
Defined.

End BuilderOutcomeExamples.

(** ** A single aperture, the cache, the type and the transforms *)

Section FaceState.
Context `{Geo : Geometry}.

(** X8.  [aperture_by_width_height] on a face of the store.  With a width
    or a height that is not positive it returns None and writes nothing,
    whatever the face.  Otherwise it raises AssertionError, writing nothing,
    on a face that does not take sub-faces; and else it returns a new
    Aperture, which is added after the apertures that the face has: the
    sub-faces of the face stay, and no other object is written.  The new
    Aperture is not operable, and its identifier is the one given or, when
    none or the empty one is given, the identifier of the face followed by
    [_Glz] and the number of apertures that the face had. *)
Theorem aperture_by_width_height_outcome self width height sill_height
    aperture_identifier h f :
  h_faces h !! self = Some f ->
  let r := aperture_by_width_height self width height sill_height
             aperture_identifier h in
  if Qleb width 0 || Qleb height 0 then r = (Ok None, h)
  else if accepts_sub_faces f
  then exists s,
         r = (Ok (Some (h_next h)),
              mkHeap (<[self := grown f [h_next h]]> (h_faces h))
                     (<[h_next h := s]> (h_subs h))
                     (S (h_next h))) /\
         sf_kind s = IsAperture /\
         sf_parent s = Some self /\
         sf_is_operable s = false /\
         sf_identifier s
           = match aperture_identifier with
             | Some (String c t) => String c t
             | _ => glz_identifier (f_identifier f) (length (f_apertures f))
             end
  else r = (Raise AssertionError, h).
Proof.
  intros Hf r. subst r. unfold aperture_by_width_height.
  destruct (Qleb width 0 || Qleb height 0); [reflexivity|].
  destruct (accepts_sub_faces f) eqn:Hacc.
  2:{ erewrite bind_of_raise; [reflexivity|].
      rewrite (accepts_sub_faces_check self h f Hf), Hacc. reflexivity. }
  erewrite bind_of_ok;
    [|rewrite (accepts_sub_faces_check self h f Hf), Hacc; reflexivity].
  erewrite bind_of_ok; [|apply get_face_ok; exact Hf].
  cbv zeta.
  match goal with
  | |- context [new_sub (Aperture ?i ?g false)] =>
      pose proof (add_new_aperture_run self h f i g Hf Hacc) as Hrun;
      set (identifier := i) in *; set (geometry := g) in *
  end.
  unfold bind at 1, new_sub at 1 in Hrun.
  unfold bind at 1, new_sub at 1.
  erewrite bind_of_ok; [|exact Hrun].
  eexists. split; [reflexivity|]. repeat split.
Qed.

(** X9.  [punched_geometry] on a face whose sub-faces the store holds
    returns the cached geometry if there is one and else the geometry
    punched by the apertures and the doors (the geometry of the face itself
    when it has none), which it caches; nothing else is written.  From then
    on the call returns the same geometry and writes nothing, whatever has
    become of the sub-face objects in the meantime: only a method of the
    face resets the cache. *)
Theorem punched_geometry_cached self h f ss :
  h_faces h !! self = Some f ->
  Forall2 (fun x s => h_subs h !! x = Some s) (f_apertures f ++ f_doors f) ss ->
  let g := match f_punched_geometry f with
           | Some g => g
           | None => compute_punched_geometry (f_geometry f) ss
           end in
  let faces' := <[self := with_punched_geometry (Some g) f]> (h_faces h) in
  punched_geometry self h = (Ok g, mkHeap faces' (h_subs h) (h_next h)) /\
  (forall subs n,
     punched_geometry self (mkHeap faces' subs n) = (Ok g, mkHeap faces' subs n)).
Proof.
  intros Hf Hss g faces'. split.
  - unfold punched_geometry.
    erewrite bind_of_ok; [|apply get_face_ok; exact Hf].
    subst faces' g. destruct (f_punched_geometry f) as [g|] eqn:Hp.
    + unfold ret. f_equal.
      replace (with_punched_geometry (Some g) f) with f
        by (destruct f; simpl in *; subst; reflexivity).
      rewrite (insert_id _ _ _ Hf). symmetry. apply heap_eta.
    + erewrite bind_of_ok; [|apply map_M_get_sub_run; exact Hss].
      cbv zeta.
      erewrite bind_of_ok; [|apply modify_face_ok; exact Hf]. reflexivity.
  - intros subs n. unfold punched_geometry.
    erewrite bind_of_ok;
      [|apply get_face_ok; simpl; subst faces'; apply lookup_insert_eq].
    reflexivity.
Qed.





End FaceState.

Module FaceStateExamples.
Import Examples.
#[local] Existing Instance Flat.geometry.

(** X8 on the face of [store_door], which has one aperture: the new one is
    object 3, named after the face and the number 1. *)
Lemma aperture_by_width_height_outcome_witness :
  exists s,
    aperture_by_width_height 0 2 2 1 None store_door
      = (Ok (Some 3),
         mkHeap (<[0 := grown (face_with "F" (square 0 0 4) [1] [2] Outdoors) [3]]>
                   (h_faces store_door))
                (<[3 := s]> (h_subs store_door)) 4) /\
    sf_identifier s = "F_Glz1".
Proof.
  destruct (aperture_by_width_height_outcome 0 2 2 1 None store_door
              (face_with "F" (square 0 0 4) [1] [2] Outdoors) eq_refl)
    as (s & Hrun & _ & _ & _ & Hid).
  exists s. split; [exact Hrun | exact Hid].
Defined.

(** X9 on the face of [store_door]: the geometry that the first call
    returns is returned again once the aperture and the door are gone from
    the store. *)
Lemma punched_geometry_cached_witness :
  exists g h',
    punched_geometry 0 store_door = (Ok g, h') /\
    (punched_geometry 0 (mkHeap (h_faces h') ∅ 3)).1 = Ok g.
Proof.
  destruct (punched_geometry_cached 0 store_door
              (face_with "F" (square 0 0 4) [1] [2] Outdoors)
              [aperture_at "A" (square 1 1 1) (Some 0);
               door_at "D" (square 3 0 1) (Some 0)] eq_refl)
    as [Hrun Hagain].
  - repeat constructor.
  - eexists _, _. split; [exact Hrun|]. simpl h_faces. rewrite Hagain.
    reflexivity.
Defined.




End FaceStateExamples.

(** ** Removal of the degenerate sub-faces *)

Section Degenerate.
Context `{Geo : Geometry}.

Lemma drop_degenerate_run tolerance l : forall h,
  NoDup l ->
  subs_in_store h l ->
  exists subs',
    drop_degenerate l tolerance h
      = (Ok (List.filter (standing h tolerance) l),
         mkHeap (h_faces h) subs' (h_next h)) /\
    (forall x, x ∈ l -> subs' !! x = cleaned tolerance <$> h_subs h !! x) /\
    (forall x, x ∉ l -> subs' !! x = h_subs h !! x).
Proof.
  induction l as [|x l IH]; intros h Hnd Hl.
  - exists (h_subs h). simpl. unfold ret. rewrite heap_eta.
    split; [reflexivity|]. split; [|reflexivity].
    intros x Hx. apply elem_of_nil in Hx. destruct Hx.
  - apply NoDup_cons in Hnd as [Hx Hnd].
    apply Forall_cons in Hl as [[s Hs] Hl].
    set (h1 := mkHeap (h_faces h) (<[x := cleaned tolerance s]> (h_subs h)) (h_next h)).
    assert (Hfirst :
      try_except (sub_remove_colinear_vertices x tolerance ;; ret true)
                 (fun e => bool_decide (e = ValueError)) (ret false) h
      = (Ok (standing h tolerance x), h1)).
    { unfold try_except, sub_remove_colinear_vertices, standing, cleaned.
      rewrite bind_bind.
      erewrite bind_of_ok; [|apply get_sub_ok; exact Hs]. rewrite Hs.
      subst h1. unfold cleaned.
      destruct (f3_remove_colinear_vertices (sf_geometry s) tolerance).
      - reflexivity.
      - simpl. unfold ret. rewrite (insert_id _ _ _ Hs), heap_eta. reflexivity. }
    destruct (IH h1 Hnd) as (subs' & Hrun & Hin & Hout).
    { eapply Forall_impl; [exact Hl|]. intros y Hy. simpl.
      apply lookup_insert_is_Some'. right. exact Hy. }
    assert (Hsame : List.filter (standing h1 tolerance) l
                    = List.filter (standing h tolerance) l).
    { apply List.filter_ext_in. intros y Hy. apply list_elem_of_In in Hy.
      unfold standing. simpl.
      rewrite lookup_insert_ne by (intros ->; contradiction). reflexivity. }
    rewrite Hsame in Hrun.
    exists subs'. split; [|split].
    + cbn [drop_degenerate].
      erewrite bind_of_ok; [|exact Hfirst].
      erewrite bind_of_ok; [|exact Hrun].
      simpl List.filter. destruct (standing h tolerance x); reflexivity.
    + intros y Hy. apply elem_of_cons in Hy as [->|Hy].
      * rewrite (Hout x Hx). simpl. rewrite lookup_insert_eq, Hs. reflexivity.
      * rewrite (Hin y Hy). simpl.
        rewrite lookup_insert_ne by (intros ->; contradiction). reflexivity.
    + intros y Hy. apply not_elem_of_cons in Hy as [Hne Hyl].
      rewrite (Hout y Hyl). simpl. rewrite lookup_insert_ne by congruence.
      reflexivity.
Qed.

(** X12.  [remove_degenerate_sub_faces] on a face whose apertures and
    doors are distinct objects of the store.  It returns, catching the
    ValueError of every degenerate sub-face.  The face keeps, in their
    order, the apertures and the doors whose geometry is not degenerate,
    and these have their colinear vertices removed; nothing else of the
    face is written, the cached punched geometry included.  A sub-face that
    is dropped is the object it was: it still names the face as its
    parent.  No other object is written. *)
Theorem remove_degenerate_sub_faces_outcome self tolerance h f :
  h_faces h !! self = Some f ->
  subs_in_store h (sub_faces f) ->
  NoDup (sub_faces f) ->
  exists subs',
    remove_degenerate_sub_faces self tolerance h
      = (Ok tt,
         mkHeap (<[self :=
                    with_doors (List.filter (standing h tolerance) (f_doors f))
                      (with_apertures
                         (List.filter (standing h tolerance) (f_apertures f)) f)]>
                   (h_faces h))
                subs' (h_next h)) /\
    (forall x, x ∈ sub_faces f -> subs' !! x = cleaned tolerance <$> h_subs h !! x) /\
    (forall x, x ∉ sub_faces f -> subs' !! x = h_subs h !! x).
Proof.
  intros Hf Hl Hnd. unfold sub_faces in *.
  apply NoDup_app in Hnd as (Hna & Hdisj & Hndr).
  apply Forall_app in Hl as [Hla Hld].
  destruct (drop_degenerate_run tolerance (f_apertures f) h Hna Hla)
    as (subs1 & Hrun1 & Hin1 & Hout1).
  set (f1 := with_apertures (List.filter (standing h tolerance) (f_apertures f)) f).
  set (h2 := mkHeap (<[self := f1]> (h_faces h)) subs1 (h_next h)).
  destruct (drop_degenerate_run tolerance (f_doors f) h2 Hndr)
    as (subs2 & Hrun2 & Hin2 & Hout2).
  { eapply Forall_impl; [exact Hld|]. intros y Hy. simpl.
    destruct (decide (y ∈ f_apertures f)) as [Hya|Hya].
    - rewrite (Hin1 y Hya). apply fmap_is_Some. exact Hy.
    - rewrite (Hout1 y Hya). exact Hy. }
  assert (Hsame : List.filter (standing h2 tolerance) (f_doors f)
                  = List.filter (standing h tolerance) (f_doors f)).
  { apply List.filter_ext_in. intros y Hy. apply list_elem_of_In in Hy.
    unfold standing. simpl. rewrite Hout1; [reflexivity|].
    intros Hya. exact (Hdisj y Hya Hy). }
  rewrite Hsame in Hrun2.
  exists subs2. split; [|split].
  - unfold remove_degenerate_sub_faces.
    erewrite bind_of_ok; [|apply get_face_ok; exact Hf].
    erewrite bind_of_ok; [|exact Hrun1].
    erewrite bind_of_ok; [|apply modify_face_ok; simpl; exact Hf].
    erewrite bind_of_ok; [|apply get_face_ok; simpl; apply lookup_insert_eq].
    change (f_doors (with_apertures _ f)) with (f_doors f).
    erewrite bind_of_ok; [|exact Hrun2].
    erewrite modify_face_ok; [|simpl; apply lookup_insert_eq].
    simpl. rewrite insert_insert_eq. reflexivity.
  - intros x Hx. apply elem_of_app in Hx as [Hx|Hx].
    + rewrite (Hout2 x (Hdisj x Hx)). simpl. apply Hin1. exact Hx.
    + rewrite (Hin2 x Hx). simpl. rewrite Hout1; [reflexivity|].
      intros Hxa. exact (Hdisj x Hxa Hx).
  - intros x Hx. apply not_elem_of_app in Hx as [Hxa Hxd].
    rewrite (Hout2 x Hxd). simpl. apply Hout1. exact Hxa.
Qed.

End Degenerate.

Module DegenerateExamples.
Import Examples.
#[local] Existing Instance Flat.geometry.

(** X12 on the face of [store_sliver]: the sliver is dropped from the face
    and still names the face as its parent. *)
Lemma remove_degenerate_sub_faces_outcome_witness :
  let r := remove_degenerate_sub_faces 0 (1 # 100) store_sliver in
  r.1 = Ok tt /\
  f_apertures <$> h_faces r.2 !! 0 = Some [] /\
  sf_parent <$> h_subs r.2 !! 1 = Some (Some 0).
Proof.
  intros r.
  destruct (remove_degenerate_sub_faces_outcome 0 (1 # 100) store_sliver
              (face_with "F" (square 0 0 4) [1] [] Outdoors) eq_refl)
    as (subs' & Hrun & Hin & _).
  - repeat constructor. eexists; reflexivity.
  - apply NoDup_singleton.
  - subst r. rewrite Hrun. split; [reflexivity|]. split; [reflexivity|].
    simpl. rewrite (Hin 1); [reflexivity|].
    apply list_elem_of_singleton. reflexivity.
Defined.

End DegenerateExamples.

(** ** The commands that add windows *)

Section BuildersOnTheStore.
Context `{Geo : Geometry}.

(** The check, the removal and the closing loop of a builder, with the
    store that they leave. *)
Lemma checked_rebuild_heap self h f (rest : M unit) ap_faces :
  h_faces h !! self = Some f ->
  subs_in_store h (f_apertures f) ->
  accepts_sub_faces f = true ->
  (forall h1, h_faces h1 !! self = Some (cleared f) ->
              rest h1 = add_generated_apertures self ap_faces h1) ->
  exists subs',
    (_acceptable_sub_face_check self ;; remove_sub_faces self ;; rest) h
      = (Ok tt,
         mkHeap (<[self := with_apertures (seq (h_next h) (length ap_faces))
                             (cleared f)]> (h_faces h))
                subs' (h_next h + length ap_faces)) /\
    (forall x, x < h_next h -> is_Some (h_subs h !! x) -> is_Some (subs' !! x)).
Proof.
  intros Hf Hl Hacc Hrest.
  erewrite bind_of_ok;
    [|rewrite (accepts_sub_faces_check self h f Hf), Hacc; reflexivity].
  destruct (remove_sub_faces_run self h f Hf Hl) as (subs1 & Hrun & Hin & Hout).
  erewrite bind_of_ok; [|exact Hrun].
  set (h1 := mkHeap (<[self:=cleared f]> (h_faces h)) subs1 (h_next h)).
  assert (Hf1 : h_faces h1 !! self = Some (cleared f))
    by (simpl; apply lookup_insert_eq).
  rewrite (Hrest h1 Hf1).
  destruct (add_generated_apertures_run self ap_faces h1 (cleared f) Hf1 Hacc eq_refl)
    as (subs2 & Hrun2 & Hold & _).
  exists subs2. split.
  - rewrite Hrun2. simpl. rewrite insert_insert_eq. reflexivity.
  - intros x Hx Hsome. rewrite (Hold x Hx). simpl.
    destruct (decide (x ∈ f_apertures f)) as [Hxa|Hxa].
    + rewrite (Hin x Hxa). apply fmap_is_Some. exact Hsome.
    + rewrite (Hout x Hxa). exact Hsome.
Qed.

Lemma apertures_by_ratio_heap self ratio tolerance rect_split h f :
  Qleb 0 ratio && Qltb ratio 1 = true ->
  h_faces h !! self = Some f ->
  accepts_sub_faces f = true ->
  subs_in_store h (f_apertures f) ->
  let ap_faces := ratio_faces f ratio tolerance rect_split in
  exists subs',
    apertures_by_ratio self ratio tolerance rect_split h
      = (Ok tt,
         mkHeap (<[self := with_apertures (seq (h_next h) (length ap_faces))
                             (cleared f)]> (h_faces h))
                subs' (h_next h + length ap_faces)) /\
    (forall x, x < h_next h -> is_Some (h_subs h !! x) -> is_Some (subs' !! x)).
Proof.
  intros Hvalid Hf Hacc Hl ap_faces. unfold apertures_by_ratio. rewrite Hvalid.
  erewrite (bind_of_ok (assert_ true)); [|reflexivity].
  apply (checked_rebuild_heap self h f _ _ Hf Hl Hacc).
  intros h1 Hf1. subst ap_faces. unfold ratio_faces.
  destruct (Qeqb ratio 0); [reflexivity|].
  erewrite bind_of_ok; [|apply get_face_ok; exact Hf1].
  change (f_geometry (cleared f)) with (f_geometry f).
  destruct (f3_remove_colinear_vertices (f_geometry f) tolerance); reflexivity.
Qed.

Lemma apertures_by_ratio_rectangle_heap self ratio aperture_height sill_height
    horizontal_separation vertical_separation tolerance h f :
  Qleb 0 ratio && Qleb ratio (95 # 100) = true ->
  h_faces h !! self = Some f ->
  accepts_sub_faces f = true ->
  subs_in_store h (f_apertures f) ->
  let ap_faces := ratio_rectangle_faces f ratio aperture_height sill_height
                    horizontal_separation vertical_separation tolerance in
  exists subs',
    apertures_by_ratio_rectangle self ratio aperture_height sill_height
        horizontal_separation vertical_separation tolerance h
      = (Ok tt,
         mkHeap (<[self := with_apertures (seq (h_next h) (length ap_faces))
                             (cleared f)]> (h_faces h))
                subs' (h_next h + length ap_faces)) /\
    (forall x, x < h_next h -> is_Some (h_subs h !! x) -> is_Some (subs' !! x)).
Proof.
  intros Hvalid Hf Hacc Hl ap_faces. unfold apertures_by_ratio_rectangle.
  rewrite Hvalid.
  erewrite (bind_of_ok (assert_ true)); [|reflexivity].
  apply (checked_rebuild_heap self h f _ _ Hf Hl Hacc).
  intros h1 Hf1. subst ap_faces. unfold ratio_rectangle_faces.
  destruct (Qeqb ratio 0); [reflexivity|].
  erewrite bind_of_ok; [|apply get_face_ok; exact Hf1].
  change (f_geometry (cleared f)) with (f_geometry f).
  destruct (f3_remove_colinear_vertices (f_geometry f) tolerance); reflexivity.
Qed.

Lemma outdoor_wall_accepts f : is_outdoor_wall f = true -> accepts_sub_faces f = true.
Proof.
  unfold is_outdoor_wall, accepts_sub_faces.
  intros H. apply andb_prop in H as [Hbc Hty].
  rewrite Hbc. apply bool_decide_eq_true_1 in Hty. rewrite Hty. reflexivity.
Qed.

Lemma for_each_concat {A} (ls : list (list A)) body h :
  for_each ls (fun l => for_each l body) h = for_each (concat ls) body h.
Proof.
  revert h. induction ls as [|l ls IH]; intros h; simpl; [reflexivity|].
  rewrite for_each_app. unfold bind.
  destruct (for_each l body h) as [[[]|e] h1]; [apply IH | reflexivity].
Qed.

End BuildersOnTheStore.

Section Walls.
Context `{Geo : Geometry}.
(** The method that a command calls on each outdoor wall, whether it takes
    its arguments, and the geometries that it makes apertures of. *)
Variable build : loc -> M unit.
Variable valid : bool.
Variable geometries : Face -> list Face3D.

Hypothesis build_rebuilds :
  valid = true ->
  forall self h f,
    h_faces h !! self = Some f ->
    accepts_sub_faces f = true ->
    subs_in_store h (f_apertures f) ->
    exists subs',
      build self h
        = (Ok tt,
           mkHeap (<[self := with_apertures
                               (seq (h_next h) (length (geometries f)))
                               (cleared f)]> (h_faces h))
                  subs' (h_next h + length (geometries f))) /\
      (forall x, x < h_next h -> is_Some (h_subs h !! x) -> is_Some (subs' !! x)).

Hypothesis build_refuses :
  valid = false -> forall self h, build self h = (Raise AssertionError, h).

Lemma walls_rebuilt faces : forall h,
  valid = true ->
  NoDup faces ->
  faces_ready h faces ->
  exists h',
    for_each faces (on_wall build) h = (Ok tt, h') /\
    (forall l, l ∉ faces -> h_faces h' !! l = h_faces h !! l) /\
    (forall l f, l ∈ faces -> h_faces h !! l = Some f ->
       exists f', h_faces h' !! l = Some f' /\ rebuilt_wall geometries f f').
Proof.
  intros h Hvalid. revert h. induction faces as [|a rest IH]; intros h Hnd Hready.
  - exists h. split; [reflexivity|]. split; [reflexivity|].
    intros l f Hl. apply elem_of_nil in Hl. destruct Hl.
  - apply NoDup_cons in Hnd as [Ha Hnd].
    destruct (Hready a) as (fa & Hfa & Hsubs); [apply elem_of_cons; auto|].
    assert (Hstep : exists h1 fa',
              on_wall build a h = (Ok tt, h1) /\
              h_faces h1 = <[a := fa']> (h_faces h) /\
              rebuilt_wall geometries fa fa' /\
              h_next h <= h_next h1 /\
              (forall x, x < h_next h -> is_Some (h_subs h !! x) ->
                         is_Some (h_subs h1 !! x))).
    { unfold on_wall. erewrite bind_of_ok; [|apply get_face_ok; exact Hfa].
      unfold rebuilt_wall.
      destruct (is_outdoor_wall fa) eqn:Hwall.
      - destruct (build_rebuilds Hvalid a h fa Hfa (outdoor_wall_accepts fa Hwall))
          as (subs' & Hrun & Hkept).
        { eapply Forall_impl; [exact Hsubs|]. intros x [Hx _]. exact Hx. }
        eexists _, _. split; [exact Hrun|]. simpl.
        split; [reflexivity|]. split; [eexists; reflexivity|].
        split; [lia | exact Hkept].
      - exists h, fa. split; [reflexivity|].
        split; [symmetry; apply insert_id; exact Hfa|].
        split; [reflexivity|]. split; [lia | auto]. }
    destruct Hstep as (h1 & fa' & Hrun & Hfaces1 & Hwall & Hn1 & Hkept).
    destruct (IH h1 Hnd) as (h' & Hrest & Hout & Hin).
    { intros l Hl. destruct (Hready l) as (f & Hf & Hs); [apply elem_of_cons; auto|].
      exists f. split.
      - rewrite Hfaces1, lookup_insert_ne; [exact Hf|].
        intros ->. contradiction.
      - eapply Forall_impl; [exact Hs|]. intros x [Hx Hlt].
        split; [apply Hkept; assumption | lia]. }
    exists h'. simpl for_each. erewrite bind_of_ok; [|exact Hrun].
    split; [exact Hrest|]. split.
    + intros l Hl. apply not_elem_of_cons in Hl as [Hne Hl].
      rewrite (Hout l Hl), Hfaces1. apply lookup_insert_ne. congruence.
    + intros l f Hl Hf. apply elem_of_cons in Hl as [->|Hl].
      * exists fa'. rewrite (Hout a Ha), Hfaces1, lookup_insert_eq.
        split; [reflexivity|]. congruence.
      * apply (Hin l f Hl). rewrite Hfaces1, lookup_insert_ne; [exact Hf|].
        intros ->. contradiction.
Qed.

Lemma walls_refused faces : forall h,
  valid = false ->
  (forall l, l ∈ faces -> is_Some (h_faces h !! l)) ->
  for_each faces (on_wall build) h
    = if existsb (outdoor_wall_at h) faces then (Raise AssertionError, h)
      else (Ok tt, h).
Proof.
  intros h Hvalid. induction faces as [|a rest IH]; intros Hin; [reflexivity|].
  destruct (Hin a) as [fa Hfa]; [apply elem_of_cons; auto|].
  simpl. unfold outdoor_wall_at at 1. rewrite Hfa.
  unfold on_wall at 1. unfold bind at 1. rewrite (bind_of_ok _ _ _ _ _ (get_face_ok _ _ _ Hfa)).
  destruct (is_outdoor_wall fa); simpl.
  - rewrite (build_refuses Hvalid). reflexivity.
  - apply IH. intros l Hl. apply Hin. apply elem_of_cons. auto.
Qed.

(** A command on the rooms of a Model. *)
Lemma command_run tolerance rooms h :
  NoDup (concat rooms) ->
  faces_ready h (concat rooms) ->
  command_outcome tolerance rooms valid geometries h
    (exit_code (assert_ (negb (Qeqb tolerance 0)) ;;
                for_outdoor_walls rooms build) h).
Proof.
  intros Hnd Hready. unfold command_outcome, exit_code, for_outdoor_walls.
  destruct (Qeqb tolerance 0); [reflexivity|].
  simpl negb. erewrite (bind_of_ok (assert_ true)); [|reflexivity].
  rewrite for_each_concat. simpl orb.
  destruct (Sumbool.sumbool_of_bool valid) as [Hvalid|Hvalid]; rewrite Hvalid.
  - rewrite andb_false_r.
    destruct (walls_rebuilt (concat rooms) h Hvalid Hnd Hready)
      as (h' & Hrun & Hout & Hin).
    rewrite Hrun. split; [reflexivity|]. split; [exact Hout | exact Hin].
  - rewrite andb_true_r. rewrite (walls_refused (concat rooms) h Hvalid).
    + destruct (existsb (outdoor_wall_at h) (concat rooms)) eqn:Hwalls;
        [reflexivity|].
      split; [reflexivity|]. split; [reflexivity|].
      intros l f Hl Hf. exists f. split; [exact Hf|].
      unfold rebuilt_wall.
      assert (Hno : outdoor_wall_at h l = false).
      { destruct (outdoor_wall_at h l) eqn:Hw; [|reflexivity].
        assert (existsb (outdoor_wall_at h) (concat rooms) = true); [|congruence].
        apply existsb_exists. exists l. split; [|exact Hw].
        apply list_elem_of_In. exact Hl. }
      unfold outdoor_wall_at in Hno. rewrite Hf in Hno. rewrite Hno. reflexivity.
    + intros l Hl. destruct (Hready l Hl) as (f & Hf & _). eauto.
Qed.

End Walls.

Section CommandOutcomes.
Context `{Geo : Geometry}.

(** X14.  [windows_by_ratio] on a Model whose rooms hold distinct faces of
    the store, each with its apertures in the store.  With a tolerance of
    0, and with a ratio outside [0, 1) on a Model that has an outdoor wall,
    the exit code is 1 and the Model is as it was: the command never stops
    half-way.  Otherwise, also for a ratio outside [0, 1) when no face is
    an outdoor wall, the exit code is 0; every face that is a Wall with an
    Outdoors boundary condition has lost its apertures and doors and has
    one new aperture for each geometry that the geometry library makes for
    the ratio; every other face of the Model is exactly what it was. *)
Theorem windows_by_ratio_outcome tolerance rooms ratio h :
  NoDup (concat rooms) ->
  faces_ready h (concat rooms) ->
  command_outcome tolerance rooms (Qleb 0 ratio && Qltb ratio 1)
    (fun f => ratio_faces f ratio tolerance true) h
    (windows_by_ratio tolerance rooms ratio h).
Proof.
  intros Hnd Hready. unfold windows_by_ratio.
  apply (command_run (fun face => apertures_by_ratio face ratio tolerance true));
    [| |exact Hnd|exact Hready].
  - intros Hvalid self h0 f Hf Hacc Hl.
    exact (apertures_by_ratio_heap self ratio tolerance true h0 f Hvalid Hf Hacc Hl).
  - intros Hvalid self h0. unfold apertures_by_ratio. rewrite Hvalid. reflexivity.
Qed.

(** X15.  [windows_by_ratio_rect] on a Model whose rooms hold distinct
    faces of the store, each with its apertures in the store, the four
    distances parsed.  With a tolerance of 0, and with a ratio outside
    [0, 0.95] on a Model that has an outdoor wall, the exit code is 1 and
    the Model is as it was.  Otherwise the exit code is 0; every face that
    is a Wall with an Outdoors boundary condition has lost its apertures
    and doors and has one new aperture for each geometry that the geometry
    library makes for the ratio and the distances; every other face of the
    Model is exactly what it was. *)
Theorem windows_by_ratio_rect_outcome tolerance rooms ratio aperture_height
    sill_height horizontal_separation vertical_separation h :
  NoDup (concat rooms) ->
  faces_ready h (concat rooms) ->
  command_outcome tolerance rooms (Qleb 0 ratio && Qleb ratio (95 # 100))
    (fun f => ratio_rectangle_faces f ratio aperture_height sill_height
                horizontal_separation vertical_separation tolerance) h
    (windows_by_ratio_rect tolerance rooms ratio aperture_height sill_height
       horizontal_separation vertical_separation h).
Proof.
  intros Hnd Hready. unfold windows_by_ratio_rect.
  apply (command_run (fun face =>
           apertures_by_ratio_rectangle face ratio aperture_height sill_height
             horizontal_separation vertical_separation tolerance));
    [| |exact Hnd|exact Hready].
  - intros Hvalid self h0 f Hf Hacc Hl.
    exact (apertures_by_ratio_rectangle_heap self ratio aperture_height
             sill_height horizontal_separation vertical_separation tolerance
             h0 f Hvalid Hf Hacc Hl).
  - intros Hvalid self h0. unfold apertures_by_ratio_rectangle.
    rewrite Hvalid. reflexivity.
Qed.

End CommandOutcomes.

Module CommandExamples.
Import Examples.
#[local] Existing Instance Flat.geometry.

Lemma store_greedy_ready :
  NoDup (concat [[0]; [1]]) /\ faces_ready store_greedy (concat [[0]; [1]]).
Proof.
  split.
  - apply NoDup_cons. split; [|apply NoDup_singleton].
    intros H. apply list_elem_of_singleton in H. discriminate H.
  - intros l Hl. apply elem_of_cons in Hl as [->|Hl];
      [|apply list_elem_of_singleton in Hl; subst l];
      eexists; (split; [reflexivity|]);
      repeat (constructor; [split; [eexists; reflexivity | simpl; lia]|]);
      constructor.
Qed.

(** X14 on the two rooms of [store_greedy], one outdoor wall each, for the
    ratio 2: the exit code is 1 and the Model is as it was. *)
Lemma windows_by_ratio_outcome_witness :
  windows_by_ratio (1 # 100) [[0]; [1]] 2 store_greedy = (1%Z, store_greedy).
Proof.
  exact (windows_by_ratio_outcome (1 # 100) [[0]; [1]] 2 store_greedy
           (proj1 store_greedy_ready) (proj2 store_greedy_ready)).
Defined.

(** X15 on the same rooms for the ratio 0.95, the largest one accepted:
    the exit code is 0, and the second wall is rebuilt: it is the face it
    was, without a door and without the cache. *)
Lemma windows_by_ratio_rect_outcome_witness :
  let r := windows_by_ratio_rect (1 # 100) [[0]; [1]] (95 # 100) 2 (8 # 10) 3 0
             store_greedy in
  r.1 = 0%Z /\
  exists f', h_faces r.2 !! 1 = Some f' /\
             f_identifier f' = "B" /\ f_doors f' = [] /\
             f_punched_geometry f' = None.
Proof.
  intros r.
  destruct (windows_by_ratio_rect_outcome (1 # 100) [[0]; [1]] (95 # 100) 2
              (8 # 10) 3 0 store_greedy
              (proj1 store_greedy_ready) (proj2 store_greedy_ready))
    as (Hcode & _ & Hin).
  split; [exact Hcode|].
  destruct (Hin 1 (face_in_room "R2" "B" (square 0 0 200) [4; 5] [] Outdoors))
    as (f' & Hf' & n & ->).
  - apply elem_of_cons. right. apply list_elem_of_singleton. reflexivity.
  - reflexivity.
  - eexists. split; [exact Hf'|]. repeat split.
Defined.

End CommandExamples.
